(** * LoopHeroOptimizer: grid model, river cursor, scoring and search

    A shallow embedding of [main.c] (the command-line optimiser) and of the
    neighbour-counting, location and scoring helpers of its earlier variant.

    Conventions.
    - C [int] values are modelled as [Z].  No counter of the program gets
      anywhere near [INT_MAX] on the grids the program can handle, and signed
      overflow is undefined in C, so no wrap-around is modelled.
    - [linIndex / numCols] and [linIndex % numCols] truncate towards zero:
      [Z.quot] and [Z.rem].
    - [struct Tile **grid] is a list of rows.  Every array access goes
      through [rd] / [modify], which fail ([None]) outside the allocated
      rows: [None] stands for an out-of-bounds memory access.
    - The file-level variables [numRows], [numCols] and the landscape
      configuration are explicit parameters; [bestVal],
      [initial_recursion] and [recursion_depth] are threaded through the
      search as a [SearchState]. *)

From Stdlib Require Import ZArith Lia Sorted.
From stdpp Require Import base tactics option list numbers.

Local Open Scope Z_scope.

(** ** Data model *)

(** [enum Terrain {LHO_EMPTY = -1, LHO_RIVER = 0, LHO_LANDSCAPE = 1}] *)
Inductive Terrain := LHO_EMPTY | LHO_RIVER | LHO_LANDSCAPE.

Definition terrain_code (t : Terrain) : Z :=
  match t with LHO_EMPTY => -1 | LHO_RIVER => 0 | LHO_LANDSCAPE => 1 end.

#[global] Instance Terrain_eq_dec : EqDecision Terrain.
Proof. solve_decision. Defined.

(** [enum Landscape] *)
Inductive Landscape := LHO_MEADOW | LHO_THICKET | LHO_MOUNTAIN | LHO_SUBURB.

(** [enum Values] *)
Definition LHO_MEADOWVAL : Z := 3.
Definition LHO_THICKETVAL : Z := 2.
Definition LHO_MOUNTAINVAL : Z := 6.
Definition LHO_SUBURBVAL : Z := 1.

(** [enum ZigZag] *)
Inductive ZigZag := LHO_UP | LHO_DOWN | LHO_LEFT | LHO_RIGHT.

Record River := mkRiver {
  headLoc : Z;
  oldHeadLoc : Z;
  newRiver : bool
}.

Record Tile := mkTile {
  type : Terrain;
  numAdjRivers : Z;
  numAdjLands : Z
}.

Record Grid := mkGrid {
  grid : list (list Tile);
  river : River;
  numFilledTiles : Z;
  maxTiles : Z;
  full : bool;
  val : Z
}.

#[global] Instance Tile_eq_dec : EqDecision Tile.
Proof. solve_decision. Defined.

#[global] Instance River_eq_dec : EqDecision River.
Proof. solve_decision. Defined.

#[global] Instance Grid_eq_dec : EqDecision Grid.
Proof. solve_decision. Defined.

(** The landscape configuration: [landChoice], [landValue], [maxTileVal]. *)
Record LandCfg := mkLandCfg {
  landChoice : Landscape;
  landValue : Z;
  maxTileVal : Z
}.

(** Static storage is zero-initialised: [landChoice = 0 = LHO_MEADOW]. *)
Definition static_cfg : LandCfg := mkLandCfg LHO_MEADOW 0 0.

(** [init_landscape]: a choice outside 0..3 falls through the switch. *)
Definition init_landscape (choice : Z) (c : LandCfg) : LandCfg :=
  if choice =? 0 then mkLandCfg LHO_MEADOW LHO_MEADOWVAL (3 * LHO_MEADOWVAL)
  else if choice =? 1 then mkLandCfg LHO_THICKET LHO_THICKETVAL (3 * LHO_THICKETVAL)
  else if choice =? 2 then mkLandCfg LHO_MOUNTAIN LHO_MOUNTAINVAL (4 * LHO_MOUNTAINVAL)
  else if choice =? 3 then mkLandCfg LHO_SUBURB LHO_SUBURBVAL (3 * LHO_SUBURBVAL)
  else c.

(** ** Array access *)

(** [t[i][j]] as an r-value. *)
Definition rd (t : list (list Tile)) (i j : Z) : option Tile :=
  if (i <? 0) || (j <? 0) then None
  else match t !! Z.to_nat i with
       | Some r => r !! Z.to_nat j
       | None => None
       end.

(** [t[i][j] = f (t[i][j])]: an in-place update of one tile. *)
Definition modify (f : Tile → Tile) (t : list (list Tile)) (i j : Z)
  : option (list (list Tile)) :=
  if (i <? 0) || (j <? 0) then None
  else match t !! Z.to_nat i with
       | Some r =>
           match r !! Z.to_nat j with
           | Some x => Some (<[Z.to_nat i := <[Z.to_nat j := f x]> r]> t)
           | None => None
           end
       | None => None
       end.

Definition set_type (k : Terrain) (x : Tile) : Tile :=
  mkTile k (numAdjRivers x) (numAdjLands x).
Definition add_rivers (d : Z) (x : Tile) : Tile :=
  mkTile (type x) (numAdjRivers x + d) (numAdjLands x).
Definition add_lands (d : Z) (x : Tile) : Tile :=
  mkTile (type x) (numAdjRivers x) (numAdjLands x + d).

(** [for (k = 0; k < n; k++)] *)
Definition upto (n : Z) : list Z := seqZ 0 n.

Section Dimensions.

Variables numRows numCols : Z.

(** ** Coordinates *)

Definition get_row_idx (linIndex : Z) : Z := Z.quot linIndex numCols.
Definition get_col_idx (linIndex : Z) : Z := Z.rem linIndex numCols.

(** ** Grid allocation and copying *)

Definition empty_tile : Tile := mkTile LHO_EMPTY 0 0.

Definition allocate_grid : Grid :=
  mkGrid (replicate (Z.to_nat numRows) (replicate (Z.to_nat numCols) empty_tile))
         (mkRiver (-1) (-1) true)
         0 (numRows * numCols) false (-1).

(** [copy_grid (dupGrid, inGrid)] copies every field and every tile of the
    [numRows] x [numCols] array: afterwards the destination holds the value
    of the source.  Grids are values here, so the copy is the source. *)
Definition copy_grid (inGrid : Grid) : Grid := inGrid.

(** [copy_grid (dupGrid, inGrid)] as its loops run: the scalar fields are
    assigned and every tile of [inGrid] is stored into the array that
    [dupGrid] already has. *)
Definition copy_grid_into (dupGrid inGrid : Grid) : option Grid :=
  t ← foldl (λ acc i,
               foldl (λ acc j, t ← acc;
                               x ← rd (grid inGrid) i j;
                               modify (λ _, x) t i j)
                     acc (upto numCols))
            (Some (grid dupGrid)) (upto numRows);
  Some (mkGrid t (river inGrid) (numFilledTiles inGrid) (maxTiles inGrid)
               (full inGrid) (val inGrid)).

(** ** Placement checks and mutations *)

Definition chk_loc (linIndex : Z) (g : Grid) : option bool :=
  if (linIndex <? 0) || (linIndex >? numRows * numCols - 1) then Some false
  else
    x ← rd (grid g) (get_row_idx linIndex) (get_col_idx linIndex);
    if terrain_code (type x) >? terrain_code LHO_EMPTY then Some false
    else Some true.

(** The block repeated in [add_land], [add_river] and [remove_terrain]:
    the four guarded updates of the orthogonal neighbours of [(i, j)]. *)
Definition touch_neighbours (f : Tile → Tile) (i j : Z) (t : list (list Tile))
  : option (list (list Tile)) :=
  t1 ← (if 0 <? i then modify f t (i - 1) j else Some t);
  t2 ← (if i <? numRows - 1 then modify f t1 (i + 1) j else Some t1);
  t3 ← (if 0 <? j then modify f t2 i (j - 1) else Some t2);
  if j <? numCols - 1 then modify f t3 i (j + 1) else Some t3.

(** [numFilledTiles++; if (numFilledTiles == maxTiles) full = true;] *)
Definition fill_one (g : Grid) : Z * bool :=
  let n := numFilledTiles g + 1 in
  (n, if n =? maxTiles g then true else full g).

Definition add_land (linIndex : Z) (g : Grid) : option (bool * Grid) :=
  validLoc ← chk_loc linIndex g;
  if validLoc : bool then
    let i := get_row_idx linIndex in
    let j := get_col_idx linIndex in
    t1 ← modify (set_type LHO_LANDSCAPE) (grid g) i j;
    let '(n, fl) := fill_one g in
    t2 ← touch_neighbours (add_lands 1) i j t1;
    Some (true, mkGrid t2 (river g) n (maxTiles g) fl (val g))
  else Some (false, g).

Definition on_border (i j : Z) : bool :=
  (i =? 0) || (j =? 0) || (i =? numRows - 1) || (j =? numCols - 1).

Definition next_to (i j ci cj : Z) : bool :=
  ((Z.abs (i - ci) =? 1) && (Z.abs (j - cj) =? 0))
  || ((Z.abs (i - ci) =? 0) && (Z.abs (j - cj) =? 1)).

Definition set_newRiver (b : bool) (g : Grid) : Grid :=
  mkGrid (grid g) (mkRiver (headLoc (river g)) (oldHeadLoc (river g)) b)
         (numFilledTiles g) (maxTiles g) (full g) (val g).

Definition add_river (linIndex : Z) (g : Grid) : option (bool * Grid) :=
  let i := get_row_idx linIndex in
  let j := get_col_idx linIndex in
  if newRiver (river g) && negb (on_border i j) then Some (false, g)
  else
    let g := if newRiver (river g) then set_newRiver false g else g in
    validLoc ← chk_loc linIndex g;
    let curLoc := headLoc (river g) in
    let ci := get_row_idx curLoc in
    let cj := get_col_idx curLoc in
    if negb (next_to i j ci cj) && (curLoc >? -1) then Some (false, g)
    else if validLoc : bool then
      t1 ← modify (set_type LHO_RIVER) (grid g) i j;
      let '(n, fl) := fill_one g in
      t2 ← touch_neighbours (add_rivers 1) i j t1;
      Some (true, mkGrid t2 (mkRiver linIndex (headLoc (river g)) (newRiver (river g)))
                         n (maxTiles g) fl (val g))
    else Some (false, g).

Definition remove_terrain (linIndex : Z) (g : Grid) : option Grid :=
  let hd := headLoc (river g) in
  let i := get_row_idx linIndex in
  let j := get_col_idx linIndex in
  x ← rd (grid g) i j;
  let oldType := type x in
  t1 ← modify (set_type LHO_EMPTY) (grid g) i j;
  let n := if terrain_code oldType >? terrain_code LHO_EMPTY
           then numFilledTiles g - 1 else numFilledTiles g in
  let rv :=
    if hd =? linIndex then
      let h := oldHeadLoc (river g) in
      mkRiver h (oldHeadLoc (river g))
              (if h =? -1 then true else newRiver (river g))
    else river g in
  t2 ← match oldType with
       | LHO_RIVER => touch_neighbours (add_rivers (-1)) i j t1
       | LHO_LANDSCAPE => touch_neighbours (add_lands (-1)) i j t1
       | LHO_EMPTY => Some t1
       end;
  Some (mkGrid t2 rv n (maxTiles g) (full g) (val g)).

(** ** Scoring *)

(** [for (i = 0; i < numRows; i++) for (j = 0; j < numCols; j++)] over the
    tiles, threading the accumulator [val]. *)
Definition tile_loop (body : Tile → Z → Z) (g : Grid) : option Z :=
  foldl (λ acc i,
           foldl (λ acc j, v ← acc; x ← rd (grid g) i j; Some (body x v))
                 acc (upto numCols))
        (Some 0) (upto numRows).

Variable cfg : LandCfg.

Definition val_calc_meadow_thicket (g : Grid) : option Z :=
  tile_loop (λ x v,
    if decide (type x = LHO_LANDSCAPE) then
      let numRivers := numAdjRivers x in
      if numRivers =? 0 then v + landValue cfg
      else v + (landValue cfg * 2) * numRivers
    else v) g.

Definition val_calc_suburb (g : Grid) : option Z :=
  tile_loop (λ x v,
    if decide (type x = LHO_LANDSCAPE) then
      let numRivers := numAdjRivers x in
      let numSuburbs := numAdjLands x in
      if numSuburbs =? 4 then v + 2 * landValue cfg
      else if negb (numRivers =? 0) then v + (landValue cfg * 2) * numRivers
      else v + landValue cfg
    else v) g.

Definition val_calc_mountain (g : Grid) : option Z :=
  tile_loop (λ x v,
    if decide (type x = LHO_LANDSCAPE) then
      let numRivers := numAdjRivers x in
      let numMountains := numAdjLands x in
      (v + numMountains * landValue cfg)
      + numMountains * numRivers * landValue cfg
    else v) g.

Definition val_calc (g : Grid) : option Z :=
  match landChoice cfg with
  | LHO_MEADOW | LHO_THICKET => val_calc_meadow_thicket g
  | LHO_SUBURB => val_calc_suburb g
  | LHO_MOUNTAIN => val_calc_mountain g
  end.

(** ** Heuristic seed *)

Record Zig := mkZig {
  zi : Z;
  zj : Z;
  zdone : bool;
  firstLoop : bool;
  zigLocalDir : ZigZag;
  zigNextDir : ZigZag;
  zigOverallDir : ZigZag
}.

Definition overall_next (o : ZigZag) : ZigZag :=
  match o with LHO_DOWN => LHO_DOWN | _ => LHO_UP end.

(** One iteration of the body of [while (!done)], after the river tile has
    been written. *)
Definition zig_step (s : Zig) : Zig :=
  let i := zi s in
  let j := zj s in
  let dn := if j =? numCols - 1 then true else zdone s in
  let '(i, j, loc, nxt) :=
    match zigLocalDir s with
    | LHO_RIGHT => (i, j + 1, zigNextDir s, overall_next (zigOverallDir s))
    | LHO_LEFT => (i, j - 1, zigNextDir s, overall_next (zigOverallDir s))
    | LHO_DOWN => (i + 1, j, LHO_RIGHT, zigNextDir s)
    | LHO_UP => (i - 1, j, LHO_RIGHT, zigNextDir s)
    end in
  let '(i, nxt, ov) :=
    if i =? numRows then (i - 2, LHO_UP, LHO_UP)
    else (i, nxt, zigOverallDir s) in
  let '(i, nxt, ov) :=
    if (i =? -1) && negb (firstLoop s) then (i + 2, LHO_DOWN, LHO_DOWN)
    else (i, nxt, ov) in
  mkZig i j dn false loc nxt ov.

Fixpoint zigzag (fuel : nat) (s : Zig) (t : list (list Tile))
  : option (list (list Tile)) :=
  match fuel with
  | O => None
  | S k =>
      if zdone s then Some t
      else
        t1 ← modify (set_type LHO_RIVER) t (zi s) (zj s);
        zigzag k (zig_step s) t1
  end.

Definition zig_start : Zig :=
  mkZig 0 0 false true LHO_RIGHT LHO_DOWN LHO_DOWN.

(** The cells the zig-zag loop of [heuristic_grid] writes, in order. *)
Fixpoint zig_cells (fuel : nat) (s : Zig) : list (Z * Z) :=
  match fuel with
  | O => []
  | S k => if zdone s then []
           else (zi s, zj s) :: zig_cells k (zig_step s)
  end.

(** The column advances on every second iteration, so the loop body runs at
    most [2 * numCols] times; the fuel is that bound (plus the final test). *)
Definition heuristic_grid (g : Grid) : option Grid :=
  t0 ← foldl (λ acc i,
                foldl (λ acc j, t ← acc; modify (set_type LHO_LANDSCAPE) t i j)
                      acc (upto numCols))
             (Some (grid g)) (upto numRows);
  t1 ← zigzag (Z.to_nat (2 * numCols) + 1) zig_start t0;
  Some (mkGrid t1 (river g) (numFilledTiles g) (maxTiles g) (full g) (val g)).

(** ** Branch-and-bound search *)

(** The file-level search variables.  [bestVal_log] is a ghost field: the
    values [bestVal] has held, most recent first. *)
Record SearchState := mkSearch {
  bestVal : Z;
  initial_recursion : bool;
  recursion_depth : Z;
  bestVal_log : list Z
}.

Definition search_start : SearchState := mkSearch (-1) true 0 [-1].

(** [bestVal = v;] *)
Definition set_bestVal (v : Z) (st : SearchState) : SearchState :=
  mkSearch v (initial_recursion st) (recursion_depth st) (v :: bestVal_log st).

Definition bump_depth (d : Z) (st : SearchState) : SearchState :=
  mkSearch (bestVal st) (initial_recursion st) (recursion_depth st + d)
           (bestVal_log st).

(** The locals of [recurse_grid] that live across loop iterations.
    ([tempGrid] is overwritten by [copy_grid] before each use.) *)
Record Locals := mkLocals {
  thisGrid : Grid;
  bestGrid : Grid;
  currentBest : Z
}.

Definition Search := Grid → SearchState → option (Grid * SearchState).

(** One arm of the inner loop: [place] is [add_river] (j = 0) or
    [add_land] (j = 1); the two arms are otherwise the same text. *)
Definition try_place (rec : Search) (place : Z → Grid → option (bool * Grid))
    (i : Z) (ls : Locals * SearchState) : option (Locals * SearchState) :=
  let '(l, st) := ls in
  '(added, tg) ← place i (thisGrid l);
  if added : bool then
    let tempGrid := copy_grid tg in
    tg' ← remove_terrain i tg;
    '(tempGrid, st) ← rec tempGrid (bump_depth 1 st);
    v ← val_calc tempGrid;
    if v >? currentBest l then
      Some (mkLocals tg' (copy_grid tempGrid) v, bump_depth (-1) (set_bestVal v st))
    else
      Some (mkLocals tg' (bestGrid l) (currentBest l), bump_depth (-1) st)
  else Some (mkLocals tg (bestGrid l) (currentBest l), st).

Definition search_loop (rec : Search) (ls : Locals * SearchState)
  : option (Locals * SearchState) :=
  foldl (λ acc i,
           ls1 ← acc;
           ls2 ← try_place rec add_river i ls1;
           try_place rec add_land i ls2)
        (Some ls) (upto (numRows * numCols)).

(** The start of the locals; on the first call the seed is computed on the
    freshly allocated [tempGrid]. *)
Definition seed_best (g : Grid) (st : SearchState)
  : option (Locals * SearchState) :=
  if initial_recursion st then
    tempGrid ← heuristic_grid allocate_grid;
    v ← val_calc tempGrid;
    Some (mkLocals (copy_grid g) (copy_grid tempGrid) v,
          mkSearch v false (recursion_depth st) (v :: bestVal_log st))
  else Some (mkLocals (copy_grid g) (copy_grid g) (bestVal st), st).

(** The body of [recurse_grid], with [rec] standing for the recursive
    calls it makes. *)
Definition recurse_body (rec : Search) (g : Grid) (st : SearchState)
  : option (Grid * SearchState) :=
  if full g then Some (g, st)
  else
    v ← val_calc g;
    let maxRemaining := maxTileVal cfg * (maxTiles g - numFilledTiles g) in
    if v + maxRemaining <=? bestVal st then Some (g, st)
    else
      ls ← seed_best g st;
      '(l, st') ← search_loop rec ls;
      Some (copy_grid (bestGrid l), st').

(** [recurse_grid]; the recursion is bounded by [fuel] nested calls. *)
Fixpoint recurse_grid (fuel : nat) : Search :=
  match fuel with
  | O => λ _ _, None
  | S k => recurse_body (recurse_grid k)
  end.

End Dimensions.

Arguments copy_grid inGrid /.

(** ** Neighbour counting of the earlier variant

    The variant of the optimiser that recomputes adjacency on every scoring
    call has three counting helpers; [count_adj_mountains] is the one written
    for mountains ("Mountains count diagonal as adjacent"). *)

Section Counting.

Variables numRows numCols : Z.

(** [if (grid.grid[a][b].type == k) { count++; }] *)
Definition count_if (k : Terrain) (t : list (list Tile)) (a b : Z) (count : Z)
  : option Z :=
  x ← rd t a b;
  Some (if decide (type x = k) then count + 1 else count).

Definition count_orth (k : Terrain) (i j : Z) (g : Grid) : option Z :=
  let t := grid g in
  c ← (if 0 <? i then count_if k t (i - 1) j 0 else Some 0);
  c ← (if i <? numRows - 1 then count_if k t (i + 1) j c else Some c);
  c ← (if 0 <? j then count_if k t i (j - 1) c else Some c);
  if j <? numCols - 1 then count_if k t i (j + 1) c else Some c.

Definition count_adj_rivers := count_orth LHO_RIVER.
Definition count_adj_lands := count_orth LHO_LANDSCAPE.

(** A guarded run of [count_if] over a list of cells. *)
Definition count_cells (guard : bool) (cells : list (Z * Z))
    (t : list (list Tile)) (count : Z) : option Z :=
  if guard then
    foldl (λ acc ab, c ← acc; count_if LHO_LANDSCAPE t ab.1 ab.2 c)
          (Some count) cells
  else Some count.

Definition count_adj_mountains (i j : Z) (g : Grid) : option Z :=
  let t := grid g in
  let lastR := numRows - 1 in
  let lastC := numCols - 1 in
  c ← count_cells ((0 <? i) && (i <? lastR) && (0 <? j) && (j <? lastC))
        [(i-1, j); (i+1, j); (i, j-1); (i, j+1);
         (i-1, j-1); (i-1, j+1); (i+1, j-1); (i+1, j+1)] t 0;
  c ← count_cells ((i =? 0) && (0 <? j) && (j <? lastC))
        [(i+1, j); (i+1, j+1); (i+1, j-1)] t c;
  c ← count_cells ((i =? lastR) && (0 <? j) && (j <? lastC))
        [(i-1, j); (i-1, j-1); (i-1, j+1)] t c;
  c ← count_cells ((j =? 0) && (0 <? i) && (i <? lastR))
        [(i, j+1); (i-1, j+1); (i+1, j+1)] t c;
  c ← count_cells ((j =? lastC) && (0 <? i) && (i <? lastR))
        [(i, j-1); (i-1, j-1); (i+1, j-1)] t c;
  c ← count_cells ((i =? 0) && (j =? 0))
        [(i, j+1); (i+1, j); (i+1, j+1)] t c;
  c ← count_cells ((i =? 0) && (j =? lastC))
        [(i, j-1); (i+1, j); (i+1, j-1)] t c;
  c ← count_cells ((i =? lastR) && (j =? 0))
        [(i, j+1); (i-1, j); (i-1, j+1)] t c;
  count_cells ((i =? lastR) && (j =? lastC))
        [(i, j-1); (i-1, j); (i-1, j-1)] t c.

(** The mountain rule as the specification words it: for each landscape
    tile, [adjacentLandscapes * perTileValue + adjacentLandscapes *
    adjacentRivers * perTileValue], with [adjacentLandscapes] counted over
    the orthogonal neighbours and the diagonal neighbours that exist. *)
Definition in_grid (a b : Z) : bool :=
  (0 <=? a) && (a <? numRows) && (0 <=? b) && (b <? numCols).

Definition spec_adjacentLandscapes (i j : Z) (g : Grid) : option Z :=
  foldl (λ acc ab,
           c ← acc;
           if in_grid ab.1 ab.2 then count_if LHO_LANDSCAPE (grid g) ab.1 ab.2 c
           else Some c)
        (Some 0)
        [(i-1, j); (i+1, j); (i, j-1); (i, j+1);
         (i-1, j-1); (i-1, j+1); (i+1, j-1); (i+1, j+1)].

Definition spec_mountain_score (perTileValue : Z) (g : Grid) : option Z :=
  foldl (λ acc i,
           foldl (λ acc j,
                    v ← acc;
                    x ← rd (grid g) i j;
                    if decide (type x = LHO_LANDSCAPE) then
                      adjL ← spec_adjacentLandscapes i j g;
                      Some (v + (adjL * perTileValue
                                 + adjL * numAdjRivers x * perTileValue))
                    else Some v)
                 acc (upto numCols))
        (Some 0) (upto numRows).

End Counting.

(** ** Adjacent locations of the earlier variant *)

Section Locations.

Variables numRows numCols : Z.

(** [if (loc[i] < 0 || loc[i] > numRows * numCols - 1) loc[i] = -1;] *)
Definition off_grid_to_minus1 (l : Z) : Z :=
  if (l <? 0) || (l >? numRows * numCols - 1) then -1 else l.

(** [get_adj_locs (linIndex, loc)]: the four entries of [loc], in the order
    Right, Left, Up, Down. *)
Definition get_adj_locs (linIndex : Z) : list Z :=
  off_grid_to_minus1
    <$> [linIndex + 1; linIndex - 1; linIndex - numCols; linIndex + numCols].

(** [valid_river_locs (grid, locs)]: the adjacent locations of the river
    head, with -1 for those that fail [chk_loc]. *)
Definition valid_river_locs (g : Grid) : option (list Z) :=
  mapM (λ l, ok ← chk_loc numRows numCols l g;
             Some (if ok : bool then l else -1))
       (get_adj_locs (headLoc (river g))).

End Locations.

(** ** Scoring of the earlier variant

    The earlier variant keeps no neighbour counters: its [val_calc_*]
    functions read only the kind of a tile and count its neighbours again
    with [count_adj_rivers] and [count_adj_lands] at every call. *)

Module Recount.
Section Scoring.

Variables numRows numCols : Z.
Variable cfg : LandCfg.

(** The two loops over the tiles; the body may read the array again. *)
Definition tile_loop (body : Z → Z → Tile → Z → option Z) (g : Grid) : option Z :=
  foldl (λ acc i,
           foldl (λ acc j, v ← acc; x ← rd (grid g) i j; body i j x v)
                 acc (upto numCols))
        (Some 0) (upto numRows).

Definition val_calc_meadow_thicket (g : Grid) : option Z :=
  tile_loop (λ i j x v,
    if decide (type x = LHO_LANDSCAPE) then
      numRivers ← count_adj_rivers numRows numCols i j g;
      Some (if numRivers =? 0 then v + landValue cfg
            else v + (landValue cfg * 2) * numRivers)
    else Some v) g.

Definition val_calc_suburb (g : Grid) : option Z :=
  tile_loop (λ i j x v,
    if decide (type x = LHO_LANDSCAPE) then
      numRivers ← count_adj_rivers numRows numCols i j g;
      numSuburbs ← count_adj_lands numRows numCols i j g;
      Some (if numSuburbs =? 4 then v + 2 * landValue cfg
            else if negb (numRivers =? 0)
                 then v + (landValue cfg * 2) * numRivers
                 else v + landValue cfg)
    else Some v) g.

Definition val_calc_mountain (g : Grid) : option Z :=
  tile_loop (λ i j x v,
    if decide (type x = LHO_LANDSCAPE) then
      numRivers ← count_adj_rivers numRows numCols i j g;
      numMountains ← count_adj_lands numRows numCols i j g;
      Some ((v + numMountains * landValue cfg)
            + numMountains * numRivers * landValue cfg)
    else Some v) g.

Definition val_calc (g : Grid) : option Z :=
  match landChoice cfg with
  | LHO_MEADOW | LHO_THICKET => val_calc_meadow_thicket g
  | LHO_SUBURB => val_calc_suburb g
  | LHO_MOUNTAIN => val_calc_mountain g
  end.

End Scoring.
End Recount.

(** ** Running several accepted placements in a row *)

Inductive Move := PlaceRiver (i : Z) | PlaceLand (i : Z) | Remove (i : Z).

(** Applies the moves in order; a rejected placement or a faulting access
    yields [None]. *)
Fixpoint play (numRows numCols : Z) (ms : list Move) (g : Grid) : option Grid :=
  match ms with
  | [] => Some g
  | m :: ms =>
      g' ← match m with
           | PlaceRiver i =>
               '(ok, g1) ← add_river numRows numCols i g;
               if ok : bool then Some g1 else None
           | PlaceLand i =>
               '(ok, g1) ← add_land numRows numCols i g;
               if ok : bool then Some g1 else None
           | Remove i => remove_terrain numRows numCols i g
           end;
      play numRows numCols ms g'
  end.

(** * Vocabulary of the statements *)

Section Statements.

Variables numRows numCols : Z.
Variable cfg : LandCfg.

Local Abbreviation row := (get_row_idx numCols).
Local Abbreviation col := (get_col_idx numCols).

(** ** Cells and shapes *)

(** The valid linear indices. *)
Definition in_range (k : Z) : Prop := 0 ≤ k ≤ numRows * numCols - 1.

(** Well-shaped grids: [numRows] rows of [numCols] tiles. *)
Definition grid_shape (g : Grid) : Prop :=
  (length <$> grid g) = replicate (Z.to_nat numRows) (Z.to_nat numCols).

(** [(a, b)] is one of the cells the neighbour block of [(i, j)] updates. *)
Definition nb (i j a b : Z) : bool :=
  ((0 <? i) && bool_decide (a = i - 1 ∧ b = j))
  || ((i <? numRows - 1) && bool_decide (a = i + 1 ∧ b = j))
  || ((0 <? j) && bool_decide (a = i ∧ b = j - 1))
  || ((j <? numCols - 1) && bool_decide (a = i ∧ b = j + 1)).

(** ** Fill bookkeeping *)

Definition occupied (x : Tile) : Z :=
  if decide (type x = LHO_EMPTY) then 0 else 1.

Definition weigh {A} (w : A → Z) (l : list A) : Z :=
  foldr (λ x n, w x + n) 0 l.

(** The number of tiles of the array whose kind is not Empty. *)
Definition filled_tiles (t : list (list Tile)) : Z :=
  weigh (weigh occupied) t.

(** [numFilledTiles] is the number of non-empty tiles. *)
Definition fill_ok (g : Grid) : Prop :=
  numFilledTiles g = filled_tiles (grid g).

(** [full] says whether [numFilledTiles] has reached [maxTiles]. *)
Definition full_ok (g : Grid) : Prop :=
  full g = (numFilledTiles g =? maxTiles g).

(** ** The river as a path *)

(** Cells [k] and [k'] pass the connectivity test of [add_river]. *)
Definition adjacent (k k' : Z) : Prop :=
  next_to (row k) (col k) (row k') (col k') = true.

Definition river_at (g : Grid) (k : Z) : Prop :=
  in_range k
  ∧ type <$> rd (grid g) (row k) (col k) = Some LHO_RIVER.

Inductive chain : list Z → Prop :=
  | chain_nil : chain []
  | chain_one k : chain [k]
  | chain_cons k k' l : adjacent k k' → chain (k' :: l) → chain (k :: k' :: l).

Definition starts_on_border (p : list Z) : Prop :=
  match list.last p with
  | Some s => on_border numRows numCols (row s) (col s) = true
  | None => True
  end.

(** [p] lists the river tiles of [g], from the head back to the start: no
    cell twice, consecutive cells adjacent, the start on the border. *)
Definition river_path (g : Grid) (p : list Z) : Prop :=
  NoDup p ∧ chain p ∧ starts_on_border p ∧ ∀ k, k ∈ p ↔ river_at g k.

Definition river_is_path (g : Grid) : Prop := ∃ p, river_path g p.

(** The river cursor agrees with the path. *)
Definition cursor_at (g : Grid) (p : list Z) : Prop :=
  match p with
  | [] => headLoc (river g) = -1 ∧ newRiver (river g) = true
  | h :: _ => headLoc (river g) = h ∧ newRiver (river g) = false
  end.

(** The way the search uses the river operations: an accepted
    [add_river i] that stays ([Extend]), or one that is undone at once by
    [remove_terrain i] ([Probe]). *)
Inductive Trial := Extend (i : Z) | Probe (i : Z).

Definition trial_moves (t : Trial) : list Move :=
  match t with
  | Extend i => [PlaceRiver i]
  | Probe i => [PlaceRiver i; Remove i]
  end.




(** ** The heuristic seed *)

(** [t'] is [t] with some tiles turned into River: same shape, and every
    cell reads as before or as before with its kind set to River. *)
Definition rivers_drawn (t t' : list (list Tile)) : Prop :=
  (length <$> t') = (length <$> t)
  ∧ ∀ a b, rd t' a b = rd t a b
           ∨ rd t' a b = set_type LHO_RIVER <$> rd t a b.

(** Consecutive cells of the list pass the connectivity test of
    [add_river]. *)
Inductive linked : list (Z * Z) → Prop :=
  | linked_nil : linked []
  | linked_one c : linked [c]
  | linked_cons c c' l :
      next_to c'.1 c'.2 c.1 c.2 = true → linked (c' :: l) →
      linked (c :: c' :: l).

(** The state of the zig-zag loop between two passes. *)
Definition zig_inv (s : Zig) : Prop :=
  zdone s = false
  ∧ 0 ≤ zi s < numRows ∧ 0 ≤ zj s ≤ numCols - 1
  ∧ zigLocalDir s ≠ LHO_LEFT
  ∧ (zigNextDir s = LHO_UP ∨ zigNextDir s = LHO_DOWN)
  ∧ (firstLoop s = true → zigLocalDir s = LHO_RIGHT).

(** ** The neighbour counters *)

(** Every tile's counters are what [count_adj_rivers] and
    [count_adj_lands] count around it. *)
Definition counters_ok (g : Grid) : Prop :=
  ∀ a b x, rd (grid g) a b = Some x →
    count_adj_rivers numRows numCols a b g = Some (numAdjRivers x)
    ∧ count_adj_lands numRows numCols a b g = Some (numAdjLands x).

Definition ind (k' k : Terrain) : Z := if decide (k' = k) then 1 else 0.

(** 1 if the tile at [(a, b)] exists and is of kind [k], else 0. *)
Definition is_kind (k : Terrain) (t : list (list Tile)) (a b : Z) : Z :=
  match rd t a b with Some x => ind (type x) k | None => 0 end.

(** The number of orthogonal neighbours of [(i, j)] of kind [k]. *)
Definition orth_count (k : Terrain) (t : list (list Tile)) (i j : Z) : Z :=
  (if 0 <? i then is_kind k t (i - 1) j else 0)
  + (if i <? numRows - 1 then is_kind k t (i + 1) j else 0)
  + (if 0 <? j then is_kind k t i (j - 1) else 0)
  + (if j <? numCols - 1 then is_kind k t i (j + 1) else 0).

Definition tallied (t : list (list Tile)) : Prop :=
  ∀ a b x, rd t a b = Some x →
    numAdjRivers x = orth_count LHO_RIVER t a b
    ∧ numAdjLands x = orth_count LHO_LANDSCAPE t a b.

(** ** The search *)

(** Every readable tile has both counters at zero. *)
Definition zero_counters (t : list (list Tile)) : Prop :=
  ∀ a b x, rd t a b = Some x → numAdjRivers x = 0 ∧ numAdjLands x = 0.

(** The log is sorted (most recent value first, each at least the one
    before it), its first entry is the current [bestVal] and its last
    entry the initial -1. *)
Definition log_ok (st : SearchState) : Prop :=
  Sorted Z.ge (bestVal_log st)
  ∧ head (bestVal_log st) = Some (bestVal st)
  ∧ list.last (bestVal_log st) = Some (-1).

Definition search_inv (st : SearchState) : Prop :=
  log_ok st ∧ (initial_recursion st = true → bestVal st ≤ 0).

(** What a call of the search guarantees to its caller. *)
Definition search_post (st : SearchState) (res : Grid * SearchState) : Prop :=
  search_inv res.2
  ∧ bestVal st ≤ bestVal res.2
  ∧ (bestVal res.2 = bestVal st
     ∨ val_calc numRows numCols cfg res.1 = Some (bestVal res.2))
  ∧ (initial_recursion st = false → initial_recursion res.2 = false).

Definition search_ok (rec : Search) : Prop :=
  ∀ g st res, search_inv st → rec g st = Some res → search_post st res.

(** The invariant of the placement loop of a call entered with
    [bestVal = b0]. *)
Definition loop_inv (b0 : Z) (ls : Locals * SearchState) : Prop :=
  search_inv ls.2
  ∧ initial_recursion ls.2 = false
  ∧ currentBest ls.1 = bestVal ls.2
  ∧ b0 ≤ bestVal ls.2
  ∧ (bestVal ls.2 = b0
     ∨ val_calc numRows numCols cfg (bestGrid ls.1) = Some (currentBest ls.1)).

(** ** Running the search to its end *)

(** What the search needs of a placement: it runs; if accepted it fills one
    more tile and [remove_terrain] restores the tiles; if rejected the
    tiles are unchanged. *)
Definition trial_ok (place : Z → Grid → option (bool * Grid)) : Prop :=
  ∀ i g, grid_shape g →
    ∃ ok g1, place i g = Some (ok, g1)
      ∧ if ok : bool
        then grid_shape g1
             ∧ filled_tiles (grid g1) = filled_tiles (grid g) + 1
             ∧ ∃ g2, remove_terrain numRows numCols i g1 = Some g2
                     ∧ grid g2 = grid g
        else grid g1 = grid g.

(** A call of the search that runs on every grid with fewer than [n] free
    tiles. *)
Definition runs_below (n : Z) (rec : Search) : Prop :=
  ∀ g st, grid_shape g →
    numRows * numCols - filled_tiles (grid g) < n →
    ∃ g' st', rec g st = Some (g', st')
      ∧ grid_shape g'
      ∧ (initial_recursion st = false → initial_recursion st' = false).

(** The part of the loop state the run depends on, in a call on [g0]. *)
Definition loop_runs (g0 : Grid) (ls : Locals * SearchState) : Prop :=
  grid (thisGrid ls.1) = grid g0
  ∧ grid_shape (bestGrid ls.1)
  ∧ initial_recursion ls.2 = false.

End Statements.

(** ** Small boards used as examples *)

Definition mountain_cfg : LandCfg := init_landscape 2 static_cfg.

(** The grid of a 1 x 3 board after rivers on cells 0 and 1. *)
Definition two_rivers : Grid :=
  mkGrid [[mkTile LHO_RIVER 1 0; mkTile LHO_RIVER 1 0; mkTile LHO_EMPTY 1 0]]
         (mkRiver 1 0 false) 2 3 false (-1).

(** A 3 x 3 board with one landscape tile on cell 0. *)
Definition corner_land : Grid :=
  mkGrid [[mkTile LHO_LANDSCAPE 0 0; mkTile LHO_EMPTY 0 1; mkTile LHO_EMPTY 0 0];
          [mkTile LHO_EMPTY 0 1; mkTile LHO_EMPTY 0 0; mkTile LHO_EMPTY 0 0];
          [mkTile LHO_EMPTY 0 0; mkTile LHO_EMPTY 0 0; mkTile LHO_EMPTY 0 0]]
         (mkRiver (-1) (-1) true) 1 9 false (-1).

(** The 1 x 3 board after rivers on 0, 1, 2 and the removal of cell 1. *)
Definition split_river : Grid :=
  mkGrid [[mkTile LHO_RIVER 0 0; mkTile LHO_EMPTY 2 0; mkTile LHO_RIVER 0 0]]
         (mkRiver 2 1 false) 2 3 true (-1).

(** The 2 x 2 board filled with landscape by four accepted [add_land]
    calls: every tile has two orthogonal landscape neighbours and one
    diagonal one. *)
Definition all_land : Grid :=
  mkGrid [[mkTile LHO_LANDSCAPE 0 2; mkTile LHO_LANDSCAPE 0 2];
          [mkTile LHO_LANDSCAPE 0 2; mkTile LHO_LANDSCAPE 0 2]]
         (mkRiver (-1) (-1) true) 4 4 true (-1).

(** The 2 x 2 board with a river on cell 0 and landscape on cells 1, 2. *)
Definition three_placed : Grid :=
  mkGrid [[mkTile LHO_RIVER 0 2; mkTile LHO_LANDSCAPE 1 0];
          [mkTile LHO_LANDSCAPE 1 0; mkTile LHO_EMPTY 0 2]]
         (mkRiver 0 (-1) false) 3 4 false (-1).

(** A probe for the run: [halt_at t0 b rec] behaves as [rec] except that it
    aborts on a call made on the tiles [t0] while [bestVal = b]. *)
Definition halt_at (t0 : list (list Tile)) (b : Z) (rec : Search) : Search :=
  λ g st, if decide (grid g = t0 ∧ bestVal st = b) then None else rec g st.

Definition nest3 (numRows numCols : Z) (cfg : LandCfg) (rec : Search) : Search :=
  recurse_body numRows numCols cfg
    (recurse_body numRows numCols cfg
       (recurse_body numRows numCols cfg rec)).

(** * Facts about the model *)

(** ** Array access *)

Lemma modify_inv f t i j t' :
  modify f t i j = Some t' →
  ∃ r x, 0 ≤ i ∧ 0 ≤ j ∧ t !! Z.to_nat i = Some r ∧ r !! Z.to_nat j = Some x
         ∧ t' = <[Z.to_nat i := <[Z.to_nat j := f x]> r]> t.
Proof.
  unfold modify. intros H.
  destruct (i <? 0) eqn:Hi; [discriminate|].
  destruct (j <? 0) eqn:Hj; [discriminate|]. simpl in H.
  destruct (t !! Z.to_nat i) as [r|] eqn:Hr; [|discriminate].
  destruct (r !! Z.to_nat j) as [x|] eqn:Hx; [|discriminate].
  exists r, x. inversion H. repeat split; auto; lia.
Qed.

Lemma rd_modify f t i j t' a b :
  modify f t i j = Some t' →
  rd t' a b = if decide (a = i ∧ b = j) then f <$> rd t a b else rd t a b.
Proof.
  intros H. apply modify_inv in H as (r & x & Hi & Hj & Hr & Hx & ->).
  unfold rd.
  destruct (a <? 0) eqn:Ha; [by case_decide|].
  destruct (b <? 0) eqn:Hb; [by case_decide|]. simpl.
  apply Z.ltb_ge in Ha, Hb.
  destruct (decide (Z.to_nat a = Z.to_nat i)) as [Hai|Hai].
  - rewrite Hai, list_lookup_insert_eq by (by eapply lookup_lt_Some).
    rewrite Hr.
    destruct (decide (Z.to_nat b = Z.to_nat j)) as [Hbj|Hbj].
    + rewrite Hbj, list_lookup_insert_eq by (by eapply lookup_lt_Some).
      rewrite Hx. case_decide; [done|]. lia.
    + rewrite list_lookup_insert_ne by done.
      case_decide; [|done]. lia.
  - rewrite list_lookup_insert_ne by done.
    case_decide; [|done]. lia.
Qed.

Lemma modify_shape f t i j t' :
  modify f t i j = Some t' → (length <$> t') = (length <$> t).
Proof.
  intros H. apply modify_inv in H as (r & x & Hi & Hj & Hr & Hx & ->).
  rewrite list_fmap_insert, length_insert.
  apply list_insert_id. by rewrite list_lookup_fmap, Hr.
Qed.

Lemma modify_is_Some f t i j :
  is_Some (rd t i j) → is_Some (modify f t i j).
Proof.
  unfold rd, modify. intros [x H].
  destruct ((i <? 0) || (j <? 0)); [discriminate|].
  destruct (t !! Z.to_nat i) as [r|]; [|discriminate].
  rewrite H. eauto.
Qed.

Lemma modify_rd_is_Some f t i j t' :
  modify f t i j = Some t' → is_Some (rd t i j).
Proof.
  intros H. apply modify_inv in H as (r & x & Hi & Hj & Hr & Hx & _).
  unfold rd.
  replace (i <? 0) with false by (symmetry; apply Z.ltb_ge; lia).
  replace (j <? 0) with false by (symmetry; apply Z.ltb_ge; lia).
  simpl. rewrite Hr. eauto.
Qed.

(** Two tile arrays of the same shape that read alike are equal. *)
Lemma rd_ext t t' :
  (length <$> t) = (length <$> t') →
  (∀ a b, rd t a b = rd t' a b) → t = t'.
Proof.
  intros Hs Hrd. apply list_eq. intros n.
  assert (Hn : length <$> (t !! n) = length <$> (t' !! n)).
  { rewrite <- !list_lookup_fmap. by f_equal. }
  destruct (t !! n) as [r|] eqn:Hr, (t' !! n) as [r'|] eqn:Hr';
    try discriminate; [|done].
  f_equal. apply list_eq. intros m.
  specialize (Hrd (Z.of_nat n) (Z.of_nat m)). unfold rd in Hrd.
  replace (Z.of_nat n <? 0) with false in Hrd by (symmetry; apply Z.ltb_ge; lia).
  replace (Z.of_nat m <? 0) with false in Hrd by (symmetry; apply Z.ltb_ge; lia).
  simpl in Hrd. rewrite !Nat2Z.id, Hr, Hr' in Hrd. done.
Qed.

(** ** The neighbour block *)

Section NeighbourFacts.

Variables numRows numCols : Z.

Lemma nb_self i j : nb numRows numCols i j i j = false.
Proof.
  unfold nb.
  rewrite !bool_decide_eq_false_2 by lia.
  by rewrite !andb_false_r.
Qed.

Lemma guarded_rd (c : bool) f t p q t' a b :
  (if c then modify f t p q else Some t) = Some t' →
  rd t' a b = if c && bool_decide (a = p ∧ b = q)
              then f <$> rd t a b else rd t a b.
Proof.
  destruct c; simpl; intros H.
  - rewrite (rd_modify _ _ _ _ _ a b H).
    case_decide; [by rewrite bool_decide_eq_true_2
                 | by rewrite bool_decide_eq_false_2].
  - by inversion H.
Qed.

Lemma guarded_shape (c : bool) f t p q t' :
  (if c then modify f t p q else Some t) = Some t' →
  (length <$> t') = (length <$> t).
Proof.
  destruct c; intros H; [by eapply modify_shape | by inversion H].
Qed.

Lemma touch_inv f i j t t' :
  touch_neighbours numRows numCols f i j t = Some t' →
  ∃ t1 t2 t3,
    (if 0 <? i then modify f t (i - 1) j else Some t) = Some t1
    ∧ (if i <? numRows - 1 then modify f t1 (i + 1) j else Some t1) = Some t2
    ∧ (if 0 <? j then modify f t2 i (j - 1) else Some t2) = Some t3
    ∧ (if j <? numCols - 1 then modify f t3 i (j + 1) else Some t3) = Some t'.
Proof.
  unfold touch_neighbours. intros H.
  destruct (if 0 <? i then _ else _) as [t1|]; [|discriminate].
  exists t1. simpl in H.
  destruct (if i <? numRows - 1 then _ else _) as [t2|]; [|discriminate].
  exists t2. simpl in H.
  destruct (if 0 <? j then _ else _) as [t3|]; [|discriminate].
  exists t3. simpl in H. done.
Qed.

Lemma touch_rd f i j t t' a b :
  touch_neighbours numRows numCols f i j t = Some t' →
  rd t' a b = if nb numRows numCols i j a b then f <$> rd t a b else rd t a b.
Proof.
  intros H. apply touch_inv in H as (t1 & t2 & t3 & E1 & E2 & E3 & E4).
  apply (guarded_rd _ _ _ _ _ _ a b) in E1, E2, E3, E4.
  rewrite E4, E3, E2, E1. unfold nb. clear.
  destruct (decide (a = i - 1 ∧ b = j)) as [D1|D1];
    [rewrite (bool_decide_eq_true_2 _ D1)
    |rewrite (bool_decide_eq_false_2 _ D1)];
  (destruct (decide (a = i + 1 ∧ b = j)) as [D2|D2];
    [rewrite (bool_decide_eq_true_2 _ D2)
    |rewrite (bool_decide_eq_false_2 _ D2)]);
  (destruct (decide (a = i ∧ b = j - 1)) as [D3|D3];
    [rewrite (bool_decide_eq_true_2 _ D3)
    |rewrite (bool_decide_eq_false_2 _ D3)]);
  (destruct (decide (a = i ∧ b = j + 1)) as [D4|D4];
    [rewrite (bool_decide_eq_true_2 _ D4)
    |rewrite (bool_decide_eq_false_2 _ D4)]);
  try (exfalso; lia);
  rewrite ?andb_false_r, ?andb_true_r, ?orb_false_r;
  destruct (0 <? i), (i <? numRows - 1), (0 <? j), (j <? numCols - 1);
  reflexivity.
Qed.

Lemma touch_shape f i j t t' :
  touch_neighbours numRows numCols f i j t = Some t' →
  (length <$> t') = (length <$> t).
Proof.
  intros H. apply touch_inv in H as (t1 & t2 & t3 & E1 & E2 & E3 & E4).
  apply guarded_shape in E1, E2, E3, E4. congruence.
Qed.

(** The block succeeds as soon as the cells it updates can be read. *)
Lemma touch_is_Some f i j t :
  (∀ a b, nb numRows numCols i j a b = true → is_Some (rd t a b)) →
  is_Some (touch_neighbours numRows numCols f i j t).
Proof.
  intros Hr. unfold touch_neighbours.
  assert (Hg : ∀ (c : bool) u p q,
             (∀ a b, rd u a b = None → rd t a b = None) →
             (c = true → nb numRows numCols i j p q = true) →
             ∃ u', (if c then modify f u p q else Some u) = Some u'
                   ∧ ∀ a b, rd u' a b = None → rd t a b = None).
  { intros c u p q Hu Hc. destruct c; [|eauto].
    destruct (modify_is_Some f u p q) as [u' Hu'].
    - destruct (rd u p q) eqn:E; [eauto|].
      apply Hu in E. destruct (Hr p q (Hc eq_refl)) as [? ?]. congruence.
    - exists u'. split; [done|]. intros a b.
      rewrite (rd_modify _ _ _ _ _ a b Hu').
      case_decide; [|apply Hu].
      destruct (rd u a b) eqn:E; [discriminate|]. intros _. by apply Hu. }
  unfold nb in Hg.
  destruct (Hg (0 <? i) t (i - 1) j) as (t1 & -> & H1); [done| |].
  { intros ->. rewrite bool_decide_eq_true_2 by done. done. }
  simpl.
  destruct (Hg (i <? numRows - 1) t1 (i + 1) j) as (t2 & -> & H2); [done| |].
  { intros ->. rewrite (bool_decide_eq_true_2 (i + 1 = i + 1 ∧ j = j)) by done.
    simpl. by rewrite orb_true_r. }
  simpl.
  destruct (Hg (0 <? j) t2 i (j - 1)) as (t3 & -> & H3); [done| |].
  { intros ->. rewrite (bool_decide_eq_true_2 (i = i ∧ j - 1 = j - 1)) by done.
    simpl. by rewrite !orb_true_r. }
  simpl.
  destruct (Hg (j <? numCols - 1) t3 i (j + 1)) as (t4 & -> & H4); [done| |].
  { intros ->. rewrite (bool_decide_eq_true_2 (i = i ∧ j + 1 = j + 1)) by done.
    simpl. by rewrite !orb_true_r. }
  eauto.
Qed.

Lemma touch_readable f i j t t' a b :
  touch_neighbours numRows numCols f i j t = Some t' →
  nb numRows numCols i j a b = true → is_Some (rd t a b).
Proof.
  intros H Hn. apply touch_inv in H as (t1 & t2 & t3 & E1 & E2 & E3 & E4).
  unfold nb in Hn.
  assert (Hk : ∀ (c : bool) u u' p q,
             (if c then modify f u p q else Some u) = Some u' →
             (∀ x y, is_Some (rd u' x y) ↔ is_Some (rd u x y))
             ∧ (c = true → is_Some (rd u p q))).
  { intros c u u' p q Hm. destruct c.
    - split; [|intros _; by eapply modify_rd_is_Some].
      intros x y. rewrite (rd_modify _ _ _ _ _ x y Hm).
      destruct (decide (x = p ∧ y = q)); [|tauto]. by rewrite fmap_is_Some.
    - inversion Hm. split; [tauto|discriminate]. }
  apply Hk in E1 as [K1 R1], E2 as [K2 R2], E3 as [K3 R3], E4 as [K4 R4].
  apply orb_prop in Hn as [Hn|Hn]; [apply orb_prop in Hn as [Hn|Hn];
    [apply orb_prop in Hn as [Hn|Hn]|]|];
    apply andb_prop in Hn as [Hc Hd];
    apply bool_decide_eq_true_1 in Hd as [-> ->].
  - by apply R1.
  - apply K1. by apply R2.
  - apply K1, K2. by apply R3.
  - apply K1, K2, K3. by apply R4.
Qed.

End NeighbourFacts.

(** ** Placement and removal *)

Section Operations.

Variables numRows numCols : Z.

Local Abbreviation row := (get_row_idx numCols).
Local Abbreviation col := (get_col_idx numCols).

(** The row and column determine the linear index. *)
Lemma idx_inj k k' : row k = row k' → col k = col k' → k = k'.
Proof.
  unfold get_row_idx, get_col_idx. intros Hq Hr.
  rewrite (Z.quot_rem' k numCols), (Z.quot_rem' k' numCols). congruence.
Qed.

Lemma chk_loc_true i g :
  chk_loc numRows numCols i g = Some true →
  in_range numRows numCols i ∧ ∃ x, rd (grid g) (row i) (col i) = Some x ∧ type x = LHO_EMPTY.
Proof.
  unfold chk_loc, in_range. intros H.
  destruct (i <? 0) eqn:E1; [discriminate|].
  destruct (i >? numRows * numCols - 1) eqn:E2; [discriminate|]. simpl in H.
  apply Z.ltb_ge in E1. rewrite Z.gtb_ltb in E2. apply Z.ltb_ge in E2.
  split; [lia|].
  destruct (rd (grid g) (row i) (col i)) as [x|]; [|discriminate].
  exists x. split; [done|]. simpl in H. by destruct (type x).
Qed.

Lemma chk_loc_outside i g :
  ¬ in_range numRows numCols i → chk_loc numRows numCols i g = Some false.
Proof.
  unfold chk_loc, in_range. intros H.
  destruct (i <? 0) eqn:E1; [done|].
  destruct (i >? numRows * numCols - 1) eqn:E2; [done|].
  apply Z.ltb_ge in E1. rewrite Z.gtb_ltb in E2. apply Z.ltb_ge in E2. lia.
Qed.

Lemma add_land_inv i g g1 :
  add_land numRows numCols i g = Some (true, g1) →
  in_range numRows numCols i ∧
  ∃ x t1 t2,
    rd (grid g) (row i) (col i) = Some x ∧ type x = LHO_EMPTY
    ∧ modify (set_type LHO_LANDSCAPE) (grid g) (row i) (col i) = Some t1
    ∧ touch_neighbours numRows numCols (add_lands 1) (row i) (col i) t1 = Some t2
    ∧ g1 = mkGrid t2 (river g) (fill_one g).1 (maxTiles g) (fill_one g).2 (val g).
Proof.
  unfold add_land. intros H.
  destruct (chk_loc numRows numCols i g) as [[|]|] eqn:Hc; simpl in H;
    [|discriminate..].
  apply chk_loc_true in Hc as (Hr & x & Hx & Hty). split; [done|].
  destruct (modify _ _ _ _) as [t1|] eqn:Hm; [|discriminate]. simpl in H.
  destruct (touch_neighbours _ _ _ _ _ _) as [t2|] eqn:Ht; [|discriminate].
  simpl in H. inversion H. by exists x, t1, t2.
Qed.

Lemma add_river_inv i g g1 :
  add_river numRows numCols i g = Some (true, g1) →
  in_range numRows numCols i
  ∧ (newRiver (river g) = true → on_border numRows numCols (row i) (col i) = true)
  ∧ (-1 < headLoc (river g) →
     next_to (row i) (col i) (row (headLoc (river g))) (col (headLoc (river g)))
     = true)
  ∧ ∃ x t1 t2,
      rd (grid g) (row i) (col i) = Some x ∧ type x = LHO_EMPTY
      ∧ modify (set_type LHO_RIVER) (grid g) (row i) (col i) = Some t1
      ∧ touch_neighbours numRows numCols (add_rivers 1) (row i) (col i) t1 = Some t2
      ∧ g1 = mkGrid t2 (mkRiver i (headLoc (river g)) false)
                    (fill_one g).1 (maxTiles g) (fill_one g).2 (val g).
Proof.
  unfold add_river. intros H.
  set (b := on_border numRows numCols (row i) (col i)) in *.
  set (g' := if newRiver (river g) then set_newRiver false g else g) in *.
  assert (Hg' : grid g' = grid g ∧ headLoc (river g') = headLoc (river g)
                 ∧ numFilledTiles g' = numFilledTiles g ∧ full g' = full g
                 ∧ maxTiles g' = maxTiles g ∧ val g' = val g
                 ∧ (b = true ∨ newRiver (river g) = false →
                    newRiver (river g') = false)).
  { unfold g'. destruct (newRiver (river g)) eqn:E; simpl; intuition congruence. }
  destruct Hg' as (Hgr & Hhd & Hnf & Hfl & Hmx & Hvl & Hnr).
  destruct (newRiver (river g) && negb b) eqn:Hnb; [discriminate|].
  destruct (chk_loc numRows numCols i g') as [v|] eqn:Hc; [|discriminate].
  simpl in H.
  destruct (negb (next_to _ _ _ _) && _) eqn:Hadj; [discriminate|].
  destruct v; [|discriminate].
  apply chk_loc_true in Hc as (Hr & x & Hx & Hty).
  destruct (modify _ _ _ _) as [t1|] eqn:Hm; [|discriminate]. simpl in H.
  destruct (touch_neighbours _ _ _ _ _ _) as [t2|] eqn:Ht; [|discriminate].
  simpl in H. inversion H as [Hg1]. clear H.
  rewrite Hhd in *. rewrite Hgr in *. rewrite Hnf, Hfl, Hmx, Hvl.
  split; [done|]. split.
  { intros E. rewrite E in Hnb. simpl in Hnb. by destruct b. }
  split.
  { intros Hh. apply andb_false_iff in Hadj as [Hadj|Hadj].
    - by apply negb_false_iff in Hadj.
    - rewrite Z.gtb_ltb in Hadj. apply Z.ltb_ge in Hadj. lia. }
  exists x, t1, t2. repeat split; try done.
  rewrite Hnr; [done|].
  destruct (newRiver (river g)); [left|by right]. by destruct b.
Qed.

(** Undoing a placement on the tile array: clearing the tile again and
    running the neighbour block with the inverse update gives back the
    array before the placement. *)
Lemma place_then_clear k (up down : Tile → Tile) t r c x t1 t2 :
  (∀ y, down (up y) = y) →
  rd t r c = Some x → type x = LHO_EMPTY →
  modify (set_type k) t r c = Some t1 →
  touch_neighbours numRows numCols up r c t1 = Some t2 →
  rd t2 r c = Some (set_type k x)
  ∧ ∃ t3, modify (set_type LHO_EMPTY) t2 r c = Some t3
          ∧ touch_neighbours numRows numCols down r c t3 = Some t.
Proof.
  intros Hud Hx Hty Hm Ht.
  assert (R2 : rd t2 r c = Some (set_type k x)).
  { rewrite (touch_rd _ _ _ _ _ _ _ _ _ Ht), nb_self.
    rewrite (rd_modify _ _ _ _ _ _ _ Hm), decide_True by done.
    by rewrite Hx. }
  split; [done|].
  destruct (modify_is_Some (set_type LHO_EMPTY) t2 r c) as [t3 Hm3]; [by eauto|].
  exists t3. split; [done|].
  destruct (touch_is_Some numRows numCols down r c t3) as [t4 Ht4].
  { intros a b Hn.
    rewrite (rd_modify _ _ _ _ _ _ _ Hm3).
    destruct (decide (a = r ∧ b = c)) as [[-> ->]|_];
      [by rewrite nb_self in Hn|].
    rewrite (touch_rd _ _ _ _ _ _ _ _ _ Ht), Hn, fmap_is_Some.
    by eapply touch_readable. }
  rewrite Ht4. f_equal. apply rd_ext.
  - rewrite (touch_shape _ _ _ _ _ _ _ Ht4), (modify_shape _ _ _ _ _ Hm3),
      (touch_shape _ _ _ _ _ _ _ Ht). by eapply modify_shape.
  - intros a b.
    rewrite (touch_rd _ _ _ _ _ _ _ _ _ Ht4), (rd_modify _ _ _ _ _ _ _ Hm3),
      (touch_rd _ _ _ _ _ _ _ _ _ Ht), (rd_modify _ _ _ _ _ _ _ Hm).
    destruct (decide (a = r ∧ b = c)) as [[-> ->]|Hne].
    + rewrite nb_self, Hx. simpl. f_equal.
      destruct x as [ty nr nl]. simpl in Hty. by subst.
    + destruct (nb numRows numCols r c a b); [|done].
      destruct (rd t a b) as [y|]; [|done]. simpl. by rewrite Hud.
Qed.

Lemma add_lands_undo y : add_lands (-1) (add_lands 1 y) = y.
Proof. destruct y. unfold add_lands. simpl. f_equal. lia. Qed.

Lemma add_rivers_undo y : add_rivers (-1) (add_rivers 1 y) = y.
Proof. destruct y. unfold add_rivers. simpl. f_equal. lia. Qed.

(** *** Well-shaped grids: [numRows] rows of [numCols] tiles *)

Lemma allocate_grid_shape : grid_shape numRows numCols (allocate_grid numRows numCols).
Proof.
  unfold grid_shape. simpl.
  rewrite fmap_replicate. by rewrite length_replicate.
Qed.

Lemma shape_rd t a b :
  (length <$> t) = replicate (Z.to_nat numRows) (Z.to_nat numCols) →
  is_Some (rd t a b) ↔ (0 ≤ a < numRows ∧ 0 ≤ b < numCols).
Proof.
  intros Hs. unfold rd.
  destruct (a <? 0) eqn:Ha; [apply Z.ltb_lt in Ha|apply Z.ltb_ge in Ha].
  { simpl. split; [by intros [? ?]|lia]. }
  destruct (b <? 0) eqn:Hb; [apply Z.ltb_lt in Hb|apply Z.ltb_ge in Hb].
  { simpl. split; [by intros [? ?]|lia]. }
  simpl.
  assert (Hl : length <$> t !! Z.to_nat a
               = replicate (Z.to_nat numRows) (Z.to_nat numCols) !! Z.to_nat a).
  { rewrite <- list_lookup_fmap. by rewrite Hs. }
  destruct (t !! Z.to_nat a) as [r|] eqn:Hr; simpl in Hl.
  - symmetry in Hl. apply lookup_replicate in Hl as [Hl Hlt].
    rewrite lookup_lt_is_Some. lia.
  - symmetry in Hl. apply lookup_replicate_None in Hl.
    split; [by intros [? ?]|lia].
Qed.

(** Inside the range the coordinates are inside the array. *)
Lemma in_range_coords k :
  0 < numCols → in_range numRows numCols k → 0 ≤ row k < numRows ∧ 0 ≤ col k < numCols.
Proof.
  unfold in_range, get_row_idx, get_col_idx. intros Hc Hk.
  pose proof (Z.quot_rem' k numCols) as E.
  pose proof (Z.rem_bound_pos k numCols ltac:(lia) Hc) as Hr.
  pose proof (Z.quot_pos k numCols ltac:(lia) Hc) as Hq.
  split; [|lia]. split; [lia|]. nia.
Qed.

(** Outside the range they are outside the array. *)
Lemma out_of_range_coords k :
  0 < numCols → ¬ in_range numRows numCols k →
  ¬ (0 ≤ row k < numRows ∧ 0 ≤ col k < numCols).
Proof.
  unfold in_range, get_row_idx, get_col_idx. intros Hc Hk [Hr Hcl].
  pose proof (Z.quot_rem' k numCols) as E. apply Hk. nia.
Qed.

Lemma nb_in_bounds i j a b :
  0 ≤ i < numRows → 0 ≤ j < numCols → nb numRows numCols i j a b = true →
  0 ≤ a < numRows ∧ 0 ≤ b < numCols.
Proof.
  unfold nb. intros Hi Hj Hn.
  apply orb_prop in Hn as [Hn|Hn]; [apply orb_prop in Hn as [Hn|Hn];
    [apply orb_prop in Hn as [Hn|Hn]|]|];
    apply andb_prop in Hn as [Hc Hd];
    apply bool_decide_eq_true_1 in Hd as [-> ->];
    apply Z.ltb_lt in Hc; lia.
Qed.

(** On a well-shaped grid a placement on a free in-range cell touches
    only cells of the array. *)
Lemma place_is_Some k up g r c :
  grid_shape numRows numCols g → 0 ≤ r < numRows → 0 ≤ c < numCols →
  ∃ t1 t2, modify (set_type k) (grid g) r c = Some t1
           ∧ touch_neighbours numRows numCols up r c t1 = Some t2.
Proof.
  intros Hs Hr Hc.
  destruct (modify_is_Some (set_type k) (grid g) r c) as [t1 Hm].
  { apply (shape_rd _ _ _ Hs). lia. }
  exists t1.
  destruct (touch_is_Some numRows numCols up r c t1) as [t2 Ht]; [|by eauto].
  intros a b Hn. apply shape_rd.
  - by rewrite (modify_shape _ _ _ _ _ Hm).
  - by eapply nb_in_bounds.
Qed.

(** *** What [remove_terrain] does right after an accepted placement *)

Lemma add_land_remove i g g1 :
  add_land numRows numCols i g = Some (true, g1) →
  remove_terrain numRows numCols i g1
  = Some (mkGrid (grid g)
                 (if headLoc (river g) =? i
                  then mkRiver (oldHeadLoc (river g)) (oldHeadLoc (river g))
                         (if oldHeadLoc (river g) =? -1 then true
                          else newRiver (river g))
                  else river g)
                 (numFilledTiles g) (maxTiles g) (fill_one g).2 (val g)).
Proof.
  intros H. apply add_land_inv in H as (_ & x & t1 & t2 & Hx & Hty & Hm & Ht & ->).
  destruct (place_then_clear _ _ (add_lands (-1)) _ _ _ _ _ _
              add_lands_undo Hx Hty Hm Ht) as (R2 & t3 & Hm3 & Ht4).
  unfold remove_terrain. simpl. rewrite R2. simpl. rewrite Hm3. simpl.
  rewrite Ht4. simpl. do 2 f_equal. lia.
Qed.

Lemma add_river_remove i g g1 :
  add_river numRows numCols i g = Some (true, g1) →
  remove_terrain numRows numCols i g1
  = Some (mkGrid (grid g)
                 (mkRiver (headLoc (river g)) (headLoc (river g))
                          (if headLoc (river g) =? -1 then true else false))
                 (numFilledTiles g) (maxTiles g) (fill_one g).2 (val g)).
Proof.
  intros H.
  apply add_river_inv in H
    as (_ & _ & _ & x & t1 & t2 & Hx & Hty & Hm & Ht & ->).
  destruct (place_then_clear _ _ (add_rivers (-1)) _ _ _ _ _ _
              add_rivers_undo Hx Hty Hm Ht) as (R2 & t3 & Hm3 & Ht4).
  unfold remove_terrain. simpl. rewrite R2. simpl. rewrite Hm3. simpl.
  rewrite Ht4. simpl. rewrite Z.eqb_refl. do 2 f_equal. lia.
Qed.

End Operations.

(** * Round trips, rejection and the river cursor *)

Section PlacementFacts.

Variables numRows numCols : Z.

Local Abbreviation row := (get_row_idx numCols).
Local Abbreviation col := (get_col_idx numCols).

(** C6.  Whenever [add_land i] is accepted on a grid [g], the following
    [remove_terrain i] succeeds and gives back the tile array of [g]
    (every tile's kind and both adjacency counters) and its
    [numFilledTiles]. *)
Theorem add_land_remove_terrain_roundtrip i g g1 :
  add_land numRows numCols i g = Some (true, g1) →
  ∃ g2, remove_terrain numRows numCols i g1 = Some g2
        ∧ grid g2 = grid g
        ∧ numFilledTiles g2 = numFilledTiles g.
Proof.
  intros H. rewrite (add_land_remove _ _ _ _ _ H). eauto.
Qed.

(** C5 (amended).  Whenever [add_river i] is accepted on [g], the
    following [remove_terrain i] succeeds and puts [headLoc] back to its
    value in [g]; [oldHeadLoc] is left equal to that same head (not to the
    [oldHeadLoc] of [g]), and [newRiver] holds afterwards exactly when the
    head of [g] was none. *)
Theorem add_river_remove_terrain_cursor i g g1 :
  add_river numRows numCols i g = Some (true, g1) →
  ∃ g2, remove_terrain numRows numCols i g1 = Some g2
        ∧ headLoc (river g2) = headLoc (river g)
        ∧ oldHeadLoc (river g2) = headLoc (river g)
        ∧ newRiver (river g2) = (headLoc (river g) =? -1).
Proof.
  intros H. rewrite (add_river_remove _ _ _ _ _ H).
  eexists. split; [done|]. simpl.
  by destruct (headLoc (river g) =? -1).
Qed.

(** C10.  With no river started, [add_river] on a cell that is not on the
    border returns false and leaves the whole grid state as it was. *)
Theorem add_river_interior_rejected i g :
  newRiver (river g) = true →
  on_border numRows numCols (row i) (col i) = false →
  add_river numRows numCols i g = Some (false, g).
Proof.
  intros Hn Hb. unfold add_river. by rewrite Hn, Hb.
Qed.

(** C7.  With no river started and no head, [add_river] on a border cell
    that is not placeable returns false but clears [newRiver], the head
    staying none; after that [add_river] is accepted on every free cell,
    border or not. *)
Theorem add_river_occupied_border_disarms i g :
  grid_shape numRows numCols g → 0 < numCols →
  newRiver (river g) = true → headLoc (river g) = -1 →
  on_border numRows numCols (row i) (col i) = true →
  chk_loc numRows numCols i g = Some false →
  add_river numRows numCols i g = Some (false, set_newRiver false g)
  ∧ newRiver (river (set_newRiver false g)) = false
  ∧ headLoc (river (set_newRiver false g)) = -1
  ∧ ∀ j, chk_loc numRows numCols j g = Some true →
         ∃ g2, add_river numRows numCols j (set_newRiver false g)
               = Some (true, g2).
Proof.
  intros Hs Hc Hn Hh Hb Hk.
  assert (Hchk : ∀ k, chk_loc numRows numCols k (set_newRiver false g)
                      = chk_loc numRows numCols k g) by done.
  split; [|split; [done|split; [done|]]].
  - unfold add_river. rewrite Hn, Hb. simpl. rewrite Hchk, Hk. simpl.
    rewrite Hh. simpl. by rewrite andb_false_r.
  - intros j Hj. unfold add_river. simpl. rewrite Hchk, Hj. simpl.
    rewrite Hh. simpl. rewrite andb_false_r.
    apply chk_loc_true in Hj as (Hr & _).
    destruct (in_range_coords _ _ _ Hc Hr) as [Hrow Hcol].
    destruct (place_is_Some numRows numCols LHO_RIVER (add_rivers 1) g
                (row j) (col j) Hs Hrow Hcol) as (t1 & t2 & -> & Ht).
    simpl. rewrite Ht. simpl. eauto.
Qed.

(** What does hold for an index outside [0, numRows * numCols):
    [chk_loc], [add_land] and [add_river] return false; [chk_loc] and
    [add_land] leave the grid as it was, and [add_river] leaves the tiles,
    the fill count, the full flag and both head indices as they were.
    [remove_terrain] has no range check: on such an index its tile access
    falls outside the array. *)
Lemma out_of_range_index i g :
  grid_shape numRows numCols g → 0 < numCols →
  ¬ in_range numRows numCols i →
  chk_loc numRows numCols i g = Some false
  ∧ add_land numRows numCols i g = Some (false, g)
  ∧ (∃ g1, add_river numRows numCols i g = Some (false, g1)
           ∧ grid g1 = grid g
           ∧ numFilledTiles g1 = numFilledTiles g
           ∧ full g1 = full g
           ∧ headLoc (river g1) = headLoc (river g)
           ∧ oldHeadLoc (river g1) = oldHeadLoc (river g))
  ∧ remove_terrain numRows numCols i g = None.
Proof.
  intros Hs Hc Hi.
  pose proof (chk_loc_outside numRows numCols i) as Hk.
  split; [by apply Hk|]. split.
  { unfold add_land. by rewrite Hk. }
  split.
  - unfold add_river.
    destruct (newRiver (river g) && negb _); [by eauto 10|].
    rewrite Hk by done. simpl.
    destruct (negb (next_to _ _ _ _) && _);
      eexists; (split; [reflexivity|]);
      by destruct (newRiver (river g)).
  - unfold remove_terrain.
    destruct (rd (grid g) (row i) (col i)) as [x|] eqn:Hx; [|done].
    exfalso. eapply out_of_range_coords; [done..|].
    apply (shape_rd _ _ _ _ _ Hs). eauto.
Qed.

End PlacementFacts.

(** Instances on small boards. *)

Lemma add_land_remove_terrain_roundtrip_witness :
  ∃ g1, add_land 2 2 3 (allocate_grid 2 2) = Some (true, g1)
        ∧ ∃ g2, remove_terrain 2 2 3 g1 = Some g2
                ∧ grid g2 = grid (allocate_grid 2 2)
                ∧ numFilledTiles g2 = numFilledTiles (allocate_grid 2 2).
Proof.
  eexists. split; [vm_compute; reflexivity|].
  apply (add_land_remove_terrain_roundtrip 2 2 3 (allocate_grid 2 2)).
  vm_compute. reflexivity.
Defined.

Lemma two_rivers_reached :
  play 1 3 [PlaceRiver 0; PlaceRiver 1] (allocate_grid 1 3) = Some two_rivers.
Proof. reflexivity. Qed.

(** C5, as stated, fails: on a 1 x 3 board holding rivers on cells 0 and
    1 (head 1, previous head 0), [add_river 2] is accepted and
    [remove_terrain 2] then leaves [oldHeadLoc] at 1, not at 0. *)
Lemma add_river_remove_terrain_loses_old_head :
  ∃ g1 g2,
    add_river 1 3 2 two_rivers = Some (true, g1)
    ∧ remove_terrain 1 3 2 g1 = Some g2
    ∧ oldHeadLoc (river two_rivers) = 0
    ∧ oldHeadLoc (river g2) = 1.
Proof. do 2 eexists. repeat split; vm_compute; reflexivity. Qed.

Lemma add_river_remove_terrain_cursor_witness :
  ∃ g1, add_river 1 3 2 two_rivers = Some (true, g1)
        ∧ ∃ g2, remove_terrain 1 3 2 g1 = Some g2
                ∧ headLoc (river g2) = headLoc (river two_rivers)
                ∧ oldHeadLoc (river g2) = headLoc (river two_rivers)
                ∧ newRiver (river g2) = (headLoc (river two_rivers) =? -1).
Proof.
  eexists. split; [vm_compute; reflexivity|].
  apply (add_river_remove_terrain_cursor 1 3 2 two_rivers).
  vm_compute. reflexivity.
Defined.

Lemma add_river_interior_rejected_witness :
  add_river 3 3 4 (allocate_grid 3 3) = Some (false, allocate_grid 3 3).
Proof.
  apply (add_river_interior_rejected 3 3 4 (allocate_grid 3 3));
    vm_compute; reflexivity.
Defined.

Lemma corner_land_reached :
  play 3 3 [PlaceLand 0] (allocate_grid 3 3) = Some corner_land.
Proof. reflexivity. Qed.

Lemma add_river_occupied_border_disarms_witness :
  add_river 3 3 0 corner_land = Some (false, set_newRiver false corner_land)
  ∧ ∃ g2, add_river 3 3 4 (set_newRiver false corner_land) = Some (true, g2).
Proof.
  destruct (add_river_occupied_border_disarms 3 3 0 corner_land)
    as (H1 & _ & _ & H2); try (vm_compute; reflexivity).
  split; [exact H1|]. apply H2. vm_compute. reflexivity.
Defined.

(** C8.  On the empty 2 x 2 board the index -1 is not rejected by every
    operation: [add_river] returns false but clears [newRiver], and
    [remove_terrain], which has no range check, accesses [grid[0][-1]],
    outside the array. *)
Theorem out_of_range_not_rejected :
  add_river 2 2 (-1) (allocate_grid 2 2)
  = Some (false, set_newRiver false (allocate_grid 2 2))
  ∧ set_newRiver false (allocate_grid 2 2) ≠ allocate_grid 2 2
  ∧ remove_terrain 2 2 (-1) (allocate_grid 2 2) = None.
Proof. repeat split; vm_compute; congruence. Qed.

Lemma out_of_range_index_example :
  chk_loc 2 2 4 (allocate_grid 2 2) = Some false
  ∧ add_land 2 2 4 (allocate_grid 2 2) = Some (false, allocate_grid 2 2)
  ∧ (∃ g1, add_river 2 2 4 (allocate_grid 2 2) = Some (false, g1)
           ∧ grid g1 = grid (allocate_grid 2 2)
           ∧ numFilledTiles g1 = numFilledTiles (allocate_grid 2 2)
           ∧ full g1 = full (allocate_grid 2 2)
           ∧ headLoc (river g1) = headLoc (river (allocate_grid 2 2))
           ∧ oldHeadLoc (river g1) = oldHeadLoc (river (allocate_grid 2 2)))
  ∧ remove_terrain 2 2 4 (allocate_grid 2 2) = None.
Proof.
  apply (out_of_range_index 2 2 4 (allocate_grid 2 2)).
  - apply allocate_grid_shape.
  - lia.
  - unfold in_range. lia.
Defined.

(** * The river as a path *)

Section RiverPath.

Variables numRows numCols : Z.

Local Abbreviation row := (get_row_idx numCols).
Local Abbreviation col := (get_col_idx numCols).

Lemma play_app ms ms' g :
  play numRows numCols (ms ++ ms') g
  = play numRows numCols ms g ≫= play numRows numCols ms'.
Proof.
  revert g. induction ms as [|m ms IH]; intros g; [done|].
  simpl. destruct (match m with PlaceRiver _ => _ | _ => _ end); [|done].
  simpl. apply IH.
Qed.

Lemma type_after_place (up : Tile → Tile) t r c x t1 t2 a b :
  (∀ y, type (up y) = type y) →
  rd t r c = Some x →
  modify (set_type LHO_RIVER) t r c = Some t1 →
  touch_neighbours numRows numCols up r c t1 = Some t2 →
  type <$> rd t2 a b
  = if decide (a = r ∧ b = c) then Some LHO_RIVER else type <$> rd t a b.
Proof.
  intros Hup Hx Hm Ht.
  assert (E : type <$> rd t2 a b = type <$> rd t1 a b).
  { rewrite (touch_rd _ _ _ _ _ _ _ a b Ht).
    destruct (nb _ _ _ _ _ _); [|done].
    destruct (rd t1 a b); [|done]. simpl. by rewrite Hup. }
  rewrite E, (rd_modify _ _ _ _ _ a b Hm).
  destruct (decide (a = r ∧ b = c)) as [[-> ->]|]; [|done].
  by rewrite Hx.
Qed.

Lemma extend_path i g g1 p :
  river_path numRows numCols g p → cursor_at g p →
  add_river numRows numCols i g = Some (true, g1) →
  river_path numRows numCols g1 (i :: p) ∧ cursor_at g1 (i :: p).
Proof.
  intros (Hnd & Hch & Hst & Hmem) Hcur H.
  apply add_river_inv in H
    as (Hr & Hb & Hadj & x & t1 & t2 & Hx & Hty & Hm & Ht & ->).
  assert (Hat : ∀ k, river_at numRows numCols (mkGrid t2 (mkRiver i (headLoc (river g)) false)
                                 (fill_one g).1 (maxTiles g) (fill_one g).2 (val g)) k
                     ↔ k = i ∨ river_at numRows numCols g k).
  { intros k. unfold river_at. simpl.
    rewrite (type_after_place (add_rivers 1) _ _ _ _ _ _ (row k) (col k)
               (λ _, eq_refl) Hx Hm Ht).
    destruct (decide (row k = row i ∧ col k = col i)) as [[E1 E2]|Hne].
    - assert (k = i) as -> by (by apply idx_inj with numCols). tauto.
    - split; [tauto|]. intros [->|?]; [tauto|done]. }
  assert (Hfresh : i ∉ p).
  { intros Hin. apply Hmem in Hin as [_ Hin]. rewrite Hx in Hin.
    simpl in Hin. congruence. }
  split; [|done]. split; [|split; [|split; [|intros k; split]]].
  - by constructor.
  - destruct p as [|h p']; [constructor|].
    constructor; [|done]. destruct Hcur as [Hh _].
    assert (in_range numRows numCols h) as Hhr.
    { apply (Hmem h). left. }
    unfold in_range in Hhr. unfold adjacent. rewrite <- Hh. apply Hadj. lia.
  - unfold starts_on_border in *. destruct p as [|h p'].
    + simpl. apply Hb. by destruct Hcur.
    + by rewrite last_cons_cons.
  - intros Hin. apply Hat. apply elem_of_cons in Hin as [->|Hin]; [by left|].
    right. by apply Hmem.
  - intros Hin. apply Hat in Hin as [->|Hin]; [left|].
    right. by apply Hmem.
Qed.

Lemma probe_path i g g1 g2 p :
  river_path numRows numCols g p → cursor_at g p →
  add_river numRows numCols i g = Some (true, g1) →
  remove_terrain numRows numCols i g1 = Some g2 →
  river_path numRows numCols g2 p ∧ cursor_at g2 p.
Proof.
  intros (Hnd & Hch & Hst & Hmem) Hcur H Hrm.
  rewrite (add_river_remove _ _ _ _ _ H) in Hrm. inversion Hrm. clear Hrm.
  split; [done|].
  destruct p as [|h p']; simpl in *; destruct Hcur as [Hh Hn].
  - by rewrite Hh.
  - assert (in_range numRows numCols h) as Hhr.
    { apply (Hmem h). left. }
    unfold in_range in Hhr. split; [done|].
    destruct (headLoc (river g) =? -1) eqn:E; [|done].
    apply Z.eqb_eq in E. lia.
Qed.

Lemma allocate_grid_no_river k :
  ¬ river_at numRows numCols (allocate_grid numRows numCols) k.
Proof.
  intros [_ H]. unfold rd in H. simpl in H.
  destruct ((row k <? 0) || (col k <? 0)); [done|].
  destruct (replicate _ _ !! Z.to_nat (row k)) as [r|] eqn:Hr; [|done].
  apply lookup_replicate in Hr as [-> _].
  destruct (replicate _ _ !! Z.to_nat (col k)) as [y|] eqn:Hy; [|done].
  apply lookup_replicate in Hy as [-> _]. done.
Qed.

Lemma trials_keep_path ts g p g' :
  river_path numRows numCols g p → cursor_at g p →
  play numRows numCols (concat (trial_moves <$> ts)) g = Some g' →
  ∃ p', river_path numRows numCols g' p' ∧ cursor_at g' p'.
Proof.
  revert g p. induction ts as [|t ts IH]; intros g p Hp Hc Hrun.
  { inversion Hrun. subst. eauto. }
  simpl in Hrun. rewrite play_app in Hrun.
  destruct (play numRows numCols (trial_moves t) g) as [g1|] eqn:Ht;
    [|discriminate].
  simpl in Hrun.
  destruct t as [i|i]; simpl in Ht.
  - destruct (add_river numRows numCols i g) as [[[|] ga]|] eqn:Ha;
      simpl in Ht; try discriminate.
    inversion Ht. subst.
    destruct (extend_path _ _ _ _ Hp Hc Ha) as [Hp' Hc']. eauto.
  - destruct (add_river numRows numCols i g) as [[[|] ga]|] eqn:Ha;
      simpl in Ht; try discriminate.
    destruct (remove_terrain numRows numCols i ga) as [gb|] eqn:Hb;
      simpl in Ht; [|discriminate].
    inversion Ht. subst.
    destruct (probe_path _ _ _ _ _ Hp Hc Ha Hb) as [Hp' Hc']. eauto.
Qed.

(** C3 (amended).  Starting from the empty grid, after any sequence of
    accepted [add_river] calls in which a [remove_terrain i] only ever
    follows directly the accepted [add_river i] it undoes, the river tiles
    form one simple path of adjacent cells whose first tile lies on the
    border. *)
Theorem river_trials_form_path ts g :
  play numRows numCols (concat (trial_moves <$> ts))
       (allocate_grid numRows numCols) = Some g →
  river_is_path numRows numCols g.
Proof.
  intros Hrun.
  destruct (trials_keep_path ts (allocate_grid numRows numCols) [] g)
    as (p & Hp & _); [|done|done|by exists p].
  split; [constructor|]. split; [constructor|]. split; [done|].
  intros k. split.
  - intros Hk. by apply elem_of_nil in Hk.
  - intros Hk. by apply allocate_grid_no_river in Hk.
Qed.

End RiverPath.

(** C3, as stated, fails: accepted [add_river] calls on cells 0, 1, 2 of a
    1 x 3 board followed by [remove_terrain 1] leave river tiles on cells
    0 and 2 only, which no path of adjacent cells lists. *)
Lemma removal_splits_river :
  play 1 3 [PlaceRiver 0; PlaceRiver 1; PlaceRiver 2; Remove 1]
       (allocate_grid 1 3) = Some split_river
  ∧ ¬ river_is_path 1 3 split_river.
Proof.
  split; [reflexivity|].
  intros (p & Hnd & Hch & _ & Hmem).
  assert (H0 : 0 ∈ p) by (apply Hmem; split; [unfold in_range; lia|done]).
  assert (H2 : 2 ∈ p) by (apply Hmem; split; [unfold in_range; lia|done]).
  assert (Hall : ∀ k, k ∈ p → k = 0 ∨ k = 2).
  { intros k Hk. apply Hmem in Hk as [Hr Hk]. unfold in_range in Hr.
    assert (k = 0 ∨ k = 1 ∨ k = 2) as [-> | [-> | ->]] by lia; auto.
    vm_compute in Hk. discriminate. }
  destruct Hch as [|k|k k' l Hadj _].
  - by apply elem_of_nil in H0.
  - apply list_elem_of_singleton in H0, H2. lia.
  - destruct (Hall k) as [->| ->]; [left|..];
      (destruct (Hall k') as [->| ->]; [right; left|..]);
      vm_compute in Hadj; discriminate.
Qed.

Lemma river_trials_form_path_witness :
  ∃ g, play 2 2 (concat (trial_moves <$> [Extend 0; Probe 2; Extend 1]))
            (allocate_grid 2 2) = Some g
       ∧ river_is_path 2 2 g.
Proof.
  eexists. split; [vm_compute; reflexivity|].
  apply (river_trials_form_path 2 2 [Extend 0; Probe 2; Extend 1]).
  vm_compute. reflexivity.
Defined.

(** * Fill bookkeeping *)

Lemma weigh_insert {A} (w : A → Z) (l : list A) n x y :
  l !! n = Some x → weigh w (<[n:=y]> l) = weigh w l - w x + w y.
Proof.
  revert n. induction l as [|z l IH]; intros n H; [done|].
  destruct n as [|n]; simpl in *.
  - inversion H. subst. unfold weigh. simpl. lia.
  - unfold weigh in *. simpl. rewrite (IH n H). lia.
Qed.

Lemma weigh_le_length (l : list Tile) :
  weigh occupied l ≤ Z.of_nat (length l).
Proof.
  induction l as [|x l IH]; [done|].
  unfold weigh in *. simpl. unfold occupied at 1. destruct (decide _); lia.
Qed.

Lemma filled_tiles_le t : filled_tiles t ≤ weigh (λ r, Z.of_nat (length r)) t.
Proof.
  induction t as [|r t IH]; [done|].
  unfold filled_tiles, weigh in *. simpl.
  pose proof (weigh_le_length r) as Hr. unfold weigh in Hr. lia.
Qed.

Lemma weigh_replicate n m :
  weigh (λ r : list Tile, Z.of_nat (length r)) (replicate n (replicate m empty_tile))
  = Z.of_nat n * Z.of_nat m.
Proof.
  induction n as [|n IH]; [done|].
  unfold weigh in *. simpl. rewrite IH, length_replicate. lia.
Qed.

Lemma weigh_lengths (t t' : list (list Tile)) :
  (length <$> t) = (length <$> t') →
  weigh (λ r, Z.of_nat (length r)) t = weigh (λ r, Z.of_nat (length r)) t'.
Proof.
  revert t'. induction t as [|r t IH]; intros [|r' t'] H; try done.
  inversion H as [[Hr Ht]]. unfold weigh in *. simpl. rewrite Hr.
  f_equal. by apply IH.
Qed.

Lemma modify_filled f t i j t' :
  modify f t i j = Some t' →
  ∃ x, rd t i j = Some x
       ∧ filled_tiles t' = filled_tiles t - occupied x + occupied (f x).
Proof.
  intros H. pose proof (modify_rd_is_Some _ _ _ _ _ H) as [x' Hx'].
  apply modify_inv in H as (r & x & Hi & Hj & Hr & Hx & ->).
  assert (x' = x) as ->.
  { unfold rd in Hx'.
    replace (i <? 0) with false in Hx' by (symmetry; apply Z.ltb_ge; lia).
    replace (j <? 0) with false in Hx' by (symmetry; apply Z.ltb_ge; lia).
    simpl in Hx'. rewrite Hr in Hx'. congruence. }
  exists x. split; [done|]. unfold filled_tiles.
  rewrite (weigh_insert _ _ _ _ _ Hr), (weigh_insert _ _ _ _ _ Hx). lia.
Qed.

Section FillFacts.

Variables numRows numCols : Z.

Local Abbreviation row := (get_row_idx numCols).
Local Abbreviation col := (get_col_idx numCols).

Lemma touch_filled f i j t t' :
  (∀ y, type (f y) = type y) →
  touch_neighbours numRows numCols f i j t = Some t' →
  filled_tiles t' = filled_tiles t.
Proof.
  intros Hf H. apply touch_inv in H as (t1 & t2 & t3 & E1 & E2 & E3 & E4).
  assert (Hg : ∀ (c : bool) u u' p q,
             (if c then modify f u p q else Some u) = Some u' →
             filled_tiles u' = filled_tiles u).
  { intros c u u' p q Hm. destruct c; [|by inversion Hm].
    apply modify_filled in Hm as (x & _ & ->).
    unfold occupied. rewrite Hf. lia. }
  apply Hg in E1, E2, E3, E4. congruence.
Qed.

Lemma add_river_rejected i g g1 :
  add_river numRows numCols i g = Some (false, g1) →
  grid g1 = grid g ∧ numFilledTiles g1 = numFilledTiles g
  ∧ maxTiles g1 = maxTiles g ∧ full g1 = full g.
Proof.
  unfold add_river. intros H.
  destruct (newRiver (river g) && negb _); [by inversion H|].
  set (g' := if newRiver (river g) then set_newRiver false g else g) in *.
  assert (Hg' : grid g' = grid g ∧ numFilledTiles g' = numFilledTiles g
                 ∧ maxTiles g' = maxTiles g ∧ full g' = full g).
  { unfold g'. by destruct (newRiver (river g)). }
  destruct (chk_loc numRows numCols i g') as [v|]; [|discriminate].
  simpl in H.
  destruct (negb (next_to _ _ _ _) && _); [by inversion H; subst|].
  destruct v; [|by inversion H; subst].
  destruct (modify _ _ _ _) as [t1|]; [|discriminate]. simpl in H.
  destruct (touch_neighbours _ _ _ _ _ _) as [t2|]; discriminate.
Qed.

(** After each of the three mutations, accepted or not, [numFilledTiles]
    still equals the number of non-empty tiles. *)
Lemma fill_count_kept i g :
  fill_ok g →
  (∀ ok g1, add_land numRows numCols i g = Some (ok, g1) → fill_ok g1)
  ∧ (∀ ok g1, add_river numRows numCols i g = Some (ok, g1) → fill_ok g1)
  ∧ (∀ g1, remove_terrain numRows numCols i g = Some g1 → fill_ok g1).
Proof.
  unfold fill_ok. intros Hg. split; [|split].
  - intros [|] g1 H.
    + apply add_land_inv in H as (_ & x & t1 & t2 & Hx & Hty & Hm & Ht & ->).
      simpl. rewrite (touch_filled (add_lands 1) _ _ _ _ (λ _, eq_refl) Ht).
      apply modify_filled in Hm as (x' & Hx' & ->).
      assert (x' = x) as -> by congruence.
      unfold occupied. simpl. rewrite Hty, Hg.
      destruct (decide (LHO_EMPTY = LHO_EMPTY)); [lia|done].
    + unfold add_land in H.
      destruct (chk_loc _ _ _ _) as [[|]|]; simpl in H; try discriminate.
      * destruct (modify _ _ _ _); [|discriminate]. simpl in H.
        destruct (touch_neighbours _ _ _ _ _ _); discriminate.
      * by inversion H; subst.
  - intros [|] g1 H.
    + apply add_river_inv in H
        as (_ & _ & _ & x & t1 & t2 & Hx & Hty & Hm & Ht & ->).
      simpl. rewrite (touch_filled (add_rivers 1) _ _ _ _ (λ _, eq_refl) Ht).
      apply modify_filled in Hm as (x' & Hx' & ->).
      assert (x' = x) as -> by congruence.
      unfold occupied. simpl. rewrite Hty, Hg.
      destruct (decide (LHO_EMPTY = LHO_EMPTY)); [lia|done].
    + apply add_river_rejected in H as (-> & -> & _). done.
  - intros g1 H. unfold remove_terrain in H.
    destruct (rd (grid g) (row i) (col i)) as [x|] eqn:Hx; [|discriminate].
    simpl in H.
    destruct (modify _ _ _ _) as [t1|] eqn:Hm; [|discriminate]. simpl in H.
    apply modify_filled in Hm as (x' & Hx' & Hf).
    assert (x' = x) as -> by congruence.
    assert (Ht : ∀ t2,
              match type x with
              | LHO_RIVER =>
                  touch_neighbours numRows numCols (add_rivers (-1)) (row i) (col i) t1
              | LHO_LANDSCAPE =>
                  touch_neighbours numRows numCols (add_lands (-1)) (row i) (col i) t1
              | LHO_EMPTY => Some t1
              end = Some t2 → filled_tiles t2 = filled_tiles t1).
    { intros t2 E. destruct (type x).
      - by inversion E.
      - by eapply touch_filled; [|exact E].
      - by eapply touch_filled; [|exact E]. }
    destruct (match type x with LHO_EMPTY => _ | _ => _ end) as [t2|] eqn:E;
      [|discriminate].
    simpl in H. inversion H. subst. simpl.
    rewrite (Ht _ eq_refl), Hf, Hg. unfold occupied. simpl.
    destruct (type x); simpl; lia.
Qed.

(** On a well-shaped grid with [maxTiles = numRows * numCols], the two
    placements also keep [full] in step with the fill count. *)
Lemma full_flag_kept_by_placements i g :
  grid_shape numRows numCols g → maxTiles g = numRows * numCols →
  fill_ok g → full_ok g →
  (∀ ok g1, add_land numRows numCols i g = Some (ok, g1) → full_ok g1)
  ∧ (∀ ok g1, add_river numRows numCols i g = Some (ok, g1) → full_ok g1).
Proof.
  unfold full_ok, fill_ok. intros Hs Hmax Hfill Hfull.
  assert (Hroom : ∀ k x t1,
            rd (grid g) (row i) (col i) = Some x → type x = LHO_EMPTY →
            modify (set_type k) (grid g) (row i) (col i) = Some t1 →
            k ≠ LHO_EMPTY →
            numFilledTiles g + 1 ≤ maxTiles g).
  { intros k x t1 Hx Hty Hm Hk.
    pose proof (modify_shape _ _ _ _ _ Hm) as Hsh.
    apply modify_filled in Hm as (x' & Hx' & Hf).
    assert (x' = x) as -> by congruence.
    pose proof (filled_tiles_le t1) as Hle.
    rewrite (weigh_lengths _ _ Hsh) in Hle.
    assert (is_Some (rd (grid g) (row i) (col i))) as Hin by eauto.
    apply (shape_rd _ _ _ _ _ Hs) in Hin.
    rewrite (weigh_lengths (grid g)
               (replicate (Z.to_nat numRows)
                  (replicate (Z.to_nat numCols) empty_tile))) in Hle.
    2:{ rewrite Hs, fmap_replicate. by rewrite length_replicate. }
    rewrite weigh_replicate in Hle.
    rewrite Hf in Hle. unfold occupied in Hle. simpl in Hle.
    rewrite Hty in Hle. destruct (decide (k = LHO_EMPTY)); [done|].
    destruct (decide (LHO_EMPTY = LHO_EMPTY)); [|done].
    rewrite Hmax, Hfill. nia. }
  assert (Hstep : numFilledTiles g + 1 ≤ maxTiles g →
            (fill_one g).2 = ((fill_one g).1 =? maxTiles g)).
  { intros Hle. unfold fill_one. simpl.
    destruct (numFilledTiles g + 1 =? maxTiles g) eqn:E; [done|].
    rewrite Hfull. apply Z.eqb_neq in E. apply Z.eqb_neq. lia. }
  split.
  - intros [|] g1 H.
    + apply add_land_inv in H as (_ & x & t1 & t2 & Hx & Hty & Hm & Ht & ->).
      simpl. apply Hstep. by eapply Hroom.
    + unfold add_land in H.
      destruct (chk_loc _ _ _ _) as [[|]|]; simpl in H; try discriminate.
      * destruct (modify _ _ _ _); [|discriminate]. simpl in H.
        destruct (touch_neighbours _ _ _ _ _ _); discriminate.
      * by inversion H; subst.
  - intros [|] g1 H.
    + apply add_river_inv in H
        as (_ & _ & _ & x & t1 & t2 & Hx & Hty & Hm & Ht & ->).
      simpl. apply Hstep. by eapply Hroom.
    + apply add_river_rejected in H as (_ & -> & -> & ->). done.
Qed.

End FillFacts.

(** * Scoring and pruning on small boards *)

Lemma all_land_reached :
  play 2 2 [PlaceLand 0; PlaceLand 1; PlaceLand 2; PlaceLand 3]
       (allocate_grid 2 2) = Some all_land.
Proof. reflexivity. Qed.

(** C1.  On the all-landscape 2 x 2 board [val_calc_mountain] returns 48:
    each tile counts its two orthogonal neighbours only ([numAdjLands],
    equal to [count_adj_lands]).  The rule with the diagonal neighbour
    included, and [count_adj_mountains], count three neighbours per tile,
    which gives 72. *)
Theorem mountain_score_skips_diagonals :
  val_calc_mountain 2 2 mountain_cfg all_land = Some 48
  ∧ spec_mountain_score 2 2 (landValue mountain_cfg) all_land = Some 72
  ∧ count_adj_lands 2 2 0 0 all_land = Some 2
  ∧ count_adj_mountains 2 2 0 0 all_land = Some 3
  ∧ spec_adjacentLandscapes 2 2 0 0 all_land = Some 3.
Proof. repeat split; vm_compute; reflexivity. Qed.

Lemma three_placed_reached :
  play 2 2 [PlaceRiver 0; PlaceLand 1; PlaceLand 2] (allocate_grid 2 2)
  = Some three_placed.
Proof. reflexivity. Qed.

(** C2.  For mountains on [three_placed] the score is 0 and one cell is
    free, so the bound is [0 + 24 * 1 = 24]; the accepted [add_land 3]
    completes the board with score 36.  With [bestVal = 24] the search
    returns a grid with these tiles untouched: the completion worth 36 is
    cut. *)
Theorem pruning_bound_too_low :
  val_calc 2 2 mountain_cfg three_placed = Some 0
  ∧ maxTileVal mountain_cfg
    * (maxTiles three_placed - numFilledTiles three_placed) = 24
  ∧ (∃ g, add_land 2 2 3 three_placed = Some (true, g)
          ∧ full g = true
          ∧ val_calc 2 2 mountain_cfg g = Some 36)
  ∧ ∀ fuel rv vl ir d log,
      let g := mkGrid (grid three_placed) rv 3 4 false vl in
      recurse_grid 2 2 mountain_cfg (S fuel) g (mkSearch 24 ir d log)
      = Some (g, mkSearch 24 ir d log).
Proof.
  split; [reflexivity|]. split; [reflexivity|]. split.
  - eexists. split; [vm_compute; reflexivity|]. split; reflexivity.
  - intros fuel rv vl ir d log g. reflexivity.
Qed.

(** The run of the 2 x 2 mountain search makes its third-level call on the
    tiles of [three_placed] with [bestVal = 24]: with the probe in place
    of that level the run aborts, and without it the run ends with 48. *)
Lemma pruned_grid_is_visited :
  nest3 2 2 mountain_cfg
        (halt_at (grid three_placed) 24 (recurse_grid 2 2 mountain_cfg 2))
        (allocate_grid 2 2) search_start = None
  ∧ bestVal ∘ snd <$> recurse_grid 2 2 mountain_cfg 5 (allocate_grid 2 2) search_start
    = Some 48.
Proof. split; vm_compute; reflexivity. Qed.

(** The same for meadows: on the 2 x 2 board with rivers on cells 0, 1, 3
    the bound is [0 + 9 * 1], and landscape on cell 2 scores 12. *)
Lemma meadow_bound_too_low :
  ∃ g g', play 2 2 [PlaceRiver 0; PlaceRiver 1; PlaceRiver 3]
               (allocate_grid 2 2) = Some g
          ∧ val_calc 2 2 (init_landscape 0 static_cfg) g = Some 0
          ∧ maxTileVal (init_landscape 0 static_cfg)
            * (maxTiles g - numFilledTiles g) = 9
          ∧ add_land 2 2 2 g = Some (true, g')
          ∧ val_calc 2 2 (init_landscape 0 static_cfg) g' = Some 12.
Proof. do 2 eexists. repeat split; vm_compute; reflexivity. Qed.

(** C9.  On the 1 x 1 board, [add_land 0] fills the grid and sets [full];
    the following [remove_terrain 0] takes [numFilledTiles] back to 0 but
    leaves [full] set, although [maxTiles] is 1. *)
Theorem remove_terrain_leaves_full_set :
  ∃ g1 g2,
    add_land 1 1 0 (allocate_grid 1 1) = Some (true, g1)
    ∧ full g1 = true ∧ numFilledTiles g1 = maxTiles g1
    ∧ remove_terrain 1 1 0 g1 = Some g2
    ∧ full g2 = true ∧ numFilledTiles g2 = 0 ∧ maxTiles g2 = 1.
Proof. do 2 eexists. repeat split; vm_compute; reflexivity. Qed.

(** * The search never lowers [bestVal] *)

Section SearchFacts.

Variables numRows numCols : Z.
Variable cfg : LandCfg.
Hypothesis landValue_nonneg : 0 ≤ landValue cfg.

(** Loops in the option monad keep an invariant that every step keeps. *)
Lemma foldl_option_inv {A B} (Inv : A → Prop) (step : A → B → option A)
    (xs : list B) (a0 a : A) :
  (∀ a b a', Inv a → step a b = Some a' → Inv a') →
  Inv a0 →
  foldl (λ acc b, a ← acc; step a b) (Some a0) xs = Some a →
  Inv a.
Proof.
  intros Hstep. revert a0. induction xs as [|x xs IH]; intros a0 H0 H.
  { inversion H. by subst. }
  simpl in H. destruct (step a0 x) as [a1|] eqn:E.
  - eapply IH; [|exact H]. eauto.
  - exfalso. clear -H. induction xs as [|y ys IHy]; [discriminate|].
    simpl in H. auto.
Qed.

Lemma foldl_option_None {A B} (step : option A → B → option A) (xs : list B) :
  (∀ b, step None b = None) → foldl step None xs = None.
Proof. intros H. induction xs as [|x xs IH]; simpl; [done|]. by rewrite H. Qed.

(** *** Scores of grids whose counters are all zero *)

Lemma modify_set_type_zero k t i j t' :
  zero_counters t → modify (set_type k) t i j = Some t' → zero_counters t'.
Proof.
  intros Hz Hm a b x. rewrite (rd_modify _ _ _ _ _ a b Hm).
  destruct (decide (a = i ∧ b = j)); [|apply Hz].
  destruct (rd t a b) as [y|] eqn:E; [|done].
  intros [= <-]. simpl. by eapply Hz.
Qed.

Lemma allocate_grid_zero :
  zero_counters (grid (allocate_grid numRows numCols)).
Proof.
  intros a b x H. unfold rd in H. simpl in H.
  destruct ((a <? 0) || (b <? 0)); [done|].
  destruct (replicate _ _ !! Z.to_nat a) as [r|] eqn:Hr; [|done].
  apply lookup_replicate in Hr as [-> _].
  apply lookup_replicate in H as [-> _]. done.
Qed.

Lemma zigzag_zero fuel s t t' :
  zero_counters t → zigzag numRows numCols fuel s t = Some t' →
  zero_counters t'.
Proof.
  revert s t. induction fuel as [|k IH]; intros s t Hz H; [discriminate|].
  simpl in H. destruct (zdone s); [by inversion H; subst|].
  destruct (modify _ _ _ _) as [t1|] eqn:Hm; [|discriminate].
  simpl in H. eapply IH; [|exact H]. by eapply modify_set_type_zero.
Qed.

Lemma heuristic_grid_zero g h :
  zero_counters (grid g) →
  heuristic_grid numRows numCols g = Some h → zero_counters (grid h).
Proof.
  unfold heuristic_grid. intros Hz H.
  destruct (foldl _ _ _) as [t0|] eqn:Hf; [|discriminate]. simpl in H.
  destruct (zigzag _ _ _ _ _) as [t1|] eqn:Hzz; [|discriminate].
  inversion H. subst. simpl.
  eapply zigzag_zero; [|exact Hzz].
  revert Hf. generalize (grid g) Hz. generalize (upto numRows).
  intros rows. induction rows as [|i rows IH]; intros u Hu Hf.
  { inversion Hf. by subst. }
  simpl in Hf.
  destruct (foldl (λ acc j, t ← acc; modify (set_type LHO_LANDSCAPE) t i j)
                  (Some u) (upto numCols)) as [u1|] eqn:Hrow.
  - eapply IH; [|exact Hf].
    eapply (foldl_option_inv zero_counters
              (λ t j, modify (set_type LHO_LANDSCAPE) t i j));
      [|exact Hu|exact Hrow].
    intros t j t' Ht Hm. by eapply modify_set_type_zero.
  - exfalso. rewrite foldl_option_None in Hf; [done|].
    intros b. apply foldl_option_None. done.
Qed.

Lemma tile_loop_nonneg body g v :
  (∀ a b x w, rd (grid g) a b = Some x → w ≤ body x w) →
  tile_loop numRows numCols body g = Some v → 0 ≤ v.
Proof.
  unfold tile_loop. intros Hb.
  assert (Hin : ∀ i js w0 w, 0 ≤ w0 →
            foldl (λ acc j, v ← acc; x ← rd (grid g) i j; Some (body x v))
                  (Some w0) js = Some w → 0 ≤ w).
  { intros i js w0 w H0 H.
    eapply (foldl_option_inv (λ w, 0 ≤ w)
              (λ v j, x ← rd (grid g) i j; Some (body x v)));
      [|exact H0|exact H].
    intros a j a' Ha Hs. destruct (rd (grid g) i j) as [x|] eqn:E; [|done].
    inversion Hs. subst. specialize (Hb _ _ _ a E). lia. }
  generalize (upto numRows). intros rows.
  assert (Hout : ∀ w0, 0 ≤ w0 →
            foldl (λ acc i,
                     foldl (λ acc j, v ← acc; x ← rd (grid g) i j;
                                     Some (body x v)) acc (upto numCols))
                  (Some w0) rows = Some v → 0 ≤ v);
    [|by apply Hout].
  induction rows as [|i rows IH]; intros w0 H0 H.
  { inversion H. by subst. }
  simpl in H.
  destruct (foldl (λ acc j, v ← acc; x ← rd (grid g) i j; Some (body x v))
                  (Some w0) (upto numCols)) as [w1|] eqn:Hrow.
  - eapply IH; [|exact H]. by eapply Hin.
  - exfalso. rewrite foldl_option_None in H; [done|].
    intros b. apply foldl_option_None. done.
Qed.

Lemma val_calc_zero_nonneg g v :
  zero_counters (grid g) → val_calc numRows numCols cfg g = Some v → 0 ≤ v.
Proof.
  intros Hz. unfold val_calc, val_calc_meadow_thicket, val_calc_suburb,
    val_calc_mountain.
  destruct (landChoice cfg); apply tile_loop_nonneg; intros a b x w Hx;
    destruct (Hz _ _ _ Hx) as [E1 E2]; rewrite ?E1, ?E2;
    destruct (decide _); simpl; lia.
Qed.

(** *** The log of [bestVal] *)

Lemma log_ok_push v st st' :
  log_ok st → bestVal st ≤ v →
  bestVal st' = v → bestVal_log st' = v :: bestVal_log st →
  log_ok st'.
Proof.
  intros (Hs & Hh & Hl) Hv Hb Hlog. unfold log_ok. rewrite Hlog, Hb.
  destruct (bestVal_log st) as [|b l]; [discriminate|].
  split; [|split; [done|by rewrite last_cons_cons]].
  constructor; [done|]. constructor. inversion Hh. lia.
Qed.

Lemma search_inv_bump d st : search_inv st → search_inv (bump_depth d st).
Proof. done. Qed.

Lemma search_post_intro st g' st' :
  search_inv st' →
  bestVal st ≤ bestVal st' →
  (bestVal st' = bestVal st
   ∨ val_calc numRows numCols cfg g' = Some (bestVal st')) →
  (initial_recursion st = false → initial_recursion st' = false) →
  search_post numRows numCols cfg st (g', st').
Proof. intros H1 H2 H3 H4. unfold search_post. simpl. auto. Qed.

Lemma loop_inv_intro b0 l st :
  log_ok st →
  initial_recursion st = false →
  currentBest l = bestVal st →
  b0 ≤ bestVal st →
  (bestVal st = b0
   ∨ val_calc numRows numCols cfg (bestGrid l) = Some (currentBest l)) →
  loop_inv numRows numCols cfg b0 (l, st).
Proof.
  intros Hs Hir Hcb Hb Hv. repeat split; simpl; try done; try apply Hs.
  intros E. congruence.
Qed.

Lemma try_place_inv rec place i b0 ls ls' :
  search_ok numRows numCols cfg rec → loop_inv numRows numCols cfg b0 ls →
  try_place numRows numCols cfg rec place i ls = Some ls' →
  loop_inv numRows numCols cfg b0 ls'.
Proof.
  intros Hrec Hinv H. destruct ls as [l st].
  destruct Hinv as (HI & Hir & Hcb & Hb0 & Hbg). simpl in *.
  destruct (place i (thisGrid l)) as [[added tg]|]; [|discriminate].
  simpl in H. destruct added; [|by inversion H; subst].
  destruct (remove_terrain numRows numCols i tg) as [tg'|]; [|discriminate].
  simpl in H.
  destruct (rec tg (bump_depth 1 st)) as [[temp st2]|] eqn:Hcall;
    [|discriminate].
  simpl in H.
  destruct (Hrec _ _ _ (search_inv_bump 1 st HI) Hcall)
    as ((Hlog & Hinit) & Hle & Hval & Hir2).
  simpl in *. specialize (Hir2 Hir).
  destruct (val_calc numRows numCols cfg temp) as [v|] eqn:Hv; [|discriminate].
  simpl in H.
  destruct (v >? currentBest l) eqn:Hgt;
    [rewrite Z.gtb_ltb in Hgt; apply Z.ltb_lt in Hgt
    |rewrite Z.gtb_ltb in Hgt; apply Z.ltb_ge in Hgt];
    inversion H; subst; clear H; simpl.
  - assert (bestVal st2 ≤ v) as Hv2.
    { destruct Hval as [E|E]; [lia|]. inversion E. lia. }
    apply loop_inv_intro; simpl; [|done|done|lia|by right].
    by apply (log_ok_push v st2).
  - assert (bestVal st2 = bestVal st) as Heq.
    { destruct Hval as [E|E]; [done|]. inversion E. lia. }
    apply loop_inv_intro; simpl; [done|done|lia|lia|].
    destruct Hbg as [E|E]; [left; lia|by right].
Qed.

Lemma search_loop_inv rec b0 ls ls' :
  search_ok numRows numCols cfg rec → loop_inv numRows numCols cfg b0 ls →
  search_loop numRows numCols cfg rec ls = Some ls' →
  loop_inv numRows numCols cfg b0 ls'.
Proof.
  intros Hrec Hinv H. unfold search_loop in H.
  eapply (foldl_option_inv (loop_inv numRows numCols cfg b0)
            (λ ls1 i,
               ls2 ← try_place numRows numCols cfg rec
                       (add_river numRows numCols) i ls1;
               try_place numRows numCols cfg rec
                 (add_land numRows numCols) i ls2));
    [|exact Hinv|exact H].
  intros a i a' Ha Hs.
  destruct (try_place _ _ _ _ (add_river _ _) _ _) as [a1|] eqn:E1;
    [|discriminate].
  simpl in Hs. eapply try_place_inv; [done| |exact Hs].
  by eapply try_place_inv.
Qed.

Lemma seed_best_inv g st ls :
  search_inv st →
  seed_best numRows numCols cfg g st = Some ls →
  loop_inv numRows numCols cfg (bestVal st) ls.
Proof.
  intros [Hlog Hinit] H. unfold seed_best in H.
  destruct (initial_recursion st) eqn:Hir.
  - destruct (heuristic_grid _ _ _) as [h|] eqn:Hh; [|discriminate].
    simpl in H.
    destruct (val_calc numRows numCols cfg h) as [v|] eqn:Hv; [|discriminate].
    inversion H. subst. clear H.
    assert (0 ≤ v) as H0.
    { eapply val_calc_zero_nonneg; [|exact Hv].
      eapply heuristic_grid_zero; [|exact Hh]. apply allocate_grid_zero. }
    specialize (Hinit eq_refl).
    apply loop_inv_intro; simpl; [|done|done|lia|by right].
    apply (log_ok_push v st); [done|lia|done|done].
  - inversion H. subst.
    apply loop_inv_intro; simpl; [done|done|done|lia|by left].
Qed.

Lemma recurse_grid_ok fuel :
  search_ok numRows numCols cfg (recurse_grid numRows numCols cfg fuel).
Proof.
  induction fuel as [|k IH]; intros g st res HI H; [discriminate|].
  simpl in H. unfold recurse_body in H.
  assert (Hsame : search_post numRows numCols cfg st (g, st)).
  { apply search_post_intro; [done|lia|by left|done]. }
  destruct (full g); [by inversion H; subst|].
  destruct (val_calc numRows numCols cfg g) as [v|]; [|discriminate].
  simpl in H.
  destruct (v + _ <=? bestVal st); [by inversion H; subst|].
  destruct (seed_best numRows numCols cfg g st) as [ls|] eqn:Hseed;
    [|discriminate].
  simpl in H.
  destruct (search_loop _ _ _ _ _) as [[l st']|] eqn:Hloop; [|discriminate].
  simpl in H. inversion H. subst. clear H.
  pose proof (search_loop_inv _ _ _ _ IH (seed_best_inv _ _ _ HI Hseed) Hloop)
    as (HI' & Hir & Hcb & Hb0 & Hbg).
  simpl in *. apply search_post_intro; [done|done| |done].
  destruct Hbg as [E|E]; [by left|right]. by rewrite <- Hcb.
Qed.

End SearchFacts.

Lemma init_landscape_value_nonneg choice :
  0 ≤ landValue (init_landscape choice static_cfg).
Proof.
  unfold init_landscape.
  repeat (destruct (_ =? _); [vm_compute; discriminate|]).
  vm_compute. discriminate.
Qed.

(** C4.  Over one whole run of the search, started on the empty grid with
    [bestVal = -1], the values [bestVal] takes one after the other never
    decrease: the log of those values (most recent first, starting from
    the initial -1 and ending in the final [bestVal]) is sorted, every
    entry being at least the one it replaced. *)
Theorem bestVal_never_decreases numRows numCols choice fuel g st :
  recurse_grid numRows numCols (init_landscape choice static_cfg) fuel
               (allocate_grid numRows numCols) search_start = Some (g, st) →
  Sorted Z.ge (bestVal_log st)
  ∧ head (bestVal_log st) = Some (bestVal st)
  ∧ list.last (bestVal_log st) = Some (-1).
Proof.
  intros H.
  assert (Hstart : search_inv search_start).
  { split; [|simpl; lia]. unfold log_ok. simpl.
    split; [|done]. repeat constructor. }
  pose proof (recurse_grid_ok numRows numCols _
                (init_landscape_value_nonneg choice) fuel) as Hok.
  destruct (Hok _ _ _ Hstart H) as ((Hlog & _) & _).
  exact Hlog.
Qed.

Lemma bestVal_never_decreases_witness :
  ∃ g st,
    recurse_grid 2 2 (init_landscape 0 static_cfg) 5
                 (allocate_grid 2 2) search_start = Some (g, st)
    ∧ bestVal_log st = [15; 15; 15; 15; 12; 12; 12; 6; -1]
    ∧ Sorted Z.ge (bestVal_log st)
    ∧ head (bestVal_log st) = Some (bestVal st)
    ∧ list.last (bestVal_log st) = Some (-1).
Proof.
  do 2 eexists. split; [vm_compute; reflexivity|].
  split; [reflexivity|].
  eapply (bestVal_never_decreases 2 2 0 5).
  vm_compute. reflexivity.
Defined.

(** * Further properties of the grid operations *)

Section GridOperations.

Variables numRows numCols : Z.

Local Abbreviation row := (get_row_idx numCols).
Local Abbreviation col := (get_col_idx numCols).

Lemma cell_coords i j :
  0 < numCols → 0 ≤ i → 0 ≤ j < numCols →
  row (i * numCols + j) = i ∧ col (i * numCols + j) = j.
Proof.
  unfold get_row_idx, get_col_idx. intros Hc Hi Hj.
  assert (Hq : (i * numCols + j) ÷ numCols = i).
  { rewrite Z.quot_div_nonneg by nia.
    rewrite Z.div_add_l by lia. rewrite Z.div_small by lia. lia. }
  split; [done|].
  pose proof (Z.quot_rem' (i * numCols + j) numCols) as E.
  rewrite Hq in E. lia.
Qed.

(** X1.  Linear indices and coordinates convert back and forth: the cell
    in row [i], column [j] has index [i * numCols + j], whose row and
    column are [i] and [j] again, and every index is rebuilt from its row
    and column. *)
Theorem coordinates_round_trip i j k :
  0 < numCols → 0 ≤ i → 0 ≤ j < numCols →
  get_row_idx numCols (i * numCols + j) = i
  ∧ get_col_idx numCols (i * numCols + j) = j
  ∧ get_row_idx numCols k * numCols + get_col_idx numCols k = k.
Proof.
  intros Hc Hi Hj. destruct (cell_coords i j Hc Hi Hj) as [E1 E2].
  split; [done|]. split; [done|].
  unfold get_row_idx, get_col_idx.
  pose proof (Z.quot_rem' k numCols) as E. lia.
Qed.

Lemma chk_loc_false i g x :
  in_range numRows numCols i →
  rd (grid g) (row i) (col i) = Some x → type x ≠ LHO_EMPTY →
  chk_loc numRows numCols i g = Some false.
Proof.
  unfold chk_loc, in_range. intros Hr Hx Hty.
  replace (i <? 0) with false by (symmetry; apply Z.ltb_ge; lia).
  replace (i >? numRows * numCols - 1) with false
    by (symmetry; rewrite Z.gtb_ltb; apply Z.ltb_ge; lia).
  simpl. rewrite Hx. simpl. by destruct (type x).
Qed.

(** What [chk_loc] answers on a well-shaped grid. *)
Lemma chk_loc_spec i g :
  grid_shape numRows numCols g → 0 < numCols →
  ∃ b, chk_loc numRows numCols i g = Some b
       ∧ (b = true ↔
          in_range numRows numCols i
          ∧ type <$> rd (grid g) (row i) (col i) = Some LHO_EMPTY).
Proof.
  intros Hs Hc.
  destruct (decide (in_range numRows numCols i)) as [Hr|Hr].
  - destruct (in_range_coords _ _ _ Hc Hr) as [Hrow Hcol].
    destruct (proj2 (shape_rd numRows numCols _ (row i) (col i) Hs)) as [x Hx];
      [done|].
    destruct (decide (type x = LHO_EMPTY)) as [Hty|Hty].
    + exists true. split; [|by rewrite Hx; simpl; rewrite Hty].
      unfold chk_loc, in_range in *.
      replace (i <? 0) with false by (symmetry; apply Z.ltb_ge; lia).
      replace (i >? numRows * numCols - 1) with false
        by (symmetry; rewrite Z.gtb_ltb; apply Z.ltb_ge; lia).
      simpl. rewrite Hx. simpl. by rewrite Hty.
    + exists false. split; [by eapply chk_loc_false|].
      split; [done|]. intros [_ E]. rewrite Hx in E. simpl in E. congruence.
  - exists false. split; [by apply chk_loc_outside|].
    split; [done|]. by intros [? _].
Qed.

(** X2.  On a well-shaped grid [chk_loc] never reads outside the array,
    and it answers true exactly for the indices inside the range whose
    tile is Empty. *)
Theorem chk_loc_decides_placeable i g :
  grid_shape numRows numCols g → 0 < numCols →
  ∃ b, chk_loc numRows numCols i g = Some b
       ∧ (b = true ↔
          in_range numRows numCols i
          ∧ type <$> rd (grid g) (row i) (col i) = Some LHO_EMPTY).
Proof. exact (chk_loc_spec i g). Qed.

(** [add_land] on a well-shaped grid. *)
Lemma add_land_spec i g :
  grid_shape numRows numCols g → 0 < numCols →
  ∃ ok g1, add_land numRows numCols i g = Some (ok, g1)
           ∧ chk_loc numRows numCols i g = Some ok
           ∧ (ok = false → g1 = g).
Proof.
  intros Hs Hc.
  destruct (chk_loc_spec i g Hs Hc) as ([|] & Hk & Hb).
  - destruct (proj1 Hb eq_refl) as [Hr _].
    destruct (in_range_coords _ _ _ Hc Hr) as [Hrow Hcol].
    destruct (place_is_Some numRows numCols LHO_LANDSCAPE (add_lands 1) g
                (row i) (col i) Hs Hrow Hcol) as (t1 & t2 & Hm & Ht).
    unfold add_land. rewrite Hk. simpl. rewrite Hm. simpl. rewrite Ht. simpl.
    eexists _, _. split; [reflexivity|]. split; [reflexivity|discriminate].
  - unfold add_land. rewrite Hk. simpl.
    eexists _, _. split; [reflexivity|]. split; [reflexivity|done].
Qed.

(** X3.  On a well-shaped grid [add_land] never reads or writes outside
    the array; it is accepted exactly when [chk_loc] holds, and a rejected
    call returns the grid untouched. *)
Theorem add_land_accepts_placeable i g :
  grid_shape numRows numCols g → 0 < numCols →
  ∃ ok g1, add_land numRows numCols i g = Some (ok, g1)
           ∧ chk_loc numRows numCols i g = Some ok
           ∧ (ok = false → g1 = g).
Proof. exact (add_land_spec i g). Qed.

(** [add_river] on a well-shaped grid. *)
Lemma add_river_spec i g :
  grid_shape numRows numCols g → 0 < numCols →
  ∃ ok g1,
    add_river numRows numCols i g = Some (ok, g1)
    ∧ (ok = true ↔
       chk_loc numRows numCols i g = Some true
       ∧ (newRiver (river g) = true →
          on_border numRows numCols (row i) (col i) = true)
       ∧ (-1 < headLoc (river g) →
          next_to (row i) (col i)
                  (row (headLoc (river g))) (col (headLoc (river g))) = true)).
Proof.
  intros Hs Hc.
  destruct (add_river numRows numCols i g) as [[ok g1]|] eqn:H.
  - exists ok, g1. split; [done|]. destruct ok.
    + split; [intros _|done].
      apply add_river_inv in H
        as (Hr & Hb & Hadj & x & t1 & t2 & Hx & Hty & _).
      split; [|done].
      destruct (chk_loc_spec i g Hs Hc) as (b & Hk & Hbb).
      rewrite Hk. f_equal. apply Hbb. split; [done|].
      by rewrite Hx; simpl; rewrite Hty.
    + split; [done|]. intros (Hk & Hb & Hadj). exfalso.
      unfold add_river in H.
      destruct (newRiver (river g)) eqn:Hn; simpl in H.
      * rewrite (Hb eq_refl) in H. simpl in H.
        change (chk_loc numRows numCols i (set_newRiver false g))
          with (chk_loc numRows numCols i g) in H.
        rewrite Hk in H. simpl in H.
        destruct (headLoc (river g) >? -1) eqn:Hh.
        -- rewrite Z.gtb_ltb in Hh. apply Z.ltb_lt in Hh.
           rewrite (Hadj Hh) in H. simpl in H.
           destruct (modify _ _ _ _); [|discriminate]. simpl in H.
           destruct (touch_neighbours _ _ _ _ _ _); discriminate.
        -- rewrite andb_false_r in H.
           destruct (modify _ _ _ _); [|discriminate]. simpl in H.
           destruct (touch_neighbours _ _ _ _ _ _); discriminate.
      * rewrite Hk in H. simpl in H.
        destruct (headLoc (river g) >? -1) eqn:Hh.
        -- rewrite Z.gtb_ltb in Hh. apply Z.ltb_lt in Hh.
           rewrite (Hadj Hh) in H. simpl in H.
           destruct (modify _ _ _ _); [|discriminate]. simpl in H.
           destruct (touch_neighbours _ _ _ _ _ _); discriminate.
        -- rewrite andb_false_r in H.
           destruct (modify _ _ _ _); [|discriminate]. simpl in H.
           destruct (touch_neighbours _ _ _ _ _ _); discriminate.
  - exfalso. unfold add_river in H.
    destruct (newRiver (river g) && negb _); [discriminate|].
    set (g' := if newRiver (river g) then set_newRiver false g else g) in *.
    assert (Hs' : grid_shape numRows numCols g').
    { unfold g'. by destruct (newRiver (river g)). }
    destruct (chk_loc_spec i g' Hs' Hc) as (b & Hk & Hbb).
    rewrite Hk in H. simpl in H.
    destruct (negb (next_to _ _ _ _) && _); [discriminate|].
    destruct b; [|discriminate].
    destruct (proj1 Hbb eq_refl) as [Hr _].
    destruct (in_range_coords _ _ _ Hc Hr) as [Hrow Hcol].
    destruct (place_is_Some numRows numCols LHO_RIVER (add_rivers 1) g'
                (row i) (col i) Hs' Hrow Hcol) as (t1 & t2 & Hm & Ht).
    rewrite Hm in H. simpl in H. rewrite Ht in H. discriminate.
Qed.

(** X4.  On a well-shaped grid [add_river] never reads or writes outside
    the array, and it is accepted exactly when the cell passes [chk_loc],
    lies on the border if no river is started, and is next to the head if
    there is one. *)
Theorem add_river_accepts_exactly i g :
  grid_shape numRows numCols g → 0 < numCols →
  ∃ ok g1,
    add_river numRows numCols i g = Some (ok, g1)
    ∧ (ok = true ↔
       chk_loc numRows numCols i g = Some true
       ∧ (newRiver (river g) = true →
          on_border numRows numCols (row i) (col i) = true)
       ∧ (-1 < headLoc (river g) →
          next_to (row i) (col i)
                  (row (headLoc (river g))) (col (headLoc (river g))) = true)).
Proof. exact (add_river_spec i g). Qed.

(** X5.  Once a river is started ([newRiver] false), a rejected
    [add_river] leaves the whole grid state exactly as it was; in
    particular a cell that is not next to the head is rejected without any
    change. *)
Theorem add_river_rejection_is_clean i g g1 :
  newRiver (river g) = false →
  add_river numRows numCols i g = Some (false, g1) →
  g1 = g.
Proof.
  unfold add_river. intros Hn H. rewrite Hn in H. simpl in H.
  destruct (chk_loc numRows numCols i g) as [v|]; [|discriminate].
  simpl in H.
  destruct (negb (next_to _ _ _ _) && _); [by inversion H|].
  destruct v; [|by inversion H].
  destruct (modify _ _ _ _); [|discriminate]. simpl in H.
  destruct (touch_neighbours _ _ _ _ _ _); discriminate.
Qed.

(** X6.  [remove_terrain] on an Empty tile that is not the river head
    changes nothing at all. *)
Theorem remove_terrain_empty_is_noop i g x :
  rd (grid g) (row i) (col i) = Some x → type x = LHO_EMPTY →
  headLoc (river g) ≠ i →
  remove_terrain numRows numCols i g = Some g.
Proof.
  intros Hx Hty Hh. unfold remove_terrain. rewrite Hx. simpl.
  destruct (modify_is_Some (set_type LHO_EMPTY) (grid g) (row i) (col i))
    as [t1 Hm]; [by eauto|].
  rewrite Hm. simpl. rewrite Hty. simpl.
  replace (headLoc (river g) =? i) with false
    by (symmetry; by apply Z.eqb_neq).
  assert (t1 = grid g) as ->.
  { apply rd_ext; [by eapply modify_shape|]. intros a b.
    rewrite (rd_modify _ _ _ _ _ a b Hm).
    destruct (decide (a = row i ∧ b = col i)) as [[-> ->]|]; [|done].
    rewrite Hx. simpl. f_equal. destruct x. simpl in *. by subst. }
  by destruct g.
Qed.

(** The three mutations keep the shape of the array. *)
Lemma mutations_shape i g :
  grid_shape numRows numCols g →
  (∀ ok g1, add_land numRows numCols i g = Some (ok, g1) →
            grid_shape numRows numCols g1 ∧ maxTiles g1 = maxTiles g)
  ∧ (∀ ok g1, add_river numRows numCols i g = Some (ok, g1) →
              grid_shape numRows numCols g1 ∧ maxTiles g1 = maxTiles g)
  ∧ (∀ g1, remove_terrain numRows numCols i g = Some g1 →
           grid_shape numRows numCols g1 ∧ maxTiles g1 = maxTiles g).
Proof.
  unfold grid_shape. intros Hs. split; [|split].
  - intros [|] g1 H.
    + apply add_land_inv in H as (_ & x & t1 & t2 & _ & _ & Hm & Ht & ->).
      simpl. split; [|done].
      by rewrite (touch_shape _ _ _ _ _ _ _ Ht), (modify_shape _ _ _ _ _ Hm).
    + unfold add_land in H.
      destruct (chk_loc _ _ _ _) as [[|]|]; simpl in H; try discriminate.
      * destruct (modify _ _ _ _); [|discriminate]. simpl in H.
        destruct (touch_neighbours _ _ _ _ _ _); discriminate.
      * by inversion H; subst.
  - intros [|] g1 H.
    + apply add_river_inv in H
        as (_ & _ & _ & x & t1 & t2 & _ & _ & Hm & Ht & ->).
      simpl. split; [|done].
      by rewrite (touch_shape _ _ _ _ _ _ _ Ht), (modify_shape _ _ _ _ _ Hm).
    + apply add_river_rejected in H as (-> & _ & -> & _). done.
  - intros g1 H. unfold remove_terrain in H.
    destruct (rd (grid g) (row i) (col i)) as [x|]; [|discriminate].
    simpl in H.
    destruct (modify _ _ _ _) as [t1|] eqn:Hm; [|discriminate]. simpl in H.
    destruct (match type x with LHO_EMPTY => _ | _ => _ end) as [t2|] eqn:E;
      [|discriminate].
    simpl in H. inversion H. subst. simpl. split; [|done].
    rewrite <- Hs, <- (modify_shape _ _ _ _ _ Hm).
    destruct (type x); [by inversion E|by eapply touch_shape..].
Qed.

(** X7.  None of the three mutations resizes the grid: whatever they
    return, the array keeps its [numRows] x [numCols] shape and
    [maxTiles] is unchanged. *)
Theorem mutations_keep_shape i g :
  grid_shape numRows numCols g →
  (∀ ok g1, add_land numRows numCols i g = Some (ok, g1) →
            grid_shape numRows numCols g1 ∧ maxTiles g1 = maxTiles g)
  ∧ (∀ ok g1, add_river numRows numCols i g = Some (ok, g1) →
              grid_shape numRows numCols g1 ∧ maxTiles g1 = maxTiles g)
  ∧ (∀ g1, remove_terrain numRows numCols i g = Some g1 →
           grid_shape numRows numCols g1 ∧ maxTiles g1 = maxTiles g).
Proof. exact (mutations_shape i g). Qed.

End GridOperations.

(** * The heuristic seed *)

Section HeuristicFacts.

Variables numRows numCols : Z.

Lemma rd_after_place k up t r c t1 t2 a b :
  modify (set_type k) t r c = Some t1 →
  touch_neighbours numRows numCols up r c t1 = Some t2 →
  rd t2 a b
  = (if nb numRows numCols r c a b then fmap up else id)
      ((if decide (a = r ∧ b = c) then fmap (set_type k) else id) (rd t a b)).
Proof.
  intros Hm Ht.
  rewrite (touch_rd _ _ _ _ _ _ _ a b Ht), (rd_modify _ _ _ _ _ a b Hm).
  by destruct (nb _ _ _ _ _ _), (decide _).
Qed.

(** Painting the cells [(i, j)], [j] in [js], of one row. *)
Lemma paint_row k i js t :
  (∀ j, j ∈ js → is_Some (rd t i j)) →
  ∃ t', foldl (λ acc j, u ← acc; modify (set_type k) u i j) (Some t) js = Some t'
        ∧ (length <$> t') = (length <$> t)
        ∧ ∀ a b, rd t' a b
                 = if decide (a = i ∧ b ∈ js) then set_type k <$> rd t a b
                   else rd t a b.
Proof.
  revert t. induction js as [|j js IH]; intros t Hr.
  { exists t. split; [done|]. split; [done|]. intros a b.
    destruct (decide _) as [[_ H]|]; [|done]. by apply elem_of_nil in H. }
  destruct (modify_is_Some (set_type k) t i j) as [t1 Hm].
  { apply Hr. left. }
  destruct (IH t1) as (t' & Hf & Hs & Hrd).
  { intros j' Hj'. rewrite (rd_modify _ _ _ _ _ i j' Hm).
    destruct (decide _); [rewrite fmap_is_Some|]; apply Hr; by right. }
  exists t'. simpl. rewrite Hm. simpl. split; [done|]. split.
  { by rewrite Hs, (modify_shape _ _ _ _ _ Hm). }
  intros a b. rewrite Hrd, (rd_modify _ _ _ _ _ a b Hm).
  destruct (decide (a = i ∧ b ∈ js)) as [H1|H1],
    (decide (a = i ∧ b = j)) as [H2|H2],
    (decide (a = i ∧ b ∈ j :: js)) as [H3|H3];
    try done; try (by destruct (rd t a b));
    exfalso; rewrite elem_of_cons in H3; tauto.
Qed.

(** Painting whole rows: the first loop nest of [heuristic_grid]. *)
Lemma paint_rows k rs js t :
  (∀ i j, i ∈ rs → j ∈ js → is_Some (rd t i j)) →
  ∃ t', foldl (λ acc i,
                 foldl (λ acc j, u ← acc; modify (set_type k) u i j) acc js)
              (Some t) rs = Some t'
        ∧ (length <$> t') = (length <$> t)
        ∧ ∀ a b, rd t' a b
                 = if decide (a ∈ rs ∧ b ∈ js) then set_type k <$> rd t a b
                   else rd t a b.
Proof.
  revert t. induction rs as [|i rs IH]; intros t Hr.
  { exists t. split; [done|]. split; [done|]. intros a b.
    destruct (decide _) as [[H _]|]; [|done]. by apply elem_of_nil in H. }
  destruct (paint_row k i js t) as (t1 & Hf1 & Hs1 & Hrd1).
  { intros j Hj. apply Hr; [left|done]. }
  destruct (IH t1) as (t' & Hf & Hs & Hrd).
  { intros i' j Hi' Hj. rewrite Hrd1.
    destruct (decide _); [rewrite fmap_is_Some|]; apply Hr; try done; by right. }
  exists t'. simpl. rewrite Hf1. split; [done|]. split; [congruence|].
  intros a b. rewrite Hrd, Hrd1.
  destruct (decide (a ∈ rs ∧ b ∈ js)) as [H1|H1],
    (decide (a = i ∧ b ∈ js)) as [H2|H2],
    (decide (a ∈ i :: rs ∧ b ∈ js)) as [H3|H3];
    try done; try (by destruct (rd t a b));
    exfalso; rewrite elem_of_cons in H3; tauto.
Qed.

Lemma rivers_drawn_refl t : rivers_drawn t t.
Proof. split; [done|]. intros a b. by left. Qed.

Lemma rivers_drawn_step t t1 t' i j :
  modify (set_type LHO_RIVER) t i j = Some t1 →
  rivers_drawn t1 t' → rivers_drawn t t'.
Proof.
  intros Hm [Hs Hr]. split; [by rewrite Hs, (modify_shape _ _ _ _ _ Hm)|].
  intros a b. specialize (Hr a b).
  rewrite (rd_modify _ _ _ _ _ a b Hm) in Hr.
  destruct (decide (a = i ∧ b = j)); [|done].
  right. destruct Hr as [->| ->]; [done|]. by destruct (rd t a b).
Qed.

Ltac zig_split :=
  repeat match goal with
         | |- context [?a =? ?b] =>
             let E := fresh "E" in
             destruct (a =? b) eqn:E;
             [apply Z.eqb_eq in E | apply Z.eqb_neq in E]; simpl
         | H : context [?a =? ?b] |- _ =>
             let E := fresh "E" in
             destruct (a =? b) eqn:E;
             [apply Z.eqb_eq in E | apply Z.eqb_neq in E]; simpl in H
         end.

(** One pass through the loop body keeps the cursor inside the array and
    brings the loop closer to its end. *)
Lemma zig_step_inv s :
  2 ≤ numRows →
  zdone s = false →
  0 ≤ zi s < numRows → 0 ≤ zj s ≤ numCols - 1 →
  zigLocalDir s ≠ LHO_LEFT →
  (zigNextDir s = LHO_UP ∨ zigNextDir s = LHO_DOWN) →
  (firstLoop s = true → zigLocalDir s = LHO_RIGHT) →
  let s' := zig_step numRows numCols s in
  (zdone s' = true ∧ zj s = numCols - 1)
  ∨ (zdone s' = false
     ∧ 0 ≤ zi s' < numRows ∧ 0 ≤ zj s' ≤ numCols - 1
     ∧ zigLocalDir s' ≠ LHO_LEFT
     ∧ (zigNextDir s' = LHO_UP ∨ zigNextDir s' = LHO_DOWN)
     ∧ firstLoop s' = false
     ∧ 2 * (numCols - 1 - zj s')
       + (match zigLocalDir s' with LHO_RIGHT => 1 | _ => 2 end)
       < 2 * (numCols - 1 - zj s)
         + (match zigLocalDir s with LHO_RIGHT => 1 | _ => 2 end)).
Proof.
  destruct s as [i j dn fl loc nxt ov]. simpl.
  intros Hrows -> Hi Hj Hloc Hnxt Hfirst.
  unfold zig_step. simpl.
  destruct (j =? numCols - 1) eqn:Ej;
    [apply Z.eqb_eq in Ej | apply Z.eqb_neq in Ej].
  { left. split; [|done].
    destruct loc; simpl; zig_split; destruct fl; simpl; done. }
  right.
  destruct loc; [| |congruence|].
  - assert (fl = false) as -> by (destruct fl; [by specialize (Hfirst eq_refl)|done]).
    simpl. zig_split; simpl; repeat split; try done; try lia; auto.
  - assert (fl = false) as -> by (destruct fl; [by specialize (Hfirst eq_refl)|done]).
    simpl. zig_split; simpl; repeat split; try done; try lia; auto.
  - simpl. zig_split; destruct fl; simpl;
      repeat split; try done; try lia;
      destruct Hnxt as [-> | ->]; try done; try lia;
      destruct ov; simpl; auto.
Qed.

(** The zig-zag loop on a board with at least two rows: it stays inside
    the array and ends within the fuel [heuristic_grid] gives it. *)
Lemma zigzag_runs fuel s t :
  2 ≤ numRows →
  (length <$> t) = replicate (Z.to_nat numRows) (Z.to_nat numCols) →
  zdone s = false →
  0 ≤ zi s < numRows → 0 ≤ zj s ≤ numCols - 1 →
  zigLocalDir s ≠ LHO_LEFT →
  (zigNextDir s = LHO_UP ∨ zigNextDir s = LHO_DOWN) →
  (firstLoop s = true → zigLocalDir s = LHO_RIGHT) →
  2 * (numCols - 1 - zj s)
  + (match zigLocalDir s with LHO_RIGHT => 1 | _ => 2 end) < Z.of_nat fuel →
  ∃ t', zigzag numRows numCols fuel s t = Some t' ∧ rivers_drawn t t'.
Proof.
  intros Hrows. revert s t.
  induction fuel as [|k IH]; intros s t Hs Hd Hi Hj Hloc Hnxt Hfirst Hfuel.
  { destruct (zigLocalDir s); lia. }
  simpl. rewrite Hd.
  destruct (modify_is_Some (set_type LHO_RIVER) t (zi s) (zj s)) as [t1 Hm].
  { apply (shape_rd numRows numCols _ _ _ Hs). lia. }
  rewrite Hm. simpl.
  assert (Hs1 : (length <$> t1)
                = replicate (Z.to_nat numRows) (Z.to_nat numCols)).
  { by rewrite (modify_shape _ _ _ _ _ Hm). }
  destruct (zig_step_inv s Hrows Hd Hi Hj Hloc Hnxt Hfirst)
    as [[Hd' Hlast]|(Hd' & Hi' & Hj' & Hloc' & Hnxt' & Hf' & Hm')].
  - destruct k as [|k]; [destruct (zigLocalDir s); lia|].
    exists t1. split; [by simpl; rewrite Hd'|].
    eapply rivers_drawn_step; [done|apply rivers_drawn_refl].
  - destruct (IH (zig_step numRows numCols s) t1) as (t' & Hz & Hr);
      try done.
    + intros E. congruence.
    + lia.
    + exists t'. split; [done|]. by eapply rivers_drawn_step.
Qed.

Lemma paint_board g :
  grid_shape numRows numCols g →
  ∃ t0, foldl (λ acc i,
                 foldl (λ acc j, t ← acc; modify (set_type LHO_LANDSCAPE) t i j)
                       acc (upto numCols))
              (Some (grid g)) (upto numRows) = Some t0
        ∧ (length <$> t0) = replicate (Z.to_nat numRows) (Z.to_nat numCols)
        ∧ ∀ a b x, rd t0 a b = Some x →
                   ∃ y, rd (grid g) a b = Some y
                        ∧ x = set_type LHO_LANDSCAPE y.
Proof.
  intros Hs.
  destruct (paint_rows LHO_LANDSCAPE (upto numRows) (upto numCols) (grid g))
    as (t0 & Hf & Hs0 & Hrd).
  { intros i j Hi Hj. apply elem_of_seqZ in Hi, Hj.
    apply (shape_rd numRows numCols _ _ _ Hs). lia. }
  exists t0. split; [done|]. split; [by rewrite Hs0|].
  intros a b x Hx.
  assert (Hin : 0 ≤ a < numRows ∧ 0 ≤ b < numCols).
  { apply (shape_rd numRows numCols t0); [by rewrite Hs0|eauto]. }
  rewrite Hrd in Hx. rewrite decide_True in Hx.
  2:{ unfold upto. rewrite !elem_of_seqZ. lia. }
  destruct (rd (grid g) a b) as [y|]; [|done].
  inversion Hx. eauto.
Qed.

(** X8.  On a board with at least two rows and one column
    [heuristic_grid] stays inside the array and ends with every tile
    turned into Landscape or River.  It leaves both counters of every
    tile, the river cursor, [numFilledTiles] and [full] as they were. *)
Theorem heuristic_grid_covers_board g :
  2 ≤ numRows → 1 ≤ numCols → grid_shape numRows numCols g →
  ∃ h, heuristic_grid numRows numCols g = Some h
       ∧ grid_shape numRows numCols h
       ∧ river h = river g
       ∧ numFilledTiles h = numFilledTiles g
       ∧ full h = full g
       ∧ ∀ a b x, rd (grid h) a b = Some x →
                  type x ≠ LHO_EMPTY
                  ∧ ∃ y, rd (grid g) a b = Some y
                         ∧ numAdjRivers x = numAdjRivers y
                         ∧ numAdjLands x = numAdjLands y.
Proof.
  intros Hrows Hcols Hs.
  destruct (paint_board g Hs) as (t0 & Hf & Hs0 & Hrd0).
  destruct (zigzag_runs (Z.to_nat (2 * numCols) + 1) zig_start t0)
    as (t1 & Hz & Hs1 & Hrd1); simpl; try done; try lia; [by right|].
  unfold heuristic_grid. rewrite Hf. simpl. rewrite Hz. simpl.
  eexists. split; [reflexivity|]. simpl.
  split; [by unfold grid_shape; simpl; rewrite Hs1|].
  do 3 (split; [done|]).
  intros a b x Hx.
  destruct (Hrd1 a b) as [E|E]; rewrite E in Hx.
  - destruct (Hrd0 a b x Hx) as (y & Hy & ->). split; [done|]. eauto.
  - destruct (rd t0 a b) as [x0|] eqn:Hx0; [|done].
    destruct (Hrd0 a b x0 Hx0) as (y & Hy & ->).
    inversion Hx. split; [done|]. eauto.
Qed.

(** X9.  On a board with a single row and three or more columns the
    zig-zag of [heuristic_grid] leaves the array: its third river tile is
    written to row 1, which does not exist. *)
Theorem heuristic_grid_single_row_faults g :
  numRows = 1 → 3 ≤ numCols → grid_shape numRows numCols g →
  heuristic_grid numRows numCols g = None.
Proof.
  intros Hrows Hcols Hs.
  destruct (paint_board g Hs) as (t0 & Hf & Hs0 & _).
  unfold heuristic_grid. rewrite Hf. simpl.
  destruct (Z.to_nat (2 * numCols)) as [|[|[|n]]] eqn:En; try lia.
  simpl.
  destruct (modify_is_Some (set_type LHO_RIVER) t0 0 0) as [t1 Hm1].
  { apply (shape_rd numRows numCols _ _ _ Hs0). lia. }
  rewrite Hm1. simpl.
  assert (S1 : zig_step numRows numCols zig_start
               = mkZig 0 1 false false LHO_DOWN LHO_DOWN LHO_DOWN).
  { unfold zig_step, zig_start. cbn -[Z.eqb Z.add Z.sub].
    replace (0 =? numCols - 1) with false by (symmetry; apply Z.eqb_neq; lia).
    replace (0 =? numRows) with false by (symmetry; apply Z.eqb_neq; lia).
    reflexivity. }
  rewrite S1. simpl.
  destruct (modify_is_Some (set_type LHO_RIVER) t1 0 1) as [t2 Hm2].
  { apply (shape_rd numRows numCols).
    - by rewrite (modify_shape _ _ _ _ _ Hm1).
    - lia. }
  rewrite Hm2. simpl.
  assert (S2 : zig_step numRows numCols
                 (mkZig 0 1 false false LHO_DOWN LHO_DOWN LHO_DOWN)
               = mkZig 1 1 false false LHO_RIGHT LHO_DOWN LHO_DOWN).
  { unfold zig_step. cbn -[Z.eqb Z.add Z.sub].
    replace (1 =? numCols - 1) with false by (symmetry; apply Z.eqb_neq; lia).
    replace (0 + 1 =? numRows) with true by (symmetry; apply Z.eqb_eq; lia).
    reflexivity. }
  rewrite S2. simpl.
  destruct (modify (set_type LHO_RIVER) t2 1 1) as [t3|] eqn:Hm3; [|done].
  exfalso. apply modify_rd_is_Some in Hm3.
  apply (shape_rd numRows numCols) in Hm3; [lia|].
  by rewrite (modify_shape _ _ _ _ _ Hm2), (modify_shape _ _ _ _ _ Hm1).
Qed.

End HeuristicFacts.

(** * The neighbour counters and the earlier variant *)

Section CounterFacts.
Variables numRows numCols : Z.
Local Abbreviation row := (get_row_idx numCols).
Local Abbreviation col := (get_col_idx numCols).

Lemma nb_true_iff i j a b :
  nb numRows numCols i j a b = true
  ↔ (0 < i ∧ a = i - 1 ∧ b = j) ∨ (i < numRows - 1 ∧ a = i + 1 ∧ b = j)
    ∨ (0 < j ∧ a = i ∧ b = j - 1) ∨ (j < numCols - 1 ∧ a = i ∧ b = j + 1).
Proof.
  unfold nb.
  rewrite !orb_true_iff, !andb_true_iff, !bool_decide_eq_true, !Z.ltb_lt.
  tauto.
Qed.

Lemma nb_sym i j a b :
  0 ≤ i < numRows → 0 ≤ j < numCols → 0 ≤ a < numRows → 0 ≤ b < numCols →
  nb numRows numCols i j a b = nb numRows numCols a b i j.
Proof.
  intros Hi Hj Ha Hb. apply eq_true_iff_eq. rewrite !nb_true_iff. lia.
Qed.

Lemma count_if_spec k t a b c :
  is_Some (rd t a b) → count_if k t a b c = Some (c + is_kind k t a b).
Proof.
  intros [x Hx]. unfold count_if, is_kind, ind. rewrite Hx. simpl.
  destruct (decide _); f_equal; lia.
Qed.

Lemma count_orth_spec k i j g :
  grid_shape numRows numCols g → 0 ≤ i < numRows → 0 ≤ j < numCols →
  count_orth numRows numCols k i j g = Some (orth_count numRows numCols k (grid g) i j).
Proof.
  intros Hs Hi Hj. unfold count_orth, orth_count.
  assert (Hg : ∀ (c : bool) a b n,
            (c = true → 0 ≤ a < numRows ∧ 0 ≤ b < numCols) →
            (if c then count_if k (grid g) a b n else Some n)
            = Some (n + if c then is_kind k (grid g) a b else 0)).
  { intros c a b n Hc. destruct c; [|f_equal; lia].
    apply count_if_spec. apply (shape_rd numRows numCols _ _ _ Hs). by apply Hc. }
  rewrite Hg by (intros ?%Z.ltb_lt; lia). simpl.
  rewrite Hg by (intros ?%Z.ltb_lt; lia). simpl.
  rewrite Hg by (intros ?%Z.ltb_lt; lia). simpl.
  rewrite Hg by (intros ?%Z.ltb_lt; lia). f_equal.
Qed.

Lemma counters_ok_tallied g :
  grid_shape numRows numCols g →
  counters_ok numRows numCols g ↔ tallied numRows numCols (grid g).
Proof.
  intros Hs. unfold counters_ok, tallied, count_adj_rivers, count_adj_lands.
  split; intros H a b x Hx.
  - destruct (proj1 (shape_rd numRows numCols _ a b Hs)) as [Ha Hb]; [by eauto|].
    destruct (H a b x Hx) as [E1 E2].
    rewrite count_orth_spec in E1, E2 by done. split; congruence.
  - destruct (proj1 (shape_rd numRows numCols _ a b Hs)) as [Ha Hb]; [by eauto|].
    destruct (H a b x Hx) as [E1 E2].
    rewrite !count_orth_spec by done. split; congruence.
Qed.


(** Changing the kind of one tile from [k0] to [k1] changes the count of
    [k]-neighbours of the cells around it. *)
Lemma is_kind_delta k k0 k1 t t' r c a b :
  (type <$> rd t r c) = Some k0 →
  (∀ a b, type <$> rd t' a b
          = if decide (r = a ∧ c = b) then Some k1 else type <$> rd t a b) →
  is_kind k t' a b
  = is_kind k t a b + (if decide (r = a ∧ c = b) then ind k1 k - ind k0 k else 0).
Proof.
  intros H0 Hty. specialize (Hty a b). unfold is_kind.
  destruct (decide (r = a ∧ c = b)) as [[<- <-]|_].
  - destruct (rd t r c) as [x0|]; [|done]. simpl in H0. inversion H0. subst.
    destruct (rd t' r c) as [x|]; [|done]. simpl in Hty. inversion Hty. lia.
  - destruct (rd t' a b) as [x|], (rd t a b) as [y|]; simpl in Hty;
      try done. inversion Hty. lia.
Qed.

Lemma orth_count_delta k k0 k1 t t' r c i j :
  (type <$> rd t r c) = Some k0 →
  (∀ a b, type <$> rd t' a b
          = if decide (r = a ∧ c = b) then Some k1 else type <$> rd t a b) →
  orth_count numRows numCols k t' i j
  = orth_count numRows numCols k t i j
    + (if nb numRows numCols i j r c then ind k1 k - ind k0 k else 0).
Proof.
  intros H0 Hty. unfold orth_count, nb.
  rewrite !(is_kind_delta k k0 k1 t t' r c) by done.
  generalize (ind k1 k - ind k0 k). intros D.
  destruct (decide (r = i - 1 ∧ c = j)) as [D1|D1];
    [rewrite (bool_decide_eq_true_2 _ D1)
    |rewrite (bool_decide_eq_false_2 _ D1)];
  (destruct (decide (r = i + 1 ∧ c = j)) as [D2|D2];
    [rewrite (bool_decide_eq_true_2 _ D2)
    |rewrite (bool_decide_eq_false_2 _ D2)]);
  (destruct (decide (r = i ∧ c = j - 1)) as [D3|D3];
    [rewrite (bool_decide_eq_true_2 _ D3)
    |rewrite (bool_decide_eq_false_2 _ D3)]);
  (destruct (decide (r = i ∧ c = j + 1)) as [D4|D4];
    [rewrite (bool_decide_eq_true_2 _ D4)
    |rewrite (bool_decide_eq_false_2 _ D4)]);
  try (exfalso; lia);
  destruct (0 <? i), (i <? numRows - 1), (0 <? j), (j <? numCols - 1);
  simpl; lia.
Qed.

(** The common shape of the three mutations: the tile at [(r, c)] changes
    its kind from [k0] to [k1] and the neighbour block applies [f]. *)
Lemma tallied_step k0 k1 f t r c x0 t1 t2 :
  (length <$> t) = replicate (Z.to_nat numRows) (Z.to_nat numCols) →
  tallied numRows numCols t →
  rd t r c = Some x0 → type x0 = k0 →
  modify (set_type k1) t r c = Some t1 →
  touch_neighbours numRows numCols f r c t1 = Some t2 →
  (∀ y, type (f y) = type y
        ∧ numAdjRivers (f y)
          = numAdjRivers y + (ind k1 LHO_RIVER - ind k0 LHO_RIVER)
        ∧ numAdjLands (f y)
          = numAdjLands y + (ind k1 LHO_LANDSCAPE - ind k0 LHO_LANDSCAPE)) →
  tallied numRows numCols t2.
Proof.
  intros Hs Ht Hx0 Hk0 Hm Htn Hf.
  assert (Hrc : 0 ≤ r < numRows ∧ 0 ≤ c < numCols).
  { apply (shape_rd numRows numCols t); [done|eauto]. }
  assert (Hty : ∀ a b, type <$> rd t2 a b
            = if decide (r = a ∧ c = b) then Some k1 else type <$> rd t a b).
  { intros a b. rewrite (touch_rd _ _ _ _ _ _ _ a b Htn),
      (rd_modify _ _ _ _ _ a b Hm).
    destruct (decide (r = a ∧ c = b)) as [[<- <-]|Hne].
    - rewrite nb_self, decide_True by done. by rewrite Hx0.
    - rewrite decide_False by (intros [-> ->]; by apply Hne).
      destruct (nb numRows numCols r c a b); [|done].
      destruct (rd t a b) as [y|]; [|done]. simpl. f_equal. apply Hf. }
  assert (H0 : type <$> rd t r c = Some k0) by (by rewrite Hx0; simpl; f_equal).
  intros a b x Hx.
  assert (Hab : 0 ≤ a < numRows ∧ 0 ≤ b < numCols).
  { apply (shape_rd numRows numCols t2); [|by eauto].
    by rewrite (touch_shape _ _ _ _ _ _ _ Htn), (modify_shape _ _ _ _ _ Hm). }
  rewrite !(orth_count_delta _ k0 k1 t t2 r c) by done.
  rewrite <- (nb_sym r c a b) by lia.
  rewrite (touch_rd _ _ _ _ _ _ _ a b Htn), (rd_modify _ _ _ _ _ a b Hm) in Hx.
  destruct (decide (a = r ∧ b = c)) as [[-> ->]|Hne].
  - rewrite nb_self in *. rewrite Hx0 in Hx. inversion Hx. subst x. simpl.
    destruct (Ht _ _ _ Hx0) as [E1 E2]. lia.
  - destruct (nb numRows numCols r c a b).
    + destruct (rd t a b) as [y|] eqn:Hy; [|done]. inversion Hx. subst x.
      destruct (Ht _ _ _ Hy) as [E1 E2].
      destruct (Hf y) as (_ & F1 & F2). lia.
    + destruct (Ht _ _ _ Hx) as [E1 E2]. lia.
Qed.

Lemma allocate_grid_rd a b x :
  rd (grid (allocate_grid numRows numCols)) a b = Some x → x = empty_tile.
Proof.
  unfold rd. simpl. intros H.
  destruct ((a <? 0) || (b <? 0)); [done|].
  destruct (replicate _ _ !! Z.to_nat a) as [r|] eqn:Hr; [|done].
  apply lookup_replicate in Hr as [-> _].
  by apply lookup_replicate in H as [-> _].
Qed.

Lemma allocate_grid_tallied :
  tallied numRows numCols (grid (allocate_grid numRows numCols)).
Proof.
  assert (Hz : ∀ k p q, k ≠ LHO_EMPTY →
            is_kind k (grid (allocate_grid numRows numCols)) p q = 0).
  { intros k p q Hk. unfold is_kind.
    destruct (rd _ p q) as [y|] eqn:Hy; [|done].
    apply allocate_grid_rd in Hy as ->. unfold ind. simpl.
    by rewrite decide_False. }
  intros a b x Hx. apply allocate_grid_rd in Hx as ->.
  unfold orth_count. rewrite !Hz by done. simpl.
  by destruct (0 <? a), (a <? numRows - 1), (0 <? b), (b <? numCols - 1).
Qed.

(** Each of the three mutations, accepted or not, keeps the counters of
    every tile equal to the numbers of its river and landscape
    neighbours. *)
Lemma tallied_kept i g :
  grid_shape numRows numCols g → tallied numRows numCols (grid g) →
  (∀ ok g1, add_land numRows numCols i g = Some (ok, g1) →
            tallied numRows numCols (grid g1))
  ∧ (∀ ok g1, add_river numRows numCols i g = Some (ok, g1) →
              tallied numRows numCols (grid g1))
  ∧ (∀ g1, remove_terrain numRows numCols i g = Some g1 →
           tallied numRows numCols (grid g1)).
Proof.
  intros Hs Ht. split; [|split].
  - intros [|] g1 H.
    + apply add_land_inv in H as (_ & x & t1 & t2 & Hx & Hty & Hm & Htn & ->).
      simpl. eapply (tallied_step LHO_EMPTY LHO_LANDSCAPE); eauto.
      intros y. vm_compute ind. simpl. repeat split; lia.
    + unfold add_land in H.
      destruct (chk_loc _ _ _ _) as [[|]|]; simpl in H; try discriminate.
      * destruct (modify _ _ _ _); [|discriminate]. simpl in H.
        destruct (touch_neighbours _ _ _ _ _ _); discriminate.
      * by inversion H; subst.
  - intros [|] g1 H.
    + apply add_river_inv in H
        as (_ & _ & _ & x & t1 & t2 & Hx & Hty & Hm & Htn & ->).
      simpl. eapply (tallied_step LHO_EMPTY LHO_RIVER); eauto.
      intros y. vm_compute ind. simpl. repeat split; lia.
    + apply add_river_rejected in H as (-> & _). done.
  - intros g1 H. unfold remove_terrain in H.
    destruct (rd (grid g) (row i) (col i)) as [x|] eqn:Hx; [|discriminate].
    simpl in H.
    destruct (modify _ _ _ _) as [t1|] eqn:Hm; [|discriminate]. simpl in H.
    destruct (match type x with LHO_EMPTY => _ | _ => _ end) as [t2|] eqn:E;
      [|discriminate].
    simpl in H. inversion H. subst. simpl. clear H.
    destruct (type x) eqn:Hty.
    + inversion E. subst t2.
      assert (t1 = grid g) as ->; [|done].
      apply rd_ext; [by eapply modify_shape|]. intros a b.
      rewrite (rd_modify _ _ _ _ _ a b Hm).
      destruct (decide (a = row i ∧ b = col i)) as [[-> ->]|]; [|done].
      rewrite Hx. simpl. f_equal. destruct x. simpl in *. by subst.
    + eapply (tallied_step LHO_RIVER LHO_EMPTY); eauto.
      intros y. vm_compute ind. simpl. repeat split; lia.
    + eapply (tallied_step LHO_LANDSCAPE LHO_EMPTY); eauto.
      intros y. vm_compute ind. simpl. repeat split; lia.
Qed.

(** Grids reached from the empty grid by accepted placements and
    removals. *)
Lemma play_inv (Inv : Grid → Prop) ms g g' :
  (∀ i g, Inv g →
     (∀ ok g1, add_land numRows numCols i g = Some (ok, g1) → Inv g1)
     ∧ (∀ ok g1, add_river numRows numCols i g = Some (ok, g1) → Inv g1)
     ∧ (∀ g1, remove_terrain numRows numCols i g = Some g1 → Inv g1)) →
  Inv g → play numRows numCols ms g = Some g' → Inv g'.
Proof.
  intros Hstep. revert g. induction ms as [|m ms IH]; intros g Hg H.
  { inversion H. by subst. }
  simpl in H.
  destruct m as [i|i|i]; destruct (Hstep i g Hg) as (HL & HR & HX).
  - destruct (add_river numRows numCols i g) as [[ok g1]|] eqn:E; [|done].
    simpl in H. destruct ok; [|done]. eapply IH; [|exact H]. eauto.
  - destruct (add_land numRows numCols i g) as [[ok g1]|] eqn:E; [|done].
    simpl in H. destruct ok; [|done]. eapply IH; [|exact H]. eauto.
  - destruct (remove_terrain numRows numCols i g) as [g1|] eqn:E; [|done].
    simpl in H. eapply IH; [|exact H]. eauto.
Qed.

Lemma played_shape_tallied ms g :
  play numRows numCols ms (allocate_grid numRows numCols) = Some g →
  grid_shape numRows numCols g ∧ tallied numRows numCols (grid g).
Proof.
  apply (play_inv (λ g, grid_shape numRows numCols g
                        ∧ tallied numRows numCols (grid g))).
  - intros i g0 [Hs Ht].
    destruct (mutations_shape numRows numCols i g0 Hs) as (S1 & S2 & S3).
    destruct (tallied_kept i g0 Hs Ht) as (T1 & T2 & T3).
    split; [|split].
    + intros ok g1 H. split; [by eapply S1|by eapply T1].
    + intros ok g1 H. split; [by eapply S2|by eapply T2].
    + intros g1 H. split; [by eapply S3|by eapply T3].
  - split; [apply allocate_grid_shape|apply allocate_grid_tallied].
Qed.

(** X10.  The counters kept in the tiles are maintained correctly: if on a
    well-shaped grid every tile's [numAdjRivers] and [numAdjLands] equal
    what [count_adj_rivers] and [count_adj_lands] count around it, the same
    holds after [add_land], [add_river] and [remove_terrain], accepted or
    not. *)
Theorem counters_kept_by_mutations i g :
  grid_shape numRows numCols g → counters_ok numRows numCols g →
  (∀ ok g1, add_land numRows numCols i g = Some (ok, g1) →
            counters_ok numRows numCols g1)
  ∧ (∀ ok g1, add_river numRows numCols i g = Some (ok, g1) →
              counters_ok numRows numCols g1)
  ∧ (∀ g1, remove_terrain numRows numCols i g = Some g1 →
           counters_ok numRows numCols g1).
Proof.
  intros Hs Hc. apply counters_ok_tallied in Hc; [|done].
  destruct (mutations_shape numRows numCols i g Hs) as (S1 & S2 & S3).
  destruct (tallied_kept i g Hs Hc) as (T1 & T2 & T3).
  split; [|split].
  - intros ok g1 H. apply counters_ok_tallied; [by eapply S1|by eapply T1].
  - intros ok g1 H. apply counters_ok_tallied; [by eapply S2|by eapply T2].
  - intros g1 H. apply counters_ok_tallied; [by eapply S3|by eapply T3].
Qed.

(** X11.  On every grid the program can reach from the empty grid by accepted
    placements and removals, the counters kept in each tile equal what
    the counting helpers of the earlier variant compute from the kinds of
    the neighbouring tiles. *)
Theorem counters_match_neighbours ms g :
  play numRows numCols ms (allocate_grid numRows numCols) = Some g →
  counters_ok numRows numCols g.
Proof.
  intros H. apply played_shape_tallied in H as [Hs Ht].
  by apply counters_ok_tallied.
Qed.

Lemma is_kind_bounds t p q :
  0 ≤ is_kind LHO_RIVER t p q ∧ 0 ≤ is_kind LHO_LANDSCAPE t p q
  ∧ is_kind LHO_RIVER t p q + is_kind LHO_LANDSCAPE t p q ≤ 1.
Proof.
  unfold is_kind, ind. destruct (rd t p q) as [y|]; [|lia].
  destruct (type y); simpl; lia.
Qed.

(** X12.  On every grid reached from the empty grid no counter is negative,
    and the two counters of a tile together never exceed 4. *)
Theorem counters_bounded ms g a b x :
  play numRows numCols ms (allocate_grid numRows numCols) = Some g →
  rd (grid g) a b = Some x →
  0 ≤ numAdjRivers x ∧ 0 ≤ numAdjLands x
  ∧ numAdjRivers x + numAdjLands x ≤ 4.
Proof.
  intros H Hx. apply played_shape_tallied in H as [_ Ht].
  destruct (Ht a b x Hx) as [-> ->]. unfold orth_count.
  pose proof (is_kind_bounds (grid g) (a - 1) b).
  pose proof (is_kind_bounds (grid g) (a + 1) b).
  pose proof (is_kind_bounds (grid g) a (b - 1)).
  pose proof (is_kind_bounds (grid g) a (b + 1)).
  destruct (0 <? a), (a <? numRows - 1), (0 <? b), (b <? numCols - 1); lia.
Qed.

End CounterFacts.

(** * Scoring runs and agrees with the recount *)

Lemma foldl_pointwise {A B} (f g : A → B → A) a l :
  (∀ a b, f a b = g a b) → foldl f a l = foldl g a l.
Proof.
  intros H. revert a. induction l as [|x l IH]; intros a; [done|].
  simpl. by rewrite H, IH.
Qed.

(** Loops in the option monad run to their end when every step does. *)
Lemma foldl_option_run {A B} (Inv : A → Prop) (P : B → Prop)
    (step : A → B → option A) (xs : list B) (a0 : A) :
  (∀ a b, Inv a → P b → ∃ a', step a b = Some a' ∧ Inv a') →
  Inv a0 → Forall P xs →
  ∃ a, foldl (λ acc b, a ← acc; step a b) (Some a0) xs = Some a ∧ Inv a.
Proof.
  intros Hstep. revert a0. induction xs as [|x xs IH]; intros a0 H0 HP.
  { exists a0. done. }
  inversion HP as [|? ? Hx Hxs]. subst.
  destruct (Hstep a0 x H0 Hx) as (a1 & E & H1).
  simpl. rewrite E. by apply IH.
Qed.

Section ScoreFacts.
Variables numRows numCols : Z.
Variable cfg : LandCfg.

Lemma tile_loop_is_Some body g :
  grid_shape numRows numCols g → is_Some (tile_loop numRows numCols body g).
Proof.
  intros Hs. unfold tile_loop.
  rewrite (foldl_pointwise _
             (λ acc i, w ← acc;
                foldl (λ acc j, v ← acc; x ← rd (grid g) i j; Some (body x v))
                      (Some w) (upto numCols))).
  2:{ intros [w|] i; [done|]. simpl. by apply foldl_option_None. }
  destruct (foldl_option_run (λ _, True) (λ i, 0 ≤ i < numRows)
              (λ w i, foldl (λ acc j, v ← acc; x ← rd (grid g) i j;
                                       Some (body x v))
                            (Some w) (upto numCols))
              (upto numRows) 0) as (v & E & _); [|done| |by rewrite E].
  - intros w i _ Hi.
    destruct (foldl_option_run (λ _, True) (λ j, 0 ≤ j < numCols)
                (λ v j, x ← rd (grid g) i j; Some (body x v))
                (upto numCols) w) as (v & E & _); [|done| |by eauto].
    + intros v j _ Hj.
      destruct (proj2 (shape_rd numRows numCols _ i j Hs)) as [x Hx]; [done|].
      rewrite Hx. simpl. eauto.
    + apply list.Forall_forall. intros j Hj. apply elem_of_seqZ in Hj. lia.
  - apply list.Forall_forall. intros i Hi. apply elem_of_seqZ in Hi. lia.
Qed.

Lemma val_calc_is_Some g :
  grid_shape numRows numCols g → is_Some (val_calc numRows numCols cfg g).
Proof.
  intros Hs. unfold val_calc, val_calc_meadow_thicket, val_calc_suburb,
    val_calc_mountain.
  destruct (landChoice cfg); by apply tile_loop_is_Some.
Qed.

Lemma tile_loops_agree body body' g :
  (∀ i j x v, rd (grid g) i j = Some x → body' i j x v = Some (body x v)) →
  Recount.tile_loop numRows numCols body' g = tile_loop numRows numCols body g.
Proof.
  intros H. unfold Recount.tile_loop, tile_loop.
  apply foldl_pointwise. intros acc i. apply foldl_pointwise.
  intros [v|] j; [|done]. simpl.
  destruct (rd (grid g) i j) as [x|] eqn:E; [|done]. simpl. by apply H.
Qed.

(** X13.  Scoring from the counters kept in the tiles gives what the earlier
    variant computes by counting the neighbours again. *)
Theorem recount_agrees g :
  grid_shape numRows numCols g → counters_ok numRows numCols g →
  ∃ v, val_calc numRows numCols cfg g = Some v
       ∧ Recount.val_calc numRows numCols cfg g = Some v.
Proof.
  intros Hs Hc.
  destruct (val_calc_is_Some g Hs) as [v Hv]. exists v. split; [done|].
  rewrite <- Hv. unfold Recount.val_calc, val_calc,
    Recount.val_calc_meadow_thicket, Recount.val_calc_suburb,
    Recount.val_calc_mountain, val_calc_meadow_thicket, val_calc_suburb,
    val_calc_mountain.
  destruct (landChoice cfg); apply tile_loops_agree; intros i j x w Hx;
    destruct (Hc i j x Hx) as [E1 E2];
    (destruct (decide _); [|done]); rewrite ?E1, ?E2; simpl; done.
Qed.

End ScoreFacts.

(** * The search runs to its end *)

Lemma weigh_nonneg {A} (w : A → Z) (l : list A) :
  (∀ x, 0 ≤ w x) → 0 ≤ weigh w l.
Proof.
  intros Hw. induction l as [|x l IH]; [done|].
  unfold weigh in *. simpl. specialize (Hw x). lia.
Qed.

Lemma filled_tiles_nonneg t : 0 ≤ filled_tiles t.
Proof.
  apply weigh_nonneg. intros r. apply weigh_nonneg. intros x.
  unfold occupied. destruct (decide _); lia.
Qed.

Section SearchRuns.
Variables numRows numCols : Z.
Variable cfg : LandCfg.
Hypothesis Hrows : 2 ≤ numRows.
Hypothesis Hcols : 1 ≤ numCols.

Local Abbreviation row := (get_row_idx numCols).
Local Abbreviation col := (get_col_idx numCols).

Lemma filled_le_cells g :
  grid_shape numRows numCols g → filled_tiles (grid g) ≤ numRows * numCols.
Proof.
  intros Hs. pose proof (filled_tiles_le (grid g)) as Hle.
  rewrite (weigh_lengths (grid g)
             (replicate (Z.to_nat numRows)
                (replicate (Z.to_nat numCols) empty_tile))) in Hle.
  2:{ rewrite Hs, fmap_replicate. by rewrite length_replicate. }
  rewrite weigh_replicate in Hle. lia.
Qed.

Lemma heuristic_grid_runs g :
  grid_shape numRows numCols g →
  ∃ h, heuristic_grid numRows numCols g = Some h ∧ grid_shape numRows numCols h.
Proof.
  intros Hs.
  destruct (paint_board numRows numCols g Hs) as (t0 & Hf & Hs0 & _).
  destruct (zigzag_runs numRows numCols (Z.to_nat (2 * numCols) + 1) zig_start t0)
    as (t1 & Hz & Hs1 & _); simpl; try done; try lia; [by right|].
  unfold heuristic_grid. rewrite Hf. simpl. rewrite Hz. simpl.
  eexists. split; [reflexivity|]. unfold grid_shape. simpl. by rewrite Hs1.
Qed.

Lemma place_filled k f t r c x t1 t2 :
  rd t r c = Some x → type x = LHO_EMPTY → k ≠ LHO_EMPTY →
  modify (set_type k) t r c = Some t1 →
  touch_neighbours numRows numCols f r c t1 = Some t2 →
  (∀ y, type (f y) = type y) →
  filled_tiles t2 = filled_tiles t + 1.
Proof.
  intros Hx Hty Hk Hm Ht Hf.
  rewrite (touch_filled _ _ f _ _ _ _ Hf Ht).
  apply modify_filled in Hm as (x' & Hx' & ->).
  assert (x' = x) as -> by congruence.
  unfold occupied. simpl. rewrite Hty.
  rewrite decide_True by done. rewrite decide_False by done. lia.
Qed.

Lemma add_land_trial : trial_ok numRows numCols (add_land numRows numCols).
Proof.
  intros i g Hs.
  destruct (add_land_spec numRows numCols i g Hs ltac:(lia))
    as (ok & g1 & H & _ & Hrej).
  exists ok, g1. split; [done|]. destruct ok; [|by rewrite Hrej].
  destruct (mutations_shape numRows numCols i g Hs) as (S1 & _).
  split; [by eapply S1|]. split.
  - pose proof H as H'.
    apply add_land_inv in H' as (_ & x & t1 & t2 & Hx & Hty & Hm & Ht & ->).
    simpl. by eapply (place_filled LHO_LANDSCAPE).
  - rewrite (add_land_remove _ _ _ _ _ H). eauto.
Qed.

Lemma add_river_trial : trial_ok numRows numCols (add_river numRows numCols).
Proof.
  intros i g Hs.
  destruct (add_river_spec numRows numCols i g Hs ltac:(lia))
    as (ok & g1 & H & _).
  exists ok, g1. split; [done|]. destruct ok.
  2:{ by apply add_river_rejected in H as (-> & _). }
  destruct (mutations_shape numRows numCols i g Hs) as (_ & S2 & _).
  split; [by eapply S2|]. split.
  - pose proof H as H'.
    apply add_river_inv in H'
      as (_ & _ & _ & x & t1 & t2 & Hx & Hty & Hm & Ht & ->).
    simpl. by eapply (place_filled LHO_RIVER).
  - rewrite (add_river_remove _ _ _ _ _ H). eauto.
Qed.

Lemma try_place_runs rec place n g0 i ls :
  runs_below numRows numCols n rec → trial_ok numRows numCols place →
  grid_shape numRows numCols g0 →
  numRows * numCols - filled_tiles (grid g0) < n + 1 →
  loop_runs numRows numCols g0 ls →
  ∃ ls', try_place numRows numCols cfg rec place i ls = Some ls'
         ∧ loop_runs numRows numCols g0 ls'.
Proof.
  intros Hrec Hplace Hs0 Hroom (Hth & Hbest & Hir).
  destruct ls as [l st]. simpl in *.
  assert (Hs : grid_shape numRows numCols (thisGrid l)).
  { unfold grid_shape. by rewrite Hth. }
  destruct (Hplace i (thisGrid l) Hs) as (ok & tg & Hp & Hok).
  rewrite Hp. simpl. destruct ok.
  - destruct Hok as (Hstg & Hfill & tg' & Hrm & Hback).
    rewrite Hrm. simpl.
    destruct (Hrec tg (bump_depth 1 st) Hstg) as (temp & st2 & Hcall & Hst & Hir2).
    { rewrite Hfill, Hth. lia. }
    rewrite Hcall. simpl.
    destruct (val_calc_is_Some numRows numCols cfg temp Hst) as [v Hv].
    rewrite Hv. simpl. specialize (Hir2 Hir).
    destruct (v >? currentBest l); eexists; (split; [reflexivity|]);
      unfold loop_runs; simpl; repeat split; try done; congruence.
  - eexists. split; [reflexivity|]. unfold loop_runs. simpl.
    repeat split; try done. congruence.
Qed.

Lemma search_loop_runs rec n g0 ls :
  runs_below numRows numCols n rec →
  grid_shape numRows numCols g0 →
  numRows * numCols - filled_tiles (grid g0) < n + 1 →
  loop_runs numRows numCols g0 ls →
  ∃ ls', search_loop numRows numCols cfg rec ls = Some ls'
         ∧ loop_runs numRows numCols g0 ls'.
Proof.
  intros Hrec Hs0 Hroom Hinv. unfold search_loop.
  apply (foldl_option_run (loop_runs numRows numCols g0) (λ _, True)
           (λ ls1 i,
              ls2 ← try_place numRows numCols cfg rec
                      (add_river numRows numCols) i ls1;
              try_place numRows numCols cfg rec
                (add_land numRows numCols) i ls2)); [|done|].
  - intros a i Ha _.
    destruct (try_place_runs rec _ n g0 i a Hrec add_river_trial Hs0 Hroom Ha)
      as (a1 & E1 & H1).
    rewrite E1. simpl.
    by apply (try_place_runs rec _ n g0 i a1 Hrec add_land_trial Hs0 Hroom).
  - by apply list.Forall_forall.
Qed.

Lemma recurse_grid_runs fuel :
  runs_below numRows numCols (Z.of_nat fuel) (recurse_grid numRows numCols cfg fuel).
Proof.
  induction fuel as [|k IH]; intros g st Hs Hroom.
  { pose proof (filled_le_cells g Hs). lia. }
  simpl. unfold recurse_body.
  destruct (full g); [by eauto|].
  destruct (val_calc_is_Some numRows numCols cfg g Hs) as [v Hv].
  rewrite Hv. simpl.
  destruct (v + _ <=? bestVal st); [by eauto|].
  assert (Hseed : ∃ ls, seed_best numRows numCols cfg g st = Some ls
                        ∧ loop_runs numRows numCols g ls).
  { unfold seed_best. destruct (initial_recursion st) eqn:Hir.
    - destruct (heuristic_grid_runs (allocate_grid numRows numCols))
        as (h & Hh & Hsh); [apply allocate_grid_shape|].
      rewrite Hh. simpl.
      destruct (val_calc_is_Some numRows numCols cfg h Hsh) as [w Hw].
      rewrite Hw. simpl. eexists. split; [reflexivity|].
      unfold loop_runs. simpl. done.
    - eexists. split; [reflexivity|]. unfold loop_runs. simpl. done. }
  destruct Hseed as (ls & Hseed & Hinv). rewrite Hseed. simpl.
  destruct (search_loop_runs _ (Z.of_nat k) g ls IH Hs ltac:(lia) Hinv)
    as ([l st'] & Hloop & _ & Hbest & Hir).
  rewrite Hloop. simpl. eexists _, _. split; [reflexivity|].
  simpl in *. split; [done|]. done.
Qed.

(** X14.  On a board with at least two rows and one column (the hypotheses
    of this section) the whole search runs to its end without leaving the
    array, and its nesting never goes deeper than one call per tile of the
    board, plus the first: any recursion bound above [numRows * numCols]
    is enough. *)
Theorem search_runs fuel :
  (Z.to_nat (numRows * numCols) < fuel)%nat →
  ∃ g st, recurse_grid numRows numCols cfg fuel
            (allocate_grid numRows numCols) search_start = Some (g, st)
          ∧ grid_shape numRows numCols g.
Proof.
  intros Hfuel.
  destruct (recurse_grid_runs fuel (allocate_grid numRows numCols) search_start)
    as (g & st & H & Hs & _).
  - apply allocate_grid_shape.
  - pose proof (filled_tiles_nonneg (grid (allocate_grid numRows numCols))).
    lia.
  - eauto.
Qed.

End SearchRuns.

(** * What the search hands back *)

Lemma init_landscape_maxTileVal_nonneg choice :
  0 ≤ maxTileVal (init_landscape choice static_cfg).
Proof.
  unfold init_landscape.
  repeat (destruct (_ =? _); [vm_compute; discriminate|]).
  vm_compute. discriminate.
Qed.

Section BestGrid.
Variables numRows numCols : Z.
Variable cfg : LandCfg.

Lemma try_place_keeps_score rec place i ls ls' :
  val_calc numRows numCols cfg (bestGrid ls.1) = Some (currentBest ls.1) →
  try_place numRows numCols cfg rec place i ls = Some ls' →
  val_calc numRows numCols cfg (bestGrid ls'.1) = Some (currentBest ls'.1).
Proof.
  destruct ls as [l st]. simpl. intros Hb H.
  destruct (place i (thisGrid l)) as [[added tg]|]; [|discriminate].
  simpl in H. destruct added; [|by inversion H; subst].
  destruct (remove_terrain numRows numCols i tg) as [tg'|]; [|discriminate].
  simpl in H.
  destruct (rec tg (bump_depth 1 st)) as [[temp st2]|]; [|discriminate].
  simpl in H.
  destruct (val_calc numRows numCols cfg temp) as [v|] eqn:Hv; [|discriminate].
  simpl in H. destruct (v >? currentBest l); inversion H; subst; done.
Qed.

Lemma search_loop_keeps_score rec ls ls' :
  val_calc numRows numCols cfg (bestGrid ls.1) = Some (currentBest ls.1) →
  search_loop numRows numCols cfg rec ls = Some ls' →
  val_calc numRows numCols cfg (bestGrid ls'.1) = Some (currentBest ls'.1).
Proof.
  intros Hb H. unfold search_loop in H.
  eapply (foldl_option_inv
            (λ ls, val_calc numRows numCols cfg (bestGrid ls.1)
                   = Some (currentBest ls.1))
            (λ ls1 i,
               ls2 ← try_place numRows numCols cfg rec
                       (add_river numRows numCols) i ls1;
               try_place numRows numCols cfg rec
                 (add_land numRows numCols) i ls2));
    [|exact Hb|exact H].
  intros a i a' Ha Hs.
  destruct (try_place _ _ _ _ (add_river _ _) _ _) as [a1|] eqn:E1;
    [|discriminate].
  simpl in Hs. eapply try_place_keeps_score; [|exact Hs].
  by eapply try_place_keeps_score.
Qed.

End BestGrid.

(** X15.  When a whole run (started on the empty grid with [bestVal = -1],
    for any landscape choice) ends, the grid it hands back scores exactly
    the final [bestVal], and that value is not negative. *)
Theorem search_returns_best numRows numCols choice fuel g st :
  0 ≤ numRows → 0 ≤ numCols →
  recurse_grid numRows numCols (init_landscape choice static_cfg) fuel
               (allocate_grid numRows numCols) search_start = Some (g, st) →
  val_calc numRows numCols (init_landscape choice static_cfg) g
  = Some (bestVal st)
  ∧ 0 ≤ bestVal st.
Proof.
  intros Hrows Hcols H.
  set (cfg := init_landscape choice static_cfg) in *.
  pose proof (init_landscape_value_nonneg choice) as Hlv.
  pose proof (init_landscape_maxTileVal_nonneg choice) as Hmv.
  fold cfg in Hlv, Hmv.
  destruct fuel as [|k]; [discriminate|].
  simpl in H. unfold recurse_body in H. simpl in H.
  destruct (val_calc numRows numCols cfg (allocate_grid numRows numCols))
    as [v|] eqn:Hv; [|discriminate].
  simpl in H.
  assert (0 ≤ v) as Hv0.
  { eapply val_calc_zero_nonneg; [exact Hlv| |exact Hv].
    apply allocate_grid_zero. }
  replace (v + maxTileVal cfg * (numRows * numCols - 0) <=? -1) with false in H
    by (symmetry; apply Z.leb_gt; nia).
  unfold seed_best in H. simpl in H.
  destruct (heuristic_grid numRows numCols (allocate_grid numRows numCols))
    as [h|] eqn:Hh; [|discriminate].
  simpl in H.
  destruct (val_calc numRows numCols cfg h) as [w|] eqn:Hw; [|discriminate].
  simpl in H.
  assert (0 ≤ w) as Hw0.
  { eapply val_calc_zero_nonneg; [exact Hlv| |exact Hw].
    eapply heuristic_grid_zero; [|exact Hh]. apply allocate_grid_zero. }
  destruct (search_loop _ _ _ _ _) as [[l st']|] eqn:Hloop; [|discriminate].
  simpl in H. inversion H. subst. clear H.
  pose proof (search_loop_keeps_score numRows numCols cfg _
                (mkLocals (allocate_grid numRows numCols) h w, _) _
                Hw Hloop) as Hscore.
  assert (Hinv : loop_inv numRows numCols cfg w
                   (mkLocals (allocate_grid numRows numCols) h w,
                    mkSearch w false 0 [w; -1])).
  { apply loop_inv_intro; simpl; try done; [|by right].
    unfold log_ok. simpl. split; [|done].
    repeat constructor. lia. }
  pose proof (search_loop_inv numRows numCols cfg _ _ _ _
                (recurse_grid_ok numRows numCols cfg Hlv k) Hinv Hloop)
    as (_ & _ & Hcb & Hb0 & _).
  simpl in *. split; [congruence|lia].
Qed.

(** * Landscape placements commute *)

Section Commute.
Variables numRows numCols : Z.
Local Abbreviation row := (get_row_idx numCols).
Local Abbreviation col := (get_col_idx numCols).

(** A free in-range cell accepts a landscape tile. *)
Lemma add_land_free i g x :
  grid_shape numRows numCols g → 0 < numCols →
  in_range numRows numCols i →
  rd (grid g) (row i) (col i) = Some x → type x = LHO_EMPTY →
  ∃ g1, add_land numRows numCols i g = Some (true, g1).
Proof.
  intros Hs Hc Hr Hx Hty.
  destruct (add_land_spec numRows numCols i g Hs Hc) as (ok & g1 & H & Hk & _).
  destruct (chk_loc_spec numRows numCols i g Hs Hc) as (b & Hb & Hiff).
  assert (b = true) as ->.
  { apply Hiff. split; [done|]. by rewrite Hx; simpl; rewrite Hty. }
  assert (ok = true) as -> by congruence. eauto.
Qed.

(** X17.  Two accepted landscape placements commute: if [add_land i] and
    then [add_land j] are accepted, so are [add_land j] and then
    [add_land i], and they end in the same grid state (tiles, counters,
    fill count and [full] flag). *)
Theorem add_land_commutes i j g g1 g2 :
  grid_shape numRows numCols g → 0 < numCols →
  add_land numRows numCols i g = Some (true, g1) →
  add_land numRows numCols j g1 = Some (true, g2) →
  ∃ g1', add_land numRows numCols j g = Some (true, g1')
         ∧ add_land numRows numCols i g1' = Some (true, g2).
Proof.
  intros Hs Hc H1 H2.
  pose proof H1 as H1'.
  apply add_land_inv in H1' as (Hri & x & t1 & t2 & Hx & Hty & Hm1 & Ht1 & ->).
  pose proof H2 as H2'.
  apply add_land_inv in H2' as (Hrj & y & u1 & u2 & Hy & Htyy & Hm2 & Ht2 & ->).
  simpl in *.
  pose proof (rd_after_place numRows numCols _ _ _ _ _ _ _ (row j) (col j) Hm1 Ht1)
    as Ej.
  rewrite Hy in Ej.
  assert (Hne : ¬ (row j = row i ∧ col j = col i)).
  { intros [E1 E2]. rewrite E1, E2, nb_self, decide_True, Hx in Ej by done.
    simpl in Ej. inversion Ej. subst y. done. }
  rewrite decide_False in Ej by done. simpl in Ej.
  destruct (rd (grid g) (row j) (col j)) as [y0|] eqn:Hy0.
  2:{ by destruct (nb _ _ _ _ _ _). }
  assert (type y0 = LHO_EMPTY) as Hty0.
  { destruct (nb _ _ _ _ _ _); simpl in Ej; inversion Ej; by subst. }
  destruct (add_land_free j g y0 Hs Hc Hrj Hy0 Hty0) as [g1' H1j].
  exists g1'. split; [done|].
  pose proof H1j as H1j'.
  apply add_land_inv in H1j' as (_ & y' & v1 & v2 & Hy' & _ & Hn1 & Hu1 & ->).
  assert (Hs1 : grid_shape numRows numCols
                  (mkGrid v2 (river g) (fill_one g).1 (maxTiles g)
                          (fill_one g).2 (val g))).
  { destruct (mutations_shape numRows numCols j g Hs) as (S1 & _).
    by eapply S1. }
  pose proof (rd_after_place numRows numCols _ _ _ _ _ _ _ (row i) (col i) Hn1 Hu1)
    as Ei.
  rewrite decide_False, Hx in Ei by (intros [? ?]; apply Hne; done).
  simpl in Ei.
  assert (∃ x', rd v2 (row i) (col i) = Some x' ∧ type x' = LHO_EMPTY)
    as (x' & Hx' & Htx').
  { destruct (nb numRows numCols (row j) (col j) (row i) (col i));
      simpl in Ei; (eexists; split; [exact Ei|done]). }
  destruct (add_land_free i _ x' Hs1 Hc Hri Hx' Htx') as [g2' H2i].
  rewrite H2i. do 2 f_equal.
  apply add_land_inv in H2i as (_ & x'' & w1 & w2 & _ & _ & Hn2 & Hu2 & ->).
  simpl in *. f_equal.
  apply rd_ext.
  - rewrite (touch_shape _ _ _ _ _ _ _ Hu2), (modify_shape _ _ _ _ _ Hn2),
      (touch_shape _ _ _ _ _ _ _ Hu1), (modify_shape _ _ _ _ _ Hn1),
      (touch_shape _ _ _ _ _ _ _ Ht2), (modify_shape _ _ _ _ _ Hm2),
      (touch_shape _ _ _ _ _ _ _ Ht1), (modify_shape _ _ _ _ _ Hm1).
    done.
  - intros a b.
    rewrite (rd_after_place numRows numCols _ _ _ _ _ _ _ a b Hn2 Hu2),
      (rd_after_place numRows numCols _ _ _ _ _ _ _ a b Hn1 Hu1),
      (rd_after_place numRows numCols _ _ _ _ _ _ _ a b Hm2 Ht2),
      (rd_after_place numRows numCols _ _ _ _ _ _ _ a b Hm1 Ht1).
    destruct (rd (grid g) a b) as [z|];
      destruct (nb numRows numCols (row i) (col i) a b),
        (nb numRows numCols (row j) (col j) a b),
        (decide (a = row i ∧ b = col i)), (decide (a = row j ∧ b = col j));
      simpl; try done; f_equal; destruct z; unfold set_type, add_lands; simpl;
      f_equal; lia.
Qed.

End Commute.

(** * [count_adj_mountains] *)

Ltac cmp_lia :=
  repeat match goal with
         | |- context [?a <? ?b] =>
             first [ replace (a <? b) with true
                       by (symmetry; apply Z.ltb_lt; lia)
                   | replace (a <? b) with false
                       by (symmetry; apply Z.ltb_ge; lia) ]
         | |- context [?a <=? ?b] =>
             first [ replace (a <=? b) with true
                       by (symmetry; apply Z.leb_le; lia)
                   | replace (a <=? b) with false
                       by (symmetry; apply Z.leb_gt; lia) ]
         | |- context [?a =? ?b] =>
             first [ replace (a =? b) with true
                       by (symmetry; apply Z.eqb_eq; lia)
                   | replace (a =? b) with false
                       by (symmetry; apply Z.eqb_neq; lia) ]
         end.

Section Mountains.
Variables numRows numCols : Z.

(** X18.  [count_adj_mountains] counts every Landscape neighbour of an
    interior cell (eight cells) and of a corner cell (three cells).  On a
    border cell that is not a corner it counts only the three cells of the
    next row or column inwards: the two neighbours along the border are
    left out. *)
Theorem count_adj_mountains_on_edges i j g :
  grid_shape numRows numCols g → 2 ≤ numRows → 2 ≤ numCols →
  0 ≤ i < numRows → 0 ≤ j < numCols →
  ∃ n, count_adj_mountains numRows numCols i j g = Some n
       ∧ spec_adjacentLandscapes numRows numCols i j g
         = Some (n
                 + (if ((i =? 0) || (i =? numRows - 1))
                       && (0 <? j) && (j <? numCols - 1)
                    then is_kind LHO_LANDSCAPE (grid g) i (j - 1)
                         + is_kind LHO_LANDSCAPE (grid g) i (j + 1)
                    else 0)
                 + (if ((j =? 0) || (j =? numCols - 1))
                       && (0 <? i) && (i <? numRows - 1)
                    then is_kind LHO_LANDSCAPE (grid g) (i - 1) j
                         + is_kind LHO_LANDSCAPE (grid g) (i + 1) j
                    else 0)).
Proof.
  intros Hs Hrows Hcols Hi Hj.
  assert (Hc : ∀ a b c, 0 ≤ a < numRows → 0 ≤ b < numCols →
            count_if LHO_LANDSCAPE (grid g) a b c
            = Some (c + is_kind LHO_LANDSCAPE (grid g) a b)).
  { intros a b c Ha Hb. apply count_if_spec.
    apply (shape_rd numRows numCols _ _ _ Hs). lia. }
  unfold count_adj_mountains, spec_adjacentLandscapes, count_cells, in_grid.
  assert (Hi' : i = 0 ∨ (0 < i ∧ i < numRows - 1) ∨ i = numRows - 1) by lia.
  assert (Hj' : j = 0 ∨ (0 < j ∧ j < numCols - 1) ∨ j = numCols - 1) by lia.
  destruct Hi' as [Hi'|[Hi'|Hi']], Hj' as [Hj'|[Hj'|Hj']].
  all: cbn [foldl fst snd].
  all: cmp_lia.
  all: cbn [andb orb mbind option_bind foldl fst snd].
  all: repeat (rewrite Hc by lia; cbn [mbind option_bind]).
  all: eexists; (split; [reflexivity|f_equal; lia]).
Qed.

(** X19.  On a board with a single row [count_adj_mountains] reads the row
    below the first one, which does not exist. *)
Theorem count_adj_mountains_single_row_faults j g :
  grid_shape numRows numCols g → numRows = 1 → 0 < j < numCols - 1 →
  count_adj_mountains numRows numCols 0 j g = None.
Proof.
  intros Hs Hrows Hj.
  unfold count_adj_mountains, count_cells.
  cmp_lia. cbn [andb orb mbind option_bind foldl fst snd].
  assert (E : count_if LHO_LANDSCAPE (grid g) (0 + 1) j 0 = None).
  { unfold count_if.
    destruct (rd (grid g) (0 + 1) j) as [x|] eqn:Hx; [|done].
    exfalso. assert (is_Some (rd (grid g) (0 + 1) j)) as Hin by eauto.
    apply (shape_rd numRows numCols _ _ _ Hs) in Hin. lia. }
  by rewrite E.
Qed.

End Mountains.

(** * [get_adj_locs] and [valid_river_locs] *)


Section LocFacts.
Variables numRows numCols : Z.
Local Abbreviation row := (get_row_idx numCols).
Local Abbreviation col := (get_col_idx numCols).

Lemma off_grid_in_range l :
  in_range numRows numCols l → off_grid_to_minus1 numRows numCols l = l.
Proof.
  unfold in_range, off_grid_to_minus1. intros H.
  replace (l <? 0) with false by (symmetry; apply Z.ltb_ge; lia).
  replace (l >? numRows * numCols - 1) with false
    by (symmetry; rewrite Z.gtb_ltb; apply Z.ltb_ge; lia).
  done.
Qed.

(** Cells that pass the connectivity test of [add_river] differ by one or
    by a whole row in their linear index. *)
Lemma adjacent_index i k :
  adjacent numCols i k →
  i = k + 1 ∨ i = k - 1 ∨ i = k - numCols ∨ i = k + numCols.
Proof.
  unfold adjacent, next_to. intros H.
  pose proof (Z.quot_rem' i numCols) as Ei.
  pose proof (Z.quot_rem' k numCols) as Ek.
  unfold get_row_idx, get_col_idx in H.
  apply orb_prop in H as [H|H]; apply andb_prop in H as [H1 H2];
    apply Z.eqb_eq in H1, H2; nia.
Qed.

(** X20.  [valid_river_locs] lists every cell on which [add_river] can extend
    a started river. *)
Theorem valid_river_locs_lists_accepted i g g1 :
  grid_shape numRows numCols g → 0 < numCols →
  -1 < headLoc (river g) →
  add_river numRows numCols i g = Some (true, g1) →
  ∃ locs, valid_river_locs numRows numCols g = Some locs ∧ i ∈ locs.
Proof.
  intros Hs Hc Hh H.
  apply add_river_inv in H as (Hr & _ & Hadj & x & _ & _ & Hx & Hty & _).
  specialize (Hadj Hh). apply adjacent_index in Hadj.
  assert (Hi : chk_loc numRows numCols i g = Some true).
  { destruct (chk_loc_spec numRows numCols i g Hs Hc) as (b & Hb & Hiff).
    rewrite Hb. f_equal. apply Hiff. split; [done|].
    by rewrite Hx; simpl; rewrite Hty. }
  unfold valid_river_locs, get_adj_locs.
  set (k := headLoc (river g)) in *.
  destruct (chk_loc_spec numRows numCols
              (off_grid_to_minus1 numRows numCols (k + 1)) g Hs Hc)
    as (b1 & E1 & _).
  destruct (chk_loc_spec numRows numCols
              (off_grid_to_minus1 numRows numCols (k - 1)) g Hs Hc)
    as (b2 & E2 & _).
  destruct (chk_loc_spec numRows numCols
              (off_grid_to_minus1 numRows numCols (k - numCols)) g Hs Hc)
    as (b3 & E3 & _).
  destruct (chk_loc_spec numRows numCols
              (off_grid_to_minus1 numRows numCols (k + numCols)) g Hs Hc)
    as (b4 & E4 & _).
  simpl. rewrite E1, E2, E3, E4. simpl.
  eexists. split; [reflexivity|].
  destruct Hadj as [E|[E|[E|E]]]; rewrite <- E in *;
    rewrite (off_grid_in_range i Hr) in *.
  - assert (b1 = true) as -> by congruence. simpl. left.
  - assert (b2 = true) as -> by congruence. simpl. right. left.
  - assert (b3 = true) as -> by congruence. simpl. do 2 right. left.
  - assert (b4 = true) as -> by congruence. simpl. do 3 right. left.
Qed.

(** X21.  [get_adj_locs] reasons on the linear index alone: for a cell at the
    end of a row its "Right" entry is the first cell of the next row, which
    is inside the grid but not next to the cell. *)
Theorem get_adj_locs_wraps k :
  2 ≤ numCols → in_range numRows numCols k →
  in_range numRows numCols (k + 1) → col k = numCols - 1 →
  k + 1 ∈ get_adj_locs numRows numCols k ∧ ¬ adjacent numCols (k + 1) k.
Proof.
  intros Hc Hk Hk1 Hcol. split.
  { unfold get_adj_locs. simpl. rewrite (off_grid_in_range _ Hk1). left. }
  unfold adjacent.
  assert (Hrow : 0 ≤ row k).
  { unfold get_row_idx. apply Z.quot_pos; unfold in_range in Hk; lia. }
  pose proof (Z.quot_rem' k numCols) as Ek.
  fold (row k) in Ek. fold (col k) in Ek.
  assert (Ek1 : k + 1 = (row k + 1) * numCols + 0) by lia.
  destruct (cell_coords numCols (row k + 1) 0) as [R C]; [lia..|].
  rewrite Ek1, R, C, Hcol. unfold next_to.
  cmp_lia. done.
Qed.

End LocFacts.

(** * The seed's score, unknown landscapes, the recursion depth *)

Section SeedFacts.
Variables numRows numCols : Z.

Lemma tile_loop_same body g v :
  (∀ a b x w, rd (grid g) a b = Some x → body x w = w) →
  tile_loop numRows numCols body g = Some v → v = 0.
Proof.
  unfold tile_loop. intros Hb H.
  rewrite (foldl_pointwise _
             (λ acc i, w ← acc;
                foldl (λ acc j, v ← acc; x ← rd (grid g) i j; Some (body x v))
                      (Some w) (upto numCols))) in H.
  2:{ intros [w|] i; [done|]. simpl. by apply foldl_option_None. }
  eapply (foldl_option_inv (λ w, w = 0)); [|reflexivity|exact H].
  intros w i w' -> Hrow.
  eapply (foldl_option_inv (λ w, w = 0)
            (λ v j, x ← rd (grid g) i j; Some (body x v)));
    [|reflexivity|exact Hrow].
  intros u j u' -> Hs. destruct (rd (grid g) i j) as [x|] eqn:E; [|done].
  inversion Hs. by eapply Hb.
Qed.

(** X22.  [heuristic_grid] sets the kinds of the tiles without touching the
    neighbour counters, so with the mountain landscape the seed it gives
    the search is worth 0. *)
Theorem mountain_seed_scores_zero cfg :
  2 ≤ numRows → 1 ≤ numCols → landChoice cfg = LHO_MOUNTAIN →
  ∃ h, heuristic_grid numRows numCols (allocate_grid numRows numCols) = Some h
       ∧ val_calc numRows numCols cfg h = Some 0.
Proof.
  intros Hrows Hcols Hm.
  destruct (heuristic_grid_runs numRows numCols Hrows Hcols
              (allocate_grid numRows numCols)) as (h & Hh & Hs);
    [apply allocate_grid_shape|].
  exists h. split; [done|].
  pose proof (heuristic_grid_zero numRows numCols _ _
                (allocate_grid_zero numRows numCols) Hh) as Hz.
  destruct (val_calc_is_Some numRows numCols cfg h Hs) as [v Hv].
  rewrite Hv. f_equal.
  unfold val_calc in Hv. rewrite Hm in Hv. unfold val_calc_mountain in Hv.
  eapply tile_loop_same; [|exact Hv].
  intros a b x w Hx. destruct (Hz _ _ _ Hx) as [E1 E2].
  destruct (decide _); [|done]. rewrite E1, E2. lia.
Qed.

(** X23.  [init_landscape] leaves the configuration alone for a choice outside
    0..3; started from the zero-initialised statics, every grid then
    scores 0. *)
Theorem unknown_landscape_scores_zero choice g :
  ¬ (0 ≤ choice ≤ 3) → grid_shape numRows numCols g →
  init_landscape choice static_cfg = static_cfg
  ∧ val_calc numRows numCols (init_landscape choice static_cfg) g = Some 0.
Proof.
  intros Hch Hs.
  assert (E : init_landscape choice static_cfg = static_cfg).
  { unfold init_landscape. cmp_lia. done. }
  split; [done|]. rewrite E.
  destruct (val_calc_is_Some numRows numCols static_cfg g Hs) as [v Hv].
  rewrite Hv. f_equal.
  unfold val_calc in Hv. simpl in Hv. unfold val_calc_meadow_thicket in Hv.
  eapply tile_loop_same; [|exact Hv].
  intros a b x w Hx. simpl.
  destruct (decide _); [|done]. destruct (_ =? _); lia.
Qed.

End SeedFacts.

Section Depth.
Variables numRows numCols : Z.
Variable cfg : LandCfg.

Lemma try_place_depth rec place i ls ls' :
  (∀ g st g' st', rec g st = Some (g', st') →
                  recursion_depth st' = recursion_depth st) →
  try_place numRows numCols cfg rec place i ls = Some ls' →
  recursion_depth ls'.2 = recursion_depth ls.2.
Proof.
  destruct ls as [l st]. simpl. intros Hrec H.
  destruct (place i (thisGrid l)) as [[added tg]|]; [|discriminate].
  simpl in H. destruct added; [|by inversion H; subst].
  destruct (remove_terrain numRows numCols i tg) as [tg'|]; [|discriminate].
  simpl in H.
  destruct (rec tg (bump_depth 1 st)) as [[temp st2]|] eqn:Hcall;
    [|discriminate].
  simpl in H. apply Hrec in Hcall. simpl in Hcall.
  destruct (val_calc numRows numCols cfg temp) as [v|]; [|discriminate].
  simpl in H. destruct (v >? currentBest l); inversion H; subst; simpl; lia.
Qed.

(** X16.  Every [recursion_depth++] is matched by a [recursion_depth--]: a
    call of [recurse_grid] returns with [recursion_depth] as it found it. *)
Theorem recursion_depth_restored fuel g st g' st' :
  recurse_grid numRows numCols cfg fuel g st = Some (g', st') →
  recursion_depth st' = recursion_depth st.
Proof.
  revert g st g' st'. induction fuel as [|k IH]; intros g st g' st' H;
    [discriminate|].
  simpl in H. unfold recurse_body in H.
  destruct (full g); [by inversion H; subst|].
  destruct (val_calc numRows numCols cfg g) as [v|]; [|discriminate].
  simpl in H.
  destruct (v + _ <=? bestVal st); [by inversion H; subst|].
  destruct (seed_best numRows numCols cfg g st) as [ls|] eqn:Hseed;
    [|discriminate].
  simpl in H.
  destruct (search_loop _ _ _ _ _) as [[l st2]|] eqn:Hloop; [|discriminate].
  simpl in H. inversion H. subst. clear H.
  assert (Hd : recursion_depth ls.2 = recursion_depth st).
  { unfold seed_best in Hseed. destruct (initial_recursion st).
    - destruct (heuristic_grid _ _ _); [|discriminate]. simpl in Hseed.
      destruct (val_calc _ _ _ _); [|discriminate]. by inversion Hseed.
    - by inversion Hseed. }
  unfold search_loop in Hloop.
  apply (foldl_option_inv
           (λ ls, recursion_depth ls.2 = recursion_depth st)
           (λ ls1 i,
              ls2 ← try_place numRows numCols cfg (recurse_grid numRows numCols cfg k)
                      (add_river numRows numCols) i ls1;
              try_place numRows numCols cfg (recurse_grid numRows numCols cfg k)
                (add_land numRows numCols) i ls2)) in Hloop; [done| |done].
  intros a i a' Ha Hs.
  destruct (try_place _ _ _ _ (add_river _ _) _ _) as [a1|] eqn:E1;
    [|discriminate].
  simpl in Hs.
  apply try_place_depth in E1, Hs; [congruence|exact IH|exact IH].
Qed.

End Depth.

(** * The river among landscape tiles *)

Section RiverAndLand.
Variables numRows numCols : Z.
Local Abbreviation row := (get_row_idx numCols).
Local Abbreviation col := (get_col_idx numCols).





End RiverAndLand.

(** * [copy_grid] as a loop *)

Section CopyFacts.
Variables numRows numCols : Z.

Lemma copy_row src i js t :
  (∀ j, j ∈ js → is_Some (rd t i j) ∧ is_Some (rd src i j)) →
  ∃ t', foldl (λ acc j, u ← acc; x ← rd src i j; modify (λ _, x) u i j)
              (Some t) js = Some t'
        ∧ (length <$> t') = (length <$> t)
        ∧ ∀ a b, rd t' a b
                 = if decide (a = i ∧ b ∈ js) then rd src a b else rd t a b.
Proof.
  revert t. induction js as [|j js IH]; intros t Hr.
  { exists t. split; [done|]. split; [done|]. intros a b.
    destruct (decide _) as [[_ H]|]; [|done]. by apply elem_of_nil in H. }
  destruct (Hr j) as [[y Hy] [x Hx]]; [left|].
  destruct (modify_is_Some (λ _, x) t i j) as [t1 Hm]; [by eauto|].
  destruct (IH t1) as (t' & Hf & Hs & Hrd).
  { intros j' Hj'. destruct (Hr j') as [H1 H2]; [by right|]. split; [|done].
    rewrite (rd_modify _ _ _ _ _ i j' Hm).
    destruct (decide _); [by rewrite fmap_is_Some|done]. }
  exists t'. simpl. rewrite Hx. simpl. rewrite Hm. split; [done|]. split.
  { by rewrite Hs, (modify_shape _ _ _ _ _ Hm). }
  intros a b. rewrite Hrd, (rd_modify _ _ _ _ _ a b Hm).
  destruct (decide (a = i ∧ b ∈ js)) as [H1|H1],
    (decide (a = i ∧ b = j)) as [H2|H2],
    (decide (a = i ∧ b ∈ j :: js)) as [H3|H3];
    try done; try (exfalso; rewrite elem_of_cons in H3; tauto).
  destruct H2 as [-> ->]. by rewrite Hy, Hx.
Qed.

Lemma copy_rows src rs js t :
  (∀ i j, i ∈ rs → j ∈ js → is_Some (rd t i j) ∧ is_Some (rd src i j)) →
  ∃ t', foldl (λ acc i,
                 foldl (λ acc j, u ← acc; x ← rd src i j; modify (λ _, x) u i j)
                       acc js)
              (Some t) rs = Some t'
        ∧ (length <$> t') = (length <$> t)
        ∧ ∀ a b, rd t' a b
                 = if decide (a ∈ rs ∧ b ∈ js) then rd src a b else rd t a b.
Proof.
  revert t. induction rs as [|i rs IH]; intros t Hr.
  { exists t. split; [done|]. split; [done|]. intros a b.
    destruct (decide _) as [[H _]|]; [|done]. by apply elem_of_nil in H. }
  destruct (copy_row src i js t) as (t1 & Hf1 & Hs1 & Hrd1).
  { intros j Hj. apply Hr; [left|done]. }
  destruct (IH t1) as (t' & Hf & Hs & Hrd).
  { intros i' j Hi' Hj. destruct (Hr i' j) as [H1 H2]; [by right|done|].
    split; [|done]. rewrite Hrd1. by destruct (decide _). }
  exists t'. simpl. rewrite Hf1. split; [done|]. split; [congruence|].
  intros a b. rewrite Hrd, Hrd1.
  destruct (decide (a ∈ rs ∧ b ∈ js)) as [H1|H1],
    (decide (a = i ∧ b ∈ js)) as [H2|H2],
    (decide (a ∈ i :: rs ∧ b ∈ js)) as [H3|H3];
    try done; exfalso; rewrite elem_of_cons in H3; tauto.
Qed.

(** X25.  [copy_grid] is a deep copy: when both grids have [numRows] rows of
    [numCols] tiles its loops stay inside both arrays, and afterwards the
    destination holds exactly the state of the source, whatever it held
    before. *)
Theorem copy_grid_is_deep_copy dupGrid inGrid :
  grid_shape numRows numCols dupGrid → grid_shape numRows numCols inGrid →
  copy_grid_into numRows numCols dupGrid inGrid = Some (copy_grid inGrid).
Proof.
  intros Hd Hi.
  destruct (copy_rows (grid inGrid) (upto numRows) (upto numCols) (grid dupGrid))
    as (t & Hf & Hs & Hrd).
  { intros i j Hr Hc. apply elem_of_seqZ in Hr, Hc.
    split; apply (shape_rd numRows numCols); try done; lia. }
  unfold copy_grid_into. rewrite Hf. simpl.
  assert (t = grid inGrid) as ->; [|by destruct inGrid].
  apply rd_ext; [by rewrite Hs, Hd, Hi|].
  intros a b. rewrite Hrd.
  destruct (decide _) as [_|Hn]; [done|].
  assert (Hout : ¬ (0 ≤ a < numRows ∧ 0 ≤ b < numCols)).
  { intros H. apply Hn. unfold upto. rewrite !elem_of_seqZ. lia. }
  destruct (rd (grid dupGrid) a b) eqn:E1.
  { exfalso. apply Hout. apply (shape_rd numRows numCols _ _ _ Hd). eauto. }
  destruct (rd (grid inGrid) a b) eqn:E2; [|done].
  exfalso. apply Hout. apply (shape_rd numRows numCols _ _ _ Hi). eauto.
Qed.

End CopyFacts.

(** * The river of the heuristic seed *)

Ltac split_eqb :=
  repeat match goal with
         | |- context [?a =? ?b] =>
             let E := fresh "E" in
             destruct (a =? b) eqn:E;
             [apply Z.eqb_eq in E | apply Z.eqb_neq in E]; simpl
         end.

Section SeedRiver.
Variables numRows numCols : Z.

Lemma zig_inv_step s :
  2 ≤ numRows → zig_inv numRows numCols s →
  zdone (zig_step numRows numCols s) = false →
  zig_inv numRows numCols (zig_step numRows numCols s).
Proof.
  intros Hrows (Hd & Hi & Hj & Hloc & Hnxt & Hfirst) Hd'.
  destruct (zig_step_inv numRows numCols s Hrows Hd Hi Hj Hloc Hnxt Hfirst)
    as [[E _]|(_ & Hi' & Hj' & Hloc' & Hnxt' & Hf' & _)]; [congruence|].
  unfold zig_inv. repeat split; try done; try lia.
  intros E. congruence.
Qed.

Lemma zig_step_adjacent s :
  2 ≤ numRows → zig_inv numRows numCols s →
  next_to (zi (zig_step numRows numCols s)) (zj (zig_step numRows numCols s))
          (zi s) (zj s) = true.
Proof.
  destruct s as [i j dn fl loc nxt ov]. unfold zig_inv. simpl.
  intros Hrows (-> & Hi & Hj & Hloc & Hnxt & Hfirst).
  unfold zig_step. simpl.
  destruct loc; [| |congruence|].
  - assert (fl = false) as -> by (destruct fl; [by specialize (Hfirst eq_refl)|done]).
    simpl. split_eqb; unfold next_to; cmp_lia; done.
  - assert (fl = false) as -> by (destruct fl; [by specialize (Hfirst eq_refl)|done]).
    simpl. split_eqb; unfold next_to; cmp_lia; done.
  - simpl. split_eqb; destruct fl; simpl; unfold next_to; cmp_lia; done.
Qed.

Lemma zig_cells_linked fuel s :
  2 ≤ numRows → zig_inv numRows numCols s →
  linked (zig_cells numRows numCols fuel s)
  ∧ ∀ a b, (a, b) ∈ zig_cells numRows numCols fuel s →
           0 ≤ a < numRows ∧ 0 ≤ b < numCols.
Proof.
  intros Hrows. revert s. induction fuel as [|k IH]; intros s Hinv.
  { split; [constructor|]. intros a b H. by apply elem_of_nil in H. }
  pose proof Hinv as (Hd & Hi & Hj & _).
  simpl. rewrite Hd.
  destruct (zdone (zig_step numRows numCols s)) eqn:Hd'.
  - destruct k as [|k]; simpl; rewrite ?Hd'.
    all: split; [constructor|].
    all: intros a b H; apply list_elem_of_singleton in H; inversion H; lia.
  - destruct (IH _ (zig_inv_step s Hrows Hinv Hd')) as [Hl Hb].
    split.
    + destruct k as [|k]; [constructor|].
      simpl in *. rewrite Hd' in *. constructor; [|done].
      simpl. by apply zig_step_adjacent.
    + intros a b H. apply elem_of_cons in H as [H|H]; [inversion H; lia|].
      by apply Hb.
Qed.

Lemma zigzag_cells fuel s t t' a b :
  zigzag numRows numCols fuel s t = Some t' →
  rd t' a b = if decide ((a, b) ∈ zig_cells numRows numCols fuel s)
              then set_type LHO_RIVER <$> rd t a b else rd t a b.
Proof.
  revert s t. induction fuel as [|k IH]; intros s t H; [discriminate|].
  simpl in *. destruct (zdone s).
  { inversion H. subst. rewrite decide_False; [done|].
    intros E. by apply elem_of_nil in E. }
  destruct (modify _ _ _ _) as [t1|] eqn:Hm; [|discriminate]. simpl in H.
  rewrite (IH _ _ H), (rd_modify _ _ _ _ _ a b Hm).
  destruct (decide ((a, b) ∈ zig_cells numRows numCols k (zig_step numRows numCols s)))
    as [H1|H1],
    (decide (a = zi s ∧ b = zj s)) as [H2|H2],
    (decide ((a, b) ∈ (zi s, zj s) :: zig_cells numRows numCols k
                                        (zig_step numRows numCols s)))
    as [H3|H3];
    try done; try (by destruct (rd t a b));
    exfalso; rewrite elem_of_cons in H3;
    first [ tauto
          | destruct H2 as [-> ->]; apply H3; by left
          | destruct H3 as [H3|H3]; [inversion H3; tauto|tauto] ].
Qed.

(** X26.  The river [heuristic_grid] draws is a legal one although it is
    written without [add_river]: on a board with at least two rows and one
    column the River tiles of the seed are exactly the cells the zig-zag
    visits, which start at the corner (0, 0), lie inside the board, and
    each of which is orthogonally next to the one before. *)
Theorem heuristic_river_is_linked g h :
  2 ≤ numRows → 1 ≤ numCols → grid_shape numRows numCols g →
  heuristic_grid numRows numCols g = Some h →
  let cells := zig_cells numRows numCols (Z.to_nat (2 * numCols) + 1) zig_start in
  head cells = Some (0, 0)
  ∧ linked cells
  ∧ (∀ a b, (a, b) ∈ cells → 0 ≤ a < numRows ∧ 0 ≤ b < numCols)
  ∧ (∀ a b, type <$> rd (grid h) a b = Some LHO_RIVER ↔ (a, b) ∈ cells).
Proof.
  intros Hrows Hcols Hs Hh cells.
  assert (Hinv : zig_inv numRows numCols zig_start).
  { unfold zig_inv. simpl. repeat split; try done; try lia. by right. }
  destruct (zig_cells_linked (Z.to_nat (2 * numCols) + 1) zig_start Hrows Hinv)
    as [Hl Hb].
  split; [by unfold cells; rewrite Nat.add_1_r|].
  split; [done|]. split; [done|].
  destruct (paint_board numRows numCols g Hs) as (t0 & Hf & Hs0 & Hrd0).
  unfold heuristic_grid in Hh. rewrite Hf in Hh. simpl in Hh.
  destruct (zigzag _ _ _ _ _) as [t1|] eqn:Hz; [|discriminate].
  inversion Hh. subst h. simpl. clear Hh.
  intros a b. rewrite (zigzag_cells _ _ _ _ a b Hz). fold cells.
  destruct (decide ((a, b) ∈ cells)) as [Hin|Hout].
  - split; [done|]. intros _.
    destruct (proj2 (shape_rd numRows numCols t0 a b Hs0)) as [x Hx];
      [by apply Hb|].
    by rewrite Hx.
  - split; [|done]. intros E.
    destruct (rd t0 a b) as [x|] eqn:Hx; [|done].
    destruct (Hrd0 a b x Hx) as (y & _ & ->). simpl in E. congruence.
Qed.

End SeedRiver.

(** * Undoing a river placement *)

Section RiverRoundTrip.

Variables numRows numCols : Z.

(** X27.  Undoing an accepted river placement restores the tiles: after an
    accepted [add_river i], [remove_terrain i] succeeds and gives back the
    tile array (kinds and both counters of every tile), [numFilledTiles]
    and [maxTiles] of the grid before the placement. *)
Theorem add_river_remove_terrain_restores_tiles i g g1 :
  add_river numRows numCols i g = Some (true, g1) →
  ∃ g2, remove_terrain numRows numCols i g1 = Some g2
        ∧ grid g2 = grid g
        ∧ numFilledTiles g2 = numFilledTiles g
        ∧ maxTiles g2 = maxTiles g.
Proof.
  intros H. rewrite (add_river_remove _ _ _ _ _ H). eauto.
Qed.

End RiverRoundTrip.

(** * The properties above on small boards *)

Lemma coordinates_round_trip_witness :
  get_row_idx 3 (1 * 3 + 2) = 1 ∧ get_col_idx 3 (1 * 3 + 2) = 2
  ∧ get_row_idx 3 7 * 3 + get_col_idx 3 7 = 7.
Proof. apply (coordinates_round_trip 3 1 2 7); lia. Defined.

Lemma chk_loc_decides_placeable_witness :
  ∃ b, chk_loc 2 2 3 three_placed = Some b
       ∧ (b = true ↔
          in_range 2 2 3
          ∧ type <$> rd (grid three_placed) (get_row_idx 2 3) (get_col_idx 2 3)
            = Some LHO_EMPTY).
Proof.
  apply (chk_loc_decides_placeable 2 2 3 three_placed); [reflexivity|lia].
Defined.

Lemma add_land_accepts_placeable_witness :
  ∃ ok g1, add_land 2 2 3 three_placed = Some (ok, g1)
           ∧ chk_loc 2 2 3 three_placed = Some ok
           ∧ (ok = false → g1 = three_placed).
Proof.
  apply (add_land_accepts_placeable 2 2 3 three_placed); [reflexivity|lia].
Defined.

Lemma add_river_accepts_exactly_witness :
  ∃ ok g1,
    add_river 1 3 2 two_rivers = Some (ok, g1)
    ∧ (ok = true ↔
       chk_loc 1 3 2 two_rivers = Some true
       ∧ (newRiver (river two_rivers) = true →
          on_border 1 3 (get_row_idx 3 2) (get_col_idx 3 2) = true)
       ∧ (-1 < headLoc (river two_rivers) →
          next_to (get_row_idx 3 2) (get_col_idx 3 2)
                  (get_row_idx 3 (headLoc (river two_rivers)))
                  (get_col_idx 3 (headLoc (river two_rivers))) = true)).
Proof.
  apply (add_river_accepts_exactly 1 3 2 two_rivers); [reflexivity|lia].
Defined.

Lemma add_river_rejection_is_clean_witness :
  ∃ g1, add_river 1 3 0 two_rivers = Some (false, g1) ∧ g1 = two_rivers.
Proof.
  exists two_rivers. split; [reflexivity|].
  apply (add_river_rejection_is_clean 1 3 0 two_rivers two_rivers);
    reflexivity.
Defined.

Lemma remove_terrain_empty_is_noop_witness :
  rd (grid three_placed) (get_row_idx 2 3) (get_col_idx 2 3)
  = Some (mkTile LHO_EMPTY 0 2)
  ∧ remove_terrain 2 2 3 three_placed = Some three_placed.
Proof.
  split; [reflexivity|].
  apply (remove_terrain_empty_is_noop 2 2 3 three_placed (mkTile LHO_EMPTY 0 2));
    [reflexivity|reflexivity|simpl; lia].
Defined.

Lemma mutations_keep_shape_witness :
  (∀ ok g1, add_land 2 2 3 three_placed = Some (ok, g1) →
            grid_shape 2 2 g1 ∧ maxTiles g1 = maxTiles three_placed)
  ∧ (∀ ok g1, add_river 2 2 3 three_placed = Some (ok, g1) →
              grid_shape 2 2 g1 ∧ maxTiles g1 = maxTiles three_placed)
  ∧ (∀ g1, remove_terrain 2 2 3 three_placed = Some g1 →
           grid_shape 2 2 g1 ∧ maxTiles g1 = maxTiles three_placed).
Proof. apply (mutations_keep_shape 2 2 3 three_placed). reflexivity. Defined.

Lemma heuristic_grid_covers_board_witness :
  ∃ h, heuristic_grid 2 3 (allocate_grid 2 3) = Some h
       ∧ grid_shape 2 3 h
       ∧ river h = river (allocate_grid 2 3)
       ∧ numFilledTiles h = numFilledTiles (allocate_grid 2 3)
       ∧ full h = full (allocate_grid 2 3)
       ∧ ∀ a b x, rd (grid h) a b = Some x →
                  type x ≠ LHO_EMPTY
                  ∧ ∃ y, rd (grid (allocate_grid 2 3)) a b = Some y
                         ∧ numAdjRivers x = numAdjRivers y
                         ∧ numAdjLands x = numAdjLands y.
Proof.
  apply (heuristic_grid_covers_board 2 3 (allocate_grid 2 3));
    [lia|lia|reflexivity].
Defined.

Lemma heuristic_grid_single_row_faults_witness :
  grid_shape 1 3 (allocate_grid 1 3)
  ∧ heuristic_grid 1 3 (allocate_grid 1 3) = None.
Proof.
  split; [reflexivity|].
  apply (heuristic_grid_single_row_faults 1 3 (allocate_grid 1 3));
    [reflexivity|lia|reflexivity].
Defined.

Lemma three_placed_counters_ok : counters_ok 2 2 three_placed.
Proof.
  apply counters_ok_tallied; [reflexivity|].
  apply (played_shape_tallied 2 2 [PlaceRiver 0; PlaceLand 1; PlaceLand 2]).
  reflexivity.
Qed.

Lemma counters_kept_by_mutations_witness :
  (∀ ok g1, add_land 2 2 3 three_placed = Some (ok, g1) → counters_ok 2 2 g1)
  ∧ (∀ ok g1, add_river 2 2 3 three_placed = Some (ok, g1) →
              counters_ok 2 2 g1)
  ∧ (∀ g1, remove_terrain 2 2 1 three_placed = Some g1 → counters_ok 2 2 g1).
Proof.
  split; [|split].
  - apply (counters_kept_by_mutations 2 2 3 three_placed);
      [reflexivity|apply three_placed_counters_ok].
  - apply (counters_kept_by_mutations 2 2 3 three_placed);
      [reflexivity|apply three_placed_counters_ok].
  - apply (counters_kept_by_mutations 2 2 1 three_placed);
      [reflexivity|apply three_placed_counters_ok].
Defined.

Lemma counters_match_neighbours_witness :
  play 2 2 [PlaceRiver 0; PlaceLand 1; PlaceLand 2] (allocate_grid 2 2)
  = Some three_placed
  ∧ counters_ok 2 2 three_placed.
Proof.
  split; [reflexivity|].
  apply (counters_match_neighbours 2 2 [PlaceRiver 0; PlaceLand 1; PlaceLand 2]).
  reflexivity.
Defined.

Lemma counters_bounded_witness :
  rd (grid three_placed) 0 1 = Some (mkTile LHO_LANDSCAPE 1 0)
  ∧ 0 ≤ numAdjRivers (mkTile LHO_LANDSCAPE 1 0)
  ∧ 0 ≤ numAdjLands (mkTile LHO_LANDSCAPE 1 0)
  ∧ numAdjRivers (mkTile LHO_LANDSCAPE 1 0)
    + numAdjLands (mkTile LHO_LANDSCAPE 1 0) ≤ 4.
Proof.
  split; [reflexivity|].
  apply (counters_bounded 2 2 [PlaceRiver 0; PlaceLand 1; PlaceLand 2]
           three_placed 0 1); reflexivity.
Defined.

Lemma recount_agrees_witness :
  ∃ v, val_calc 2 2 (init_landscape 0 static_cfg) three_placed = Some v
       ∧ Recount.val_calc 2 2 (init_landscape 0 static_cfg) three_placed
         = Some v.
Proof.
  apply (recount_agrees 2 2 (init_landscape 0 static_cfg) three_placed);
    [reflexivity|apply three_placed_counters_ok].
Defined.

Lemma search_runs_witness :
  ∃ g st, recurse_grid 2 2 mountain_cfg 5 (allocate_grid 2 2) search_start
          = Some (g, st)
          ∧ grid_shape 2 2 g.
Proof.
  apply (search_runs 2 2 mountain_cfg ltac:(lia) ltac:(lia) 5).
  vm_compute. lia.
Defined.

Lemma search_returns_best_witness :
  ∃ g st,
    recurse_grid 2 2 (init_landscape 0 static_cfg) 5
                 (allocate_grid 2 2) search_start = Some (g, st)
    ∧ val_calc 2 2 (init_landscape 0 static_cfg) g = Some (bestVal st)
    ∧ 0 ≤ bestVal st.
Proof.
  do 2 eexists. split; [vm_compute; reflexivity|].
  apply (search_returns_best 2 2 0 5); [lia|lia|].
  vm_compute. reflexivity.
Defined.

Lemma recursion_depth_restored_witness :
  ∃ g st,
    recurse_grid 2 2 (init_landscape 0 static_cfg) 5
                 (allocate_grid 2 2) search_start = Some (g, st)
    ∧ recursion_depth st = recursion_depth search_start.
Proof.
  do 2 eexists. split; [vm_compute; reflexivity|].
  eapply (recursion_depth_restored 2 2 (init_landscape 0 static_cfg) 5
            (allocate_grid 2 2) search_start).
  vm_compute. reflexivity.
Defined.

Lemma add_land_commutes_witness :
  ∃ g1 g2 g1',
    add_land 2 2 0 (allocate_grid 2 2) = Some (true, g1)
    ∧ add_land 2 2 1 g1 = Some (true, g2)
    ∧ add_land 2 2 1 (allocate_grid 2 2) = Some (true, g1')
    ∧ add_land 2 2 0 g1' = Some (true, g2).
Proof.
  destruct (add_land_commutes 2 2 0 1 (allocate_grid 2 2) _ _
              eq_refl ltac:(lia) eq_refl eq_refl) as (g1' & H1 & H2).
  eexists _, _, g1'. split; [reflexivity|]. split; [reflexivity|].
  split; [exact H1|exact H2].
Defined.

Lemma count_adj_mountains_on_edges_witness :
  ∃ n, count_adj_mountains 3 3 0 1 corner_land = Some n
       ∧ spec_adjacentLandscapes 3 3 0 1 corner_land
         = Some (n
                 + (if ((0 =? 0) || (0 =? 3 - 1)) && (0 <? 1) && (1 <? 3 - 1)
                    then is_kind LHO_LANDSCAPE (grid corner_land) 0 (1 - 1)
                         + is_kind LHO_LANDSCAPE (grid corner_land) 0 (1 + 1)
                    else 0)
                 + (if ((1 =? 0) || (1 =? 3 - 1)) && (0 <? 0) && (0 <? 3 - 1)
                    then is_kind LHO_LANDSCAPE (grid corner_land) (0 - 1) 1
                         + is_kind LHO_LANDSCAPE (grid corner_land) (0 + 1) 1
                    else 0)).
Proof.
  apply (count_adj_mountains_on_edges 3 3 0 1 corner_land);
    [reflexivity|lia..].
Defined.

Lemma count_adj_mountains_single_row_faults_witness :
  grid_shape 1 3 two_rivers ∧ count_adj_mountains 1 3 0 1 two_rivers = None.
Proof.
  split; [reflexivity|].
  apply (count_adj_mountains_single_row_faults 1 3 1 two_rivers);
    [reflexivity|reflexivity|lia].
Defined.

Lemma valid_river_locs_lists_accepted_witness :
  ∃ g1 locs, add_river 1 3 2 two_rivers = Some (true, g1)
             ∧ valid_river_locs 1 3 two_rivers = Some locs ∧ 2 ∈ locs.
Proof.
  destruct (valid_river_locs_lists_accepted 1 3 2 two_rivers _
              eq_refl ltac:(lia) ltac:(simpl; lia) eq_refl) as (locs & H1 & H2).
  eexists _, locs. split; [reflexivity|]. split; [exact H1|exact H2].
Defined.

Lemma get_adj_locs_wraps_witness :
  get_col_idx 2 1 = 2 - 1
  ∧ 1 + 1 ∈ get_adj_locs 2 2 1 ∧ ¬ adjacent 2 (1 + 1) 1.
Proof.
  split; [reflexivity|].
  apply (get_adj_locs_wraps 2 2 1); [lia|unfold in_range; lia..|reflexivity].
Defined.

Lemma mountain_seed_scores_zero_witness :
  ∃ h, heuristic_grid 2 2 (allocate_grid 2 2) = Some h
       ∧ val_calc 2 2 mountain_cfg h = Some 0.
Proof.
  apply (mountain_seed_scores_zero 2 2 mountain_cfg); [lia|lia|reflexivity].
Defined.

Lemma unknown_landscape_scores_zero_witness :
  init_landscape 7 static_cfg = static_cfg
  ∧ val_calc 2 2 (init_landscape 7 static_cfg) three_placed = Some 0.
Proof.
  apply (unknown_landscape_scores_zero 2 2 7 three_placed); [lia|reflexivity].
Defined.


Lemma copy_grid_is_deep_copy_witness :
  copy_grid_into 2 2 (allocate_grid 2 2) three_placed
  = Some (copy_grid three_placed).
Proof.
  apply (copy_grid_is_deep_copy 2 2 (allocate_grid 2 2) three_placed);
    reflexivity.
Defined.

Lemma heuristic_river_is_linked_witness :
  ∃ h, heuristic_grid 2 3 (allocate_grid 2 3) = Some h
       ∧ zig_cells 2 3 (Z.to_nat (2 * 3) + 1) zig_start
         = [(0, 0); (0, 1); (1, 1); (1, 2)]
       ∧ head (zig_cells 2 3 (Z.to_nat (2 * 3) + 1) zig_start) = Some (0, 0)
       ∧ linked (zig_cells 2 3 (Z.to_nat (2 * 3) + 1) zig_start)
       ∧ (∀ a b, (a, b) ∈ zig_cells 2 3 (Z.to_nat (2 * 3) + 1) zig_start →
                 0 ≤ a < 2 ∧ 0 ≤ b < 3)
       ∧ (∀ a b, type <$> rd (grid h) a b = Some LHO_RIVER
                 ↔ (a, b) ∈ zig_cells 2 3 (Z.to_nat (2 * 3) + 1) zig_start).
Proof.
  eexists. split; [vm_compute; reflexivity|]. split; [reflexivity|].
  apply (heuristic_river_is_linked 2 3 (allocate_grid 2 3));
    [lia|lia|reflexivity|vm_compute; reflexivity].
Defined.

Lemma add_river_remove_terrain_restores_tiles_witness :
  ∃ g1 g2, add_river 1 3 2 two_rivers = Some (true, g1)
           ∧ remove_terrain 1 3 2 g1 = Some g2
           ∧ grid g2 = grid two_rivers
           ∧ numFilledTiles g2 = numFilledTiles two_rivers
           ∧ maxTiles g2 = maxTiles two_rivers.
Proof.
  eexists. 
  destruct (add_river_remove_terrain_restores_tiles 1 3 2 two_rivers _ eq_refl)
    as (g2 & H).
  exists g2. split; [reflexivity|exact H].
Defined.
